(** * Rotor activation-checkpoint solver and the var_mean strategy branch

    A shallow embedding of
    [colossalai/fx/passes/algorithms/ckpt_solver_rotor.py]
    (the dynamic-programming table [_compute_table], the reconstructor
    [_rec], the discretizer [_discretize], the chain builder
    [_construct_chain] and the entry point [solver_rotor]) and of the
    [torch.var_mean] branch of
    [colossalai/auto_parallel/solver/strategies_constructor.py].

    Conventions.
    - Python integers are [Z]; list positions and stage indices are [nat].
    - A finite float is the rational number it stands for, and the rounding
      of every float operation is written out (module [Float]).
    - [float("inf")] is the only float the solver ever stores in a table, so
      a table value is an extended integer [ext].
    - The tables [opt] and [what] are lists of lists of dictionaries in the
      source; a cell [opt[m][i][j]] is the entry at key [(m, i, j)] of a
      finite map.  A read of a missing cell ([IndexError] or [KeyError] in
      Python) is [None] and aborts the computation. *)

From Stdlib Require Import ZArith QArith Qround Lia List.
From stdpp Require Import gmap list strings.

#[local] Open Scope Z_scope.

(** ** Extended integers: Python [int] together with [float("inf")] *)

Module Ext.

Inductive ext : Type :=
| Fin (z : Z)
| Inf.

#[global] Instance ext_eq_dec : EqDecision ext.
Proof. solve_decision. Defined.

(** [a + b] on Python numbers, [inf] absorbing. *)
Definition add (a b : ext) : ext :=
  match a, b with
  | Fin x, Fin y => Fin (x + y)
  | _, _ => Inf
  end.

(** [a <= b]. *)
Definition leb (a b : ext) : bool :=
  match a, b with
  | Fin x, Fin y => x <=? y
  | _, Inf => true
  | Inf, Fin _ => false
  end.

(** [a < b]. *)
Definition ltb (a b : ext) : bool :=
  match a, b with
  | Fin x, Fin y => x <? y
  | Fin _, Inf => true
  | Inf, _ => false
  end.

Definition le (a b : ext) : Prop := leb a b = true.

(** [x == float("inf")]. *)
Definition is_inf (a : ext) : bool :=
  match a with Inf => true | Fin _ => false end.

End Ext.

Import Ext.
Infix "⊕" := Ext.add (at level 50, left associativity).

(** ** The chain (class [Chain] of the solver's utilities)

    [fweight] has one entry per stage, the other lists one more (the entry
    of the loss).  [_compute_table] appends a [0] to all of them but
    [bweight]. *)

Record Chain : Type := mkChain {
  fweight : list Z;   (* forward time *)
  bweight : list Z;   (* backward time *)
  cweight : list Z;   (* size of x *)
  cbweight : list Z;  (* size of xbar *)
  fwd_tmp : list Z;
  bwd_tmp : list Z
}.

(** [chain.length], set to [len(fw)] by the constructor. *)
Definition chain_length (c : Chain) : nat := List.length (fweight c).

(** [l[i]] for an index within range. *)
Definition item (l : list Z) (i : nat) : Z := nth i l 0.

(** [range(a, b)] and [range(n)] over indices, [range(n)] over memory. *)
Definition range (a b : nat) : list nat := seq a (b - a).
Definition zrange (n : Z) : list Z := Z.of_nat <$> seq 0 (Z.to_nat n).

(** [sum(l[i:j])]. *)
Definition slice (l : list Z) (i j : nat) : list Z := take (j - i) (drop i l).
Definition sum (l : list Z) : Z := foldr Z.add 0 l.

(** [max(...)] of a non-empty iterable. *)
Definition py_max (l : list Z) : Z :=
  match l with
  | [] => 0
  | x :: l' => foldl Z.max x l'
  end.

(** Local lists of [_compute_table]. *)
Definition fw (c : Chain) : list Z := fweight c ++ [0].
Definition bw (c : Chain) : list Z := bweight c.
Definition cw (c : Chain) : list Z := cweight c ++ [0].
Definition cbw (c : Chain) : list Z := cbweight c ++ [0].
Definition ftmp (c : Chain) : list Z := fwd_tmp c ++ [0].
Definition btmp (c : Chain) : list Z := bwd_tmp c ++ [0].

(** ** The tables *)

(** [what[m][i][j]]: [(True,)] or [(False, j)]. *)
Inductive decision : Type :=
| ChainCkpt
| LeafCkpt (j : nat).

#[global] Instance decision_eq_dec : EqDecision decision.
Proof. solve_decision. Defined.


(** A [for] loop whose body may fail. *)
Fixpoint for_each {A S : Type} (l : list A) (body : A → S → option S) (s : S)
  : option S :=
  match l with
  | [] => Some s
  | x :: l' => s' ← body x s; for_each l' body s'
  end.

(** ** [_compute_table] *)

(** The base-case bound: [limit] in the first pair of loops. *)
Definition limit (c : Chain) (i : nat) : Z :=
  Z.max (item (cw c) (i + 1) + item (cbw c) (i + 1) + item (ftmp c) i)
        (item (cw c) (i + 1) + item (cbw c) (i + 1) + item (btmp c) i).

Definition init_cell (c : Chain) (m : Z) (i : nat) (opt : gmap (Z * nat * nat) ext)
  : gmap (Z * nat * nat) ext :=
  if decide (limit c i ≤ m)
  then <[(m, i, i) := Fin (item (fw c) i + item (bw c) i)]> opt
  else <[(m, i, i) := Inf]> opt.

(** The first pair of loops. *)
Definition init_table (c : Chain) (mmax : Z) : gmap (Z * nat * nat) ext :=
  foldl (λ opt m,
           foldl (λ opt i, init_cell c m i opt) opt
                 (range 0 (chain_length c + 1)))
        ∅ (zrange (mmax + 1)).

(** [mmin] of the cell [(m, i, idx)]. *)
Definition mmin (c : Chain) (i idx : nat) : Z :=
  let mmin := item (cw c) (idx + 1) + item (cw c) (i + 1) + item (ftmp c) i in
  if decide (i + 1 < idx)%nat
  then Z.max mmin
         (item (cw c) (idx + 1) +
          py_max ((λ j, item (cw c) j + item (cw c) (j + 1) + item (ftmp c) j)
                    <$> range (i + 1) idx))
  else mmin.

(** One element of the list comprehension [leaf_checkpoints]. *)
Definition leaf_total (c : Chain) (opt : gmap (Z * nat * nat) ext) (m : Z) (i idx j : nat)
  : option ext :=
  a ← opt !! (m - item (cw c) j, j, idx);
  b ← opt !! (m, i, (j - 1)%nat);
  Some (Fin (sum (slice (fw c) i j)) ⊕ a ⊕ b).

Definition leaf_checkpoints (c : Chain) (opt : gmap (Z * nat * nat) ext) (m : Z) (i idx : nat)
  : option (list (nat * ext)) :=
  mapM (λ j, v ← leaf_total c opt m i idx j; Some (j, v))
       (filter (λ j, item (cw c) j ≤ m) (range (i + 1) (idx + 1))).

(** [min(leaf_checkpoints, key=lambda t: t[1])]: the first element whose
    key is minimal; [None] stands for the empty list ([best_leaf = None]). *)
Definition best_of (l : list (nat * ext)) : option (nat * ext) :=
  match l with
  | [] => None
  | x :: l' => Some (foldl (λ best y, if Ext.ltb y.2 best.2 then y else best) x l')
  end.

Definition chain_checkpoint (c : Chain) (opt : gmap (Z * nat * nat) ext) (m : Z) (i idx : nat)
  : option ext :=
  if decide (item (cbw c) (i + 1) ≤ m)
  then a ← opt !! (m, i, i);
       b ← opt !! (m - item (cbw c) (i + 1), (i + 1)%nat, idx);
       Some (a ⊕ b)
  else Some Inf.

(** The final [if best_leaf and best_leaf[1] <= chain_checkpoint]: the value
    written to [opt] and the marker written to [what]. *)
Definition choose (best_leaf : option (nat * ext)) (chain_checkpoint : ext)
  : ext * decision :=
  match best_leaf with
  | Some (j, v) =>
      if Ext.leb v chain_checkpoint then (v, LeafCkpt j)
      else (chain_checkpoint, ChainCkpt)
  | None => (chain_checkpoint, ChainCkpt)
  end.

(** What the body of the innermost loop writes at [(m, i, idx)]: the value
    of [opt], and the marker of [what] unless the cell is below [mmin]. *)
Definition solve_cell (c : Chain) (opt : gmap (Z * nat * nat) ext) (m : Z) (i idx : nat)
  : option (ext * option decision) :=
  if decide (m < mmin c i idx) then Some (Inf, None)
  else
    leaf ← leaf_checkpoints c opt m i idx;
    chain ← chain_checkpoint c opt m i idx;
    let r := choose (best_of leaf) chain in
    Some (r.1, Some r.2).

Definition fill_cell (c : Chain) (m : Z) (i idx : nat)
    (t : gmap (Z * nat * nat) ext * gmap (Z * nat * nat) decision)
  : option (gmap (Z * nat * nat) ext * gmap (Z * nat * nat) decision) :=
  r ← solve_cell c t.1 m i idx;
  Some (<[(m, i, idx) := r.1]> t.1,
        match r.2 with
        | Some w => <[(m, i, idx) := w]> t.2
        | None => t.2
        end).

Definition _compute_table (c : Chain) (mmax : Z)
  : option (gmap (Z * nat * nat) ext * gmap (Z * nat * nat) decision) :=
  for_each (zrange (mmax + 1))
    (λ m, for_each (range 1 (chain_length c + 1))
       (λ d, for_each (range 0 (chain_length c + 1 - d))
          (λ i, fill_cell c m i (i + d))))
    (init_table c mmax, ∅).

(** ** Exceptions and results of the rotor solver *)

Inductive exn : Type :=
| NegativeMemory (cmem : Z)
    (* ValueError("Can not process a chain with negative memory {cmem}") *)
| Infeasible (lmin lmax : nat) (cmem : Z)
    (* ValueError("Can not process this chain from index {lmin} to {lmax}
       with memory {cmem}") *)
| LookupError        (* IndexError or KeyError *)
| ZeroDivisionError
| OverflowError      (* int too large to convert to float, or
                        cannot convert float infinity to integer *)
| NotANumber         (* ValueError: cannot convert float NaN to integer *)
| RecursionError.    (* the recursion budget of the model is used up *)

Inductive result (A : Type) : Type :=
| Ok (a : A)
| Err (e : exn).
Arguments Ok {A} a.
Arguments Err {A} e.

Definition bind {A B : Type} (r : result A) (k : A → result B) : result B :=
  match r with
  | Ok a => k a
  | Err e => Err e
  end.

Notation "'do' x <- r ; k" := (bind r (λ x, k))
  (at level 10, x name, r at level 100, k at level 200).

(** A table or list read: a missing entry raises. *)
Definition read {A : Type} (o : option A) : result A :=
  match o with
  | Some a => Ok a
  | None => Err LookupError
  end.

(** ** The sequence of operations

    Modelled from the spec: the classes [Operation] and [Sequence] live in
    the solver's utilities, which are not part of the sources at hand.  A
    sequence is the ordered list of its atomic operations; [insert] appends
    one operation and [insert_sequence] the operations of a sub-sequence. *)

Inductive Operation : Type :=
| ForwardEnable (i : nat)
| ForwardCheck (i : nat)
| ForwardNograd (i : nat)
| Backward (i : nat)
| Loss.

#[global] Instance Operation_eq_dec : EqDecision Operation.
Proof. solve_decision. Defined.

(** Modelled from the spec: the time of one operation, [fwd_time[i]] for the
    three forward operations, [bwd_time[i]] for [Backward(i)], nothing for
    [Loss]. *)
Definition cost (c : Chain) (op : Operation) : Z :=
  match op with
  | ForwardEnable i | ForwardCheck i | ForwardNograd i => item (fweight c) i
  | Backward i => item (bweight c) i
  | Loss => 0
  end.

Definition total_time (c : Chain) (s : list Operation) : Z :=
  sum (cost c <$> s).

(** ** [_rec]

    The recursion of [_rec] follows the markers of [what]; [fuel] bounds its
    depth. *)
Fixpoint _rec (fuel : nat) (c : Chain) (lmin lmax : nat) (cmem : Z)
    (opt_table : gmap (Z * nat * nat) ext * gmap (Z * nat * nat) decision)
  : result (list Operation) :=
  match fuel with
  | O => Err RecursionError
  | S fuel =>
      if decide (cmem ≤ 0) then Err (NegativeMemory cmem)
      else
        let '(opt, what) := opt_table in
        do v <- read (opt !! (cmem, lmin, lmax));
        if Ext.is_inf v then Err (Infeasible lmin lmax cmem)
        else if decide (lmin = lmax) then
          if decide (lmin = chain_length c) then Ok [Loss]
          else Ok [ForwardEnable lmin; Backward lmin]
        else
          do w <- read (what !! (cmem, lmin, lmax));
          match w with
          | ChainCkpt =>
              do xbar <- read (cbweight c !! (lmin + 1)%nat);
              do s <- _rec fuel c (lmin + 1) lmax (cmem - xbar) opt_table;
              Ok ([ForwardEnable lmin] ++ s ++ [Backward lmin])
          | LeafCkpt j =>
              do x <- read (cweight c !! j);
              do s1 <- _rec fuel c j lmax (cmem - x) opt_table;
              do s2 <- match j with
                       | O => Err LookupError   (* opt[cmem][lmin][-1] *)
                       | S j' => _rec fuel c lmin j' cmem opt_table
                       end;
              Ok ([ForwardCheck lmin] ++ (ForwardNograd <$> range (lmin + 1) j)
                    ++ s1 ++ s2)
          end
  end.

(** ** Floats

    Python's [float] is the IEEE 754 binary64 format: 53 significant bits,
    exponents of the leading bit from -1022 to 1023, every operation rounded
    to the nearest float, ties to the even significand.  A finite float is
    modelled by the rational number it stands for, in lowest terms; [None]
    stands for a float that is not finite. *)

Module Float.

(** [floor (log2 (N / D))] for positive [N] and [D]. *)
Definition exponent (N D : Z) : Z :=
  if decide (D ≤ N) then Z.log2 (N `div` D)
  else - Z.log2_up ((D + N - 1) `div` N).

(** [N / D] rounded to the nearest integer, ties to the even one. *)
Definition rhe_div (N D : Z) : Z :=
  let q := N `div` D in
  let r := N `mod` D in
  if decide (2 * r < D) then q
  else if decide (D < 2 * r) then q + 1
  else if Z.even q then q else q + 1.

(** The significand [m] and the exponent [e] of the float [m * 2 ^ e]
    nearest to [N / D], for positive [N] and [D]: 53 bits, or fewer at the
    exponent -1074 of the subnormal floats. *)
Definition round_frac (N D : Z) : Z * Z :=
  let e := Z.max (exponent N D) (-1022) - 52 in
  if decide (0 ≤ e) then (rhe_div N (D * 2 ^ e), e)
  else (rhe_div (N * 2 ^ (- e)) D, e).

(** [m * 2 ^ e] *)
Definition dyadic (m e : Z) : Q :=
  if decide (0 ≤ e) then inject_Z (m * 2 ^ e)
  else (m # Z.to_pos (2 ^ (- e)))%Q.

(** The float nearest to [x]; from [2 ^ 1024] on, the rounded value is
    infinite. *)
Definition fl (x : Q) : option Q :=
  let x := Qred x in
  if decide (Qnum x = 0) then Some 0%Q
  else
    let '(m, e) := round_frac (Z.abs (Qnum x)) (Zpos (Qden x)) in
    if decide (0 ≤ e ∧ 2 ^ 1024 ≤ m * 2 ^ e) then None
    else Some (Qred (dyadic (Z.sgn (Qnum x) * m) e)).

(** The conversion of an [int] to a float, as the arithmetic operators do
    it on an [int] operand: an [int] that rounds to infinity raises. *)
Definition to_double (v : Z) : result Q :=
  match fl (inject_Z v) with
  | Some a => Ok a
  | None => Err OverflowError
  end.

(** [math.trunc] *)
Definition trunc (x : Q) : Z :=
  if decide (0 ≤ Qnum x) then Qfloor x else Qceiling x.

(** [vx // wx] on floats ([float_floor_div] of CPython): [mod] is
    [fmod(vx, wx)], which is exact; the result is [None] for nan. *)
Definition floor_div (vx : option Q) (wx : Q) : result (option Q) :=
  if decide (Qnum wx = 0) then Err ZeroDivisionError
  else Ok (
    vx ← vx;
    let mod_ := (vx - wx * inject_Z (trunc (vx / wx)))%Q in
    d0 ← fl (vx - mod_);
    div ← fl (d0 / wx);
    div ← (if decide (Qnum mod_ = 0) then Some div
           else if xorb (Qnum wx <? 0) (Qnum mod_ <? 0)
                then fl (div - 1) else Some div);
    if decide (Qnum div = 0) then Some 0%Q
    else
      let floordiv := inject_Z (Qfloor div) in
      match fl (div - floordiv) with
      | Some t =>
          if Qle_bool t (1 # 2) then Some floordiv else fl (floordiv + 1)
      | None => Some floordiv
      end).

End Float.

(** ** [_discretize], [_construct_chain] and [solver_rotor]

    The raw values are [int]s and [mem_unit] is a float; [value / mem_unit]
    is a division of floats. *)

(** [math.ceil(value / mem_unit)] for an [int] value and the float
    [mem_unit], which [solver_rotor] computes by [//]: a float with an
    integral value, or nan ([None]).  [value] is converted to a float, the
    quotient is rounded, and [math.ceil] of a float is exact. *)
Definition ceil_div (value : Z) (mem_unit : option Z) : result Z :=
  do a <- Float.to_double value;
  match mem_unit with
  | None => Err NotANumber
  | Some mem_unit =>
      if decide (mem_unit = 0) then Err ZeroDivisionError
      else
        match Float.fl (a / inject_Z mem_unit) with
        | Some q => Ok (Qceiling q)
        | None => Err OverflowError
        end
  end.

Fixpoint _discretize (mem_unit : option Z) (values : list Z)
  : result (list Z) :=
  match values with
  | [] => Ok []
  | value :: values =>
      do d <- ceil_div value mem_unit;
      do ds <- _discretize mem_unit values;
      Ok (d :: ds)
  end.

(** One entry of [node_list], as seen through the helpers that
    [_construct_chain] calls on it. *)
Record Stage : Type := mkStage {
  stage_fwd_time : Z;      (* _fwd_time(node) *)
  stage_bwd_time : Z;      (* _bwd_time(node) *)
  stage_output_size : Z;   (* _compute_output_size(node) *)
  stage_fwd_xbar : Z;      (* _fwd_xbar(node) *)
  stage_bwd_tmp : Z;       (* _get_bwd_tmp(node) *)
  stage_inplace : bool     (* len(node) == 1 and _get_inplace(node[0]) *)
}.

(** [data_size] is the size in bytes of [data]. *)
Definition _construct_chain (node_list : list Stage) (data_size : Z)
    (mem_unit : option Z) : result Chain :=
  let fwd_time := stage_fwd_time <$> node_list in
  let bwd_time := (stage_bwd_time <$> node_list) ++ [0] in
  let x_sizes := data_size :: (stage_output_size <$> node_list) in
  let xbar_sizes :=
    data_size ::
      ((λ node, if stage_inplace node then 0
                else Z.max (stage_output_size node) (stage_fwd_xbar node))
         <$> node_list) in
  let tmp_fwd := replicate (List.length node_list) 0 in
  let tmp_bwd := (stage_bwd_tmp <$> node_list) ++ [0] in
  do xbar_sizes <- _discretize mem_unit xbar_sizes;
  do x_sizes <- _discretize mem_unit x_sizes;
  do tmp_fwd <- _discretize mem_unit tmp_fwd;
  do tmp_bwd <- _discretize mem_unit tmp_bwd;
  Ok (mkChain fwd_time bwd_time x_sizes xbar_sizes tmp_fwd tmp_bwd).

(** [mem_limit * (1.0 - eps) // mem_slots] for the finite float that the
    decimal [eps] is read as. *)
Definition mem_unit_of (mem_limit mem_slots : Z) (eps : Q)
  : result (option Z) :=
  do l <- Float.to_double mem_limit;
  do wx <- Float.to_double mem_slots;
  let vx := eps ← Float.fl eps;
            x1 ← Float.fl (1 - eps);
            Float.fl (l * x1) in
  do mem_unit <- Float.floor_div vx wx;
  Ok (Qfloor <$> mem_unit).

(** [solver_rotor] up to the sequence it stores in [gm.__sequence__]; the
    linearisation, the profiling and the annotation of the graph are left
    to their modules. *)
Definition solver_rotor (node_list : list Stage) (data_size : Z)
    (mem_limit mem_slots : Z) (eps : Q)
  : result (Chain * (gmap (Z * nat * nat) ext * gmap (Z * nat * nat) decision)
            * list Operation) :=
  do mem_unit <- mem_unit_of mem_limit mem_slots eps;
  do chain <- _construct_chain node_list data_size mem_unit;
  do opt_table <- read (_compute_table chain mem_slots);
  do x0 <- read (cweight chain !! 0%nat);
  do sequence <- _rec (S (chain_length chain)) chain 0 (chain_length chain)
                      (mem_slots - x0) opt_table;
  Ok (chain, opt_table, sequence).

(** ** Well-formed chains

    The lengths are those the constructor of [Chain] accepts and
    [_construct_chain] produces; sizes are non-negative numbers of memory
    units. *)

Record wf_chain (c : Chain) : Prop := {
  wf_bweight : List.length (bweight c) = S (chain_length c);
  wf_cweight : List.length (cweight c) = S (chain_length c);
  wf_cbweight : List.length (cbweight c) = S (chain_length c);
  wf_fwd_tmp : List.length (fwd_tmp c) = chain_length c;
  wf_bwd_tmp : List.length (bwd_tmp c) = S (chain_length c);
  wf_cweight_nonneg : Forall (λ x, 0 ≤ x) (cweight c);
  wf_cbweight_nonneg : Forall (λ x, 0 ≤ x) (cbweight c);
  wf_fwd_tmp_nonneg : Forall (λ x, 0 ≤ x) (fwd_tmp c);
  wf_bwd_tmp_nonneg : Forall (λ x, 0 ≤ x) (bwd_tmp c)
}.

(** The value of a base cell [opt[m][i][i]]. *)
Definition base_value (c : Chain) (m : Z) (i : nat) : ext :=
  if decide (limit c i ≤ m) then Fin (item (fw c) i + item (bw c) i) else Inf.

(** ** The invariant of the three nested loops *)

(** The cell [(m, i, idx)] holds what the loop body computes for it. *)
Definition cell_ok (c : Chain)
    (t : gmap (Z * nat * nat) ext * gmap (Z * nat * nat) decision)
    (m : Z) (i idx : nat) : Prop :=
  ∃ r, solve_cell c t.1 m i idx = Some r ∧
       t.1 !! (m, i, idx) = Some r.1 ∧ t.2 !! (m, i, idx) = r.2.

(** The cells written before the iteration [(m0, d0, i0)] starts. *)
Definition filled (L : nat) (m0 : Z) (d0 i0 : nat) (m : Z) (i idx : nat)
  : Prop :=
  0 ≤ m ∧ (i < idx ≤ L)%nat ∧
  (m < m0 ∨ (m = m0 ∧ (idx - i < d0 ∨ (idx - i = d0 ∧ i < i0))%nat)).

Record table_inv (c : Chain) (mmax : Z) (F : Z → nat → nat → Prop)
    (t : gmap (Z * nat * nat) ext * gmap (Z * nat * nat) decision) : Prop := {
  inv_base : ∀ m i, 0 ≤ m ≤ mmax → (i ≤ chain_length c)%nat →
             t.1 !! (m, i, i) = Some (base_value c m i);
  inv_filled : ∀ m i idx, F m i idx → cell_ok c t m i idx;
  inv_fresh : ∀ m i idx,
      ¬ (0 ≤ m ≤ mmax ∧ (i ≤ chain_length c)%nat ∧ i = idx) → ¬ F m i idx →
      t.1 !! (m, i, idx) = None;
  inv_what : ∀ m i idx, ¬ F m i idx → t.2 !! (m, i, idx) = None
}.

(** Every stage keeps at least one unit of memory, as [x] and as [xbar]. *)
Definition positive_sizes (c : Chain) : Prop :=
  ∀ k, (1 ≤ k ≤ chain_length c)%nat →
       0 < item (cweight c) k ∧ 0 < item (cbweight c) k.

(** * The [torch.var_mean] branch of [build_strategies_and_cost] *)

Module StrategiesConstructor.

Inductive pyexn : Type :=
| KeyError (key : string)
| IndexError
| AssertionError (message : string)
| NameError (name : string)     (* UnboundLocalError, a subclass of NameError *)
| RuntimeError (message : string)
| HandlerError.                 (* raised inside a handler or a helper *)

Inductive outcome (A : Type) : Type :=
| Done (a : A)
| Raise (e : pyexn).
Arguments Done {A} a.
Arguments Raise {A} e.

(** [ShardingSpec], through the attributes the branch reads. *)
Record ShardingSpec : Type := mkShardingSpec {
  entire_shape : list Z;
  dim_partition_dict : gmap Z (list Z);
  sharding_sequence : string
}.

(** The attribute [output_sharding_spec] of a strategy: one [ShardingSpec],
    or a tuple of them. *)
Inductive sharding_output : Type :=
| OneSpec (spec : ShardingSpec)
| TupleSpec (specs : list ShardingSpec).

Record ShardingStrategy : Type := mkShardingStrategy {
  name : string;
  output_sharding_spec : sharding_output
}.

Inductive Target : Type :=
| torch_var_mean
| operator_getitem
| Callable (qualname : string).

#[global] Instance Target_eq_dec : EqDecision Target.
Proof. solve_decision. Defined.

(** A node of the graph: [predecessor_strategies] lists, for each node of
    [strategies_vector.predecessor_nodes], its attribute
    [strategies_vector]. *)
Record Node : Type := mkNode {
  op : string;
  target : Target;
  kwargs : gmap string Z;
  predecessor_strategies : list (list ShardingStrategy)
}.

(** The two local variables of [build_strategies_and_cost] that the
    f-string of the branch reads; [None] is an unbound local. *)
Record frame : Type := mkFrame {
  local_new_input_sharding_spec : option ShardingSpec;
  local_output_sharding_spec : option sharding_output
}.

Definition fresh_frame : frame := mkFrame None None.

(** A [for] loop over a list whose body may raise. *)
Fixpoint for_loop {A St : Type} (body : St → A → outcome St) (l : list A)
    (s : St) : outcome St :=
  match l with
  | [] => Done s
  | x :: l' =>
      match body s x with
      | Done s' => for_loop body l' s'
      | Raise e => Raise e
      end
  end.

Section build_strategies_and_cost.
(** The tables of the module [constants]. *)
Variables CONV_FUNC_OP LINEAR_FUNC_OP RESHAPE_FUNC_OP : list Target.
Variables ELEMENTWISE_FUNC_OP BCAST_FUNC_OP : list Target.

(** The statements of one iteration that follow the f-string, given
    [dim], [input_sharding_spec] and the values of the two locals. *)
Variable var_mean_strategy :
  Z → ShardingSpec → ShardingSpec → sharding_output → outcome frame.

(** The other branches: they raise or finish, and may rebind the local
    [output_sharding_spec]; [new_input_sharding_spec] is assigned nowhere
    but in the [torch.var_mean] branch. *)
Variable other_branch :
  Node → option sharding_output → outcome (option sharding_output).

Definition run_other_branch (node : Node) (fr : frame) : outcome frame :=
  match other_branch node (local_output_sharding_spec fr) with
  | Done o => Done (mkFrame (local_new_input_sharding_spec fr) o)
  | Raise e => Raise e
  end.

(** One iteration of [for strategy in input_tensor_node.strategies_vector]. *)
Definition var_mean_iteration (dim : Z) (fr : frame)
    (strategy : ShardingStrategy) : outcome frame :=
  match output_sharding_spec strategy with
  | TupleSpec _ =>
      Raise (AssertionError "The input node should NOT be a tuple of tensor.")
  | OneSpec input_sharding_spec =>
      match local_new_input_sharding_spec fr with
      | None => Raise (NameError "new_input_sharding_spec")
      | Some new_input_sharding_spec =>
          match local_output_sharding_spec fr with
          | None => Raise (NameError "output_sharding_spec")
          | Some output_sharding_spec =>
              var_mean_strategy dim input_sharding_spec
                new_input_sharding_spec output_sharding_spec
          end
      end
  end.

Definition var_mean_branch (node : Node) (fr : frame) : outcome frame :=
  match kwargs node !! "dim" with
  | None => Raise (KeyError "dim")
  | Some dim =>
      match predecessor_strategies node with
      | [] => Raise IndexError
      | strategies_vector :: _ =>
          for_loop (var_mean_iteration dim) strategies_vector fr
      end
  end.

(** The body of [for node in self.nodes]. *)
Definition process_node (fr : frame) (node : Node) : outcome frame :=
  if decide (op node = "call_function") then
    if decide (target node ∈ CONV_FUNC_OP) then run_other_branch node fr
    else if decide (target node ∈ LINEAR_FUNC_OP) then run_other_branch node fr
    else if decide (target node ∈ RESHAPE_FUNC_OP) then run_other_branch node fr
    else if decide (target node ∈ ELEMENTWISE_FUNC_OP ∨
                    (target node ∈ BCAST_FUNC_OP ∧
                     List.length (predecessor_strategies node) = 1%nat))
         then run_other_branch node fr
    else if decide (target node ∈ BCAST_FUNC_OP) then run_other_branch node fr
    else if decide (target node = torch_var_mean) then var_mean_branch node fr
    else if decide (target node = operator_getitem) then run_other_branch node fr
    else Raise (RuntimeError "function is NOT supported now.")
  else run_other_branch node fr.

Definition build_strategies_and_cost (nodes : list Node) : outcome frame :=
  for_loop process_node nodes fresh_frame.

(** The branch is the one taken for [torch.var_mean]. *)
Definition var_mean_reached : Prop :=
  ¬ (torch_var_mean ∈ CONV_FUNC_OP) ∧ ¬ (torch_var_mean ∈ LINEAR_FUNC_OP) ∧
  ¬ (torch_var_mean ∈ RESHAPE_FUNC_OP) ∧
  ¬ (torch_var_mean ∈ ELEMENTWISE_FUNC_OP) ∧ ¬ (torch_var_mean ∈ BCAST_FUNC_OP).

End build_strategies_and_cost.

End StrategiesConstructor.

(** ** Chains and tables used as examples *)

(** One stage of forward time 5 and backward time 3; every size is one unit. *)
Definition chain_unit : Chain := mkChain [5] [3; 0] [1; 1] [1; 1] [0] [0; 0].

(** The same stage with an output of size zero and an [xbar] of one unit. *)
Definition chain_empty_output : Chain :=
  mkChain [5] [3; 0] [0; 0] [0; 1] [0] [0; 0].

(** As [chain_empty_output], with other times and an [xbar] of two units. *)
Definition chain_empty_output2 : Chain :=
  mkChain [2] [1; 0] [0; 0] [0; 2] [0] [0; 0].

(** Two stages, every size one unit. *)
Definition chain_two : Chain :=
  mkChain [5; 5] [3; 3; 0] [1; 1; 1] [1; 1; 1] [0; 0] [0; 0; 0].

(** Three stages on which, with 5 units of memory, the best leaf total and
    the chain total of the range [(0, 2)] are both 13. *)
Definition chain_tie : Chain :=
  mkChain [1; 1; 1] [3; 3; 3; 0] [1; 1; 1; 1] [1; 2; 2; 1] [0; 0; 0]
          [0; 0; 0; 0].

(** Three stages of one unit each, whose second and third stage keep nothing
    for the backward pass: the range [(0, 2)] has a finite leaf candidate
    with 2 units of memory. *)
Definition chain_floor : Chain :=
  mkChain [1; 1; 1] [3; 3; 3; 0] [1; 1; 1; 1] [1; 1; 0; 0] [0; 0; 0]
          [0; 0; 0; 0].

(** The table of a chain, empty if [_compute_table] raises. *)
Definition table_of (c : Chain) (mmax : Z)
  : gmap (Z * nat * nat) ext * gmap (Z * nat * nat) decision :=
  default (∅, ∅) (_compute_table c mmax).

(** ** Nodes used as examples *)

Module Examples.
Import StrategiesConstructor.

(** A replicated sharding of a tensor of shape [[4; 8]]. *)
Definition replica_spec : ShardingSpec := mkShardingSpec [4; 8] ∅ "[R, R]".

Definition replica_strategy : ShardingStrategy :=
  mkShardingStrategy "Replica Placeholder" (OneSpec replica_spec).

Definition placeholder_node : Node :=
  mkNode "placeholder" (Callable "x") ∅ [].

(** [torch.var_mean(x, dim=1)]. *)
Definition var_mean_node : Node :=
  mkNode "call_function" torch_var_mean {["dim" := 1]} [[replica_strategy]].

(** [torch.var_mean(x, 1)]: the dimension is a positional argument. *)
Definition var_mean_node_positional : Node :=
  mkNode "call_function" torch_var_mean ∅ [[replica_strategy]].

(** The placeholder branch with [solver_options.fast]: it binds the local
    [output_sharding_spec]; the other branches are left alone here. *)
Definition placeholder_branch (node : Node) (o : option sharding_output)
  : outcome (option sharding_output) :=
  if decide (op node = "placeholder") then Done (Some (OneSpec replica_spec))
  else Done o.

(** The rest of an iteration of the [torch.var_mean] loop, were it reached. *)
Definition unreached (dim : Z) (input_sharding_spec new_input : ShardingSpec)
    (output : sharding_output) : outcome frame :=
  Done (mkFrame (Some new_input) (Some output)).

End Examples.

(** ** Reading a sequence

    [isinstance(op, Forward)] with [op.index], and [isinstance(op, Backward)]
    with [op.index]. *)

Definition forward_index (op : Operation) : option nat :=
  match op with
  | ForwardEnable i | ForwardCheck i | ForwardNograd i => Some i
  | Backward _ | Loss => None
  end.

Definition backward_index (op : Operation) : option nat :=
  match op with
  | Backward i => Some i
  | _ => None
  end.

(** The indices of the [Backward] operations of a sequence, in order. *)
Definition backward_indices (s : list Operation) : list nat :=
  omap backward_index s.

(** The last stage that a request [(lmin, lmax)] runs backward, plus one:
    the range ends at the loss when [lmax] is the length of the chain. *)
Definition stages_end (c : Chain) (lmax : nat) : nat :=
  if decide (lmax = chain_length c) then lmax else S lmax.

(** ** Times and budgets read off a chain *)

(** The time of one forward and one backward pass over the stages [i..j]:
    what the range costs when nothing is recomputed. *)
Definition run_time (c : Chain) (i j : nat) : Z :=
  sum ((λ k, item (fw c) k + item (bw c) k) <$> range i (S j)).

(** [stores_all c n i m]: with [m] units, the chain option is open at every
    stage of the range [(i, i + n)], each stage keeping its [xbar]. *)
Fixpoint stores_all (c : Chain) (n i : nat) (m : Z) : bool :=
  bool_decide (limit c i ≤ m) &&
  match n with
  | O => true
  | S n' =>
      bool_decide (mmin c i (i + n) ≤ m) &&
      bool_decide (item (cbw c) (i + 1) ≤ m) &&
      stores_all c n' (i + 1) (m - item (cbw c) (i + 1))
  end.

(** ** Measurements that fit the chain builder *)

(** The ceiling of the exact quotient [value / mem_unit], for a non-zero
    [mem_unit]: what [math.ceil(value / mem_unit)] stands for when no
    rounding interferes.  [_discretize] itself goes through [ceil_div]. *)
Definition exact_ceil (mem_unit value : Z) : Z :=
  - ((- value) `div` mem_unit).

(** The byte counts of a stage are non-negative. *)
Definition stage_nonneg (node : Stage) : Prop :=
  0 ≤ stage_output_size node ∧ 0 ≤ stage_fwd_xbar node ∧
  0 ≤ stage_bwd_tmp node.

(** The byte counts of a stage are below [2 ^ 53]: each of them is a float,
    and so is every integer up to it. *)
Definition stage_exact (node : Stage) : Prop :=
  stage_output_size node < 2 ^ 53 ∧ stage_fwd_xbar node < 2 ^ 53 ∧
  stage_bwd_tmp node < 2 ^ 53.

Definition enable_index (op : Operation) : option nat :=
  match op with
  | ForwardEnable i => Some i
  | _ => None
  end.

(** The indices of the [ForwardEnable] operations of a sequence, in order. *)
Definition enable_indices (s : list Operation) : list nat :=
  omap enable_index s.

(** * [remove_duplicated_strategy]

    The strategies are the items of [strategies_vector]; the equality of
    [A] is the [==] that [list.remove] compares them with, and
    [strategy_name] reads the attribute [name]. *)

Section remove_duplicated.
Context {A : Type} `{EqDecision A} (strategy_name : A → string).

(** [l.remove(x)]: the first item equal to [x] is removed; [None] is the
    [ValueError] raised when there is none. *)
Fixpoint list_remove (x : A) (l : list A) : option (list A) :=
  match l with
  | [] => None
  | y :: l' => if decide (y = x) then Some l' else cons y <$> list_remove x l'
  end.

(** The first loop, from the state [(name_checklist, remove_list)]. *)
Definition check_names (st : list string * list A) (strategies_vector : list A)
  : list string * list A :=
  foldl (λ '(name_checklist, remove_list) strategy,
           if decide (strategy_name strategy ∈ name_checklist)
           then (name_checklist, remove_list ++ [strategy])
           else (name_checklist ++ [strategy_name strategy], remove_list))
        st strategies_vector.

Definition remove_duplicated_strategy (strategies_vector : list A)
  : option (list A) :=
  let '(_, remove_list) := check_names ([], []) strategies_vector in
  for_each remove_list list_remove strategies_vector.

(** Modelled from the docstring: the strategies left when duplicates are
    dropped depending on the name, each name kept at its first strategy;
    [seen] lists the names met so far. *)
Fixpoint first_of_each_name (seen : list string) (l : list A) : list A :=
  match l with
  | [] => []
  | x :: l' =>
      if decide (strategy_name x ∈ seen) then first_of_each_name seen l'
      else x :: first_of_each_name (seen ++ [strategy_name x]) l'
  end.

(** The strategies that bear a name met before. *)
Fixpoint repeated_names (seen : list string) (l : list A) : list A :=
  match l with
  | [] => []
  | x :: l' =>
      if decide (strategy_name x ∈ seen) then x :: repeated_names seen l'
      else repeated_names (seen ++ [strategy_name x]) l'
  end.

End remove_duplicated.

(** * The measurements of a stage

    One entry of [node_list] is a list of [torch.fx.Node]; the helpers
    below read the profiled attributes of its nodes. *)

Module Fx.

(** [node.op], with what [_get_inplace] finds for it: the entry ["inplace"]
    of [node.kwargs] of a function call, the attribute [inplace] of the
    sub-module of a module call; [None] when there is none. *)
Inductive Op : Type :=
| call_function (kwargs_inplace : option bool)
| call_module (submodule_inplace : option bool)
| other_op.

(** A node through the attributes that the helpers read.  A node that is
    used as a key of a dict is its identity together with its [bwd_out],
    the one attribute read from a key. *)
Record Node : Type := mkNode {
  uid : nat;
  op : Op;
  numel : Z;                 (* meta['tensor_meta'].numel *)
  element_size : Z;          (* of the dtype of meta['tensor_meta'] *)
  fwd_flop : Z;
  bwd_flop : Z;
  fwd_tmp : Z;
  fwd_out : Z;
  bwd_tmp : Z;
  bwd_out : Z;
  users : gset (nat * Z);    (* the keys of n.users *)
  input_nodes : nat          (* len(n._input_nodes) *)
}.

Definition key (n : Node) : nat * Z := (uid n, bwd_out n).

Definition _compute_output_size (node : list Node) : result Z :=
  do n <- read (last node);
  Ok (numel n * element_size n).

Definition _get_inplace (n : Node) : bool :=
  match op n with
  | call_function kwargs_inplace => default false kwargs_inplace
  | call_module submodule_inplace => default false submodule_inplace
  | other_op => false
  end.

Definition _fwd_xbar (node : list Node) : Z :=
  foldl (λ xbar n, xbar + (fwd_tmp n + fwd_out n)) 0 node.

Definition _fwd_time (node : list Node) : Z :=
  foldl (λ fwd_time n, fwd_time + Z.max (fwd_flop n) 1) 0 node.

Definition _bwd_time (node : list Node) : Z :=
  foldl (λ bwd_time n, bwd_time + Z.max (bwd_flop n) 1) 0 node.

(** [_get_deps_size], over the keys of [deps]. *)
Definition _get_deps_size (deps : gmap (nat * Z) Z) : Z :=
  map_fold (λ key _ deps_size, deps_size + key.2) 0 deps.

(** [deps[son] -= 1]: a [KeyError] when [son] is no key of [deps]. *)
Definition decrement (son : nat * Z) (deps : gmap (nat * Z) Z)
  : option (gmap (nat * Z) Z) :=
  count ← deps !! son; Some (<[son := count - 1]> deps).

(** The body of [for n in reversed(node)], on [(bwd_tmp, deps)]. *)
Definition bwd_tmp_step (n : Node) (st : Z * gmap (nat * Z) Z)
  : option (Z * gmap (nat * Z) Z) :=
  let bwd_tmp := Z.max st.1 (_get_deps_size st.2 + bwd_tmp n) in
  let deps := <[key n := Z.of_nat (input_nodes n)]> st.2 in
  deps ← for_each (elements (users n)) decrement deps;
  Some (bwd_tmp, filter (λ kv, kv.2 ≠ 0) deps).

(** [node[-1]] raises [IndexError] on an empty stage; the users of the last
    node all enter [deps] with the count 1. *)
Definition _get_bwd_tmp (node : list Node) : result Z :=
  do last_node <- read (last node);
  let deps := gset_to_gmap 1 (users last_node) in
  do st <- read (for_each (reverse node) bwd_tmp_step (0, deps));
  Ok st.1.

(** The body of the loop of [_construct_chain] over [node_list]: the
    measurements of one stage, taken in the order of the source. *)
Definition measure (node : list Node) : result Stage :=
  let fwd_time := _fwd_time node in
  let bwd_time := _bwd_time node in
  do output_size <- _compute_output_size node;
  let xbar := _fwd_xbar node in
  do tmp_bwd <- _get_bwd_tmp node;
  let inplace := match node with
                 | [n] => _get_inplace n
                 | _ => false
                 end in
  Ok (mkStage fwd_time bwd_time output_size xbar tmp_bwd inplace).

Fixpoint measure_all (node_list : list (list Node)) : result (list Stage) :=
  match node_list with
  | [] => Ok []
  | node :: node_list =>
      do stage <- measure node;
      do stages <- measure_all node_list;
      Ok (stage :: stages)
  end.

(** Every profiled size of the node is a non-negative number. *)
Definition nonneg_sizes (n : Node) : Prop :=
  0 ≤ numel n ∧ 0 ≤ element_size n ∧ 0 ≤ fwd_tmp n ∧ 0 ≤ fwd_out n.

End Fx.

(** * [_annotate_from_sequence]

    The two passes over the operations of the sequence, up to the
    postprocess of the nested regions (which is left to the code generator
    it calls).  A node is its identity: the passes touch nothing of a node
    but its attribute [activation_checkpoint]. *)

Module Annotate.

Inductive pyexn : Type :=
| StopIteration      (* next() on an exhausted generator *)
| IndexError         (* node_list[node_idx] *)
| AttributeError.    (* n.activation_checkpoint of a node without it *)

Inductive outcome (A : Type) : Type :=
| Returns (a : A)
| Raises (e : pyexn).
Arguments Returns {A} a.
Arguments Raises {A} e.

#[global] Instance outcome_bind : MBind outcome :=
  λ A B k r, match r with
             | Returns a => k a
             | Raises e => Raises e
             end.

(** A [for] loop whose body may raise. *)
Fixpoint for_loop {A St : Type} (l : list A) (body : A → St → outcome St)
    (s : St) : outcome St :=
  match l with
  | [] => Returns s
  | x :: l' => s' ← body x s; for_loop l' body s'
  end.

(** The attribute [activation_checkpoint] of the nodes that have one. *)
Abbreviation attributes := (gmap nat (list nat)).

(** [setattr(n, "activation_checkpoint", [ckpt_idx])] *)
Definition set_label (ckpt_idx : nat) (n : nat) (attrs : attributes)
  : outcome attributes :=
  Returns (<[n := [ckpt_idx]]> attrs).

(** [n.activation_checkpoint.append(ckpt_idx)] *)
Definition append_label (ckpt_idx : nat) (n : nat) (attrs : attributes)
  : outcome attributes :=
  match attrs !! n with
  | Some label => Returns (<[n := label ++ [ckpt_idx]]> attrs)
  | None => Raises AttributeError
  end.

(** [for node_idx in ckpt_region: for n in node_list[node_idx]: ...] *)
Definition for_region (node_list : list (list nat))
    (update : nat → attributes → outcome attributes)
    (ckpt_region : list nat) (attrs : attributes) : outcome attributes :=
  for_loop ckpt_region
    (λ node_idx attrs,
       match node_list !! node_idx with
       | Some node => for_loop node update attrs
       | None => Raises IndexError
       end) attrs.

(** The local variables of the two loops, and the attributes. *)
Record locals : Type := mkLocals {
  in_ckpt : bool;
  in_recompute : bool;
  ckpt_idx : nat;
  ckpt_region : list nat;
  attrs : attributes
}.

(** The body of the forward loop, on [(idx, op)]. *)
Definition forward_step (node_list : list (list nat))
    (entry : nat * Operation) (st : locals) : outcome locals :=
  let '(idx, op) := entry in
  if in_ckpt st then
    match op with
    | ForwardNograd _ =>
        Returns (mkLocals true (in_recompute st) (ckpt_idx st)
                   (ckpt_region st ++ [idx]) (attrs st))
    | ForwardEnable _ =>
        attrs' ← for_region node_list (set_label (ckpt_idx st))
                   (ckpt_region st) (attrs st);
        Returns (mkLocals false (in_recompute st) (S (ckpt_idx st)) [] attrs')
    | ForwardCheck _ =>
        attrs' ← for_region node_list (set_label (ckpt_idx st))
                   (ckpt_region st) (attrs st);
        Returns (mkLocals true (in_recompute st) (S (ckpt_idx st)) [idx] attrs')
    | Backward _ | Loss => Returns st
    end
  else
    match op with
    | ForwardCheck _ =>
        Returns (mkLocals true (in_recompute st) (ckpt_idx st)
                   (ckpt_region st ++ [idx]) (attrs st))
    | _ => Returns st
    end.

(** The body of the backward loop. *)
Definition backward_step (node_list : list (list nat)) (op : Operation)
    (st : locals) : outcome locals :=
  if in_recompute st then
    match op with
    | ForwardNograd index =>
        Returns (mkLocals (in_ckpt st) true (ckpt_idx st)
                   (ckpt_region st ++ [index]) (attrs st))
    | ForwardEnable _ =>
        attrs' ← for_region node_list (append_label (ckpt_idx st))
                   (ckpt_region st) (attrs st);
        Returns (mkLocals (in_ckpt st) true (S (ckpt_idx st)) [] attrs')
    | ForwardCheck index =>
        attrs' ← for_region node_list (append_label (ckpt_idx st))
                   (ckpt_region st) (attrs st);
        Returns (mkLocals (in_ckpt st) true (S (ckpt_idx st)) [index] attrs')
    | Backward _ =>
        attrs' ← for_region node_list (append_label (ckpt_idx st))
                   (ckpt_region st) (attrs st);
        Returns (mkLocals (in_ckpt st) false (ckpt_idx st) (ckpt_region st)
                   attrs')
    | Loss => Returns st
    end
  else
    match op with
    | Backward _ => Returns st
    | ForwardCheck index =>
        Returns (mkLocals (in_ckpt st) true 0 [index] (attrs st))
    | _ => Returns (mkLocals (in_ckpt st) true 0 [] (attrs st))
    end.

(** [enumerate(fwd_list, 0)] *)
Definition enumerate {A : Type} (l : list A) : list (nat * A) :=
  zip (seq 0 (List.length l)) l.

(** The two loops, on the operations before and after the loss. *)
Definition annotate_passes (fwd_list bwd_list : list Operation)
    (node_list : list (list nat)) (attrs0 : attributes) : outcome attributes :=
  st ← for_loop (enumerate fwd_list) (forward_step node_list)
         (mkLocals false false 0 [] attrs0);
  st ← for_loop bwd_list (backward_step node_list)
         (mkLocals (in_ckpt st) false (ckpt_idx st) (ckpt_region st) (attrs st));
  Returns (attrs st).

(** [loss_op] is the first [Loss] of the list, [StopIteration] when there is
    none; [op_list.index(loss_op)] is its place. *)
Definition _annotate_from_sequence (op_list : list Operation)
    (node_list : list (list nat)) (attrs0 : attributes) : outcome attributes :=
  match list_find (λ op, op = Loss) op_list with
  | None => Raises StopIteration
  | Some (index, loss_op) =>
      annotate_passes (take index op_list) (drop (S index) op_list)
        node_list attrs0
  end.

(** Every node of every stage has the attribute. *)
Definition covered (node_list : list (list nat)) (attrs0 : attributes) : Prop :=
  ∀ node n, node ∈ node_list → n ∈ node → is_Some (attrs0 !! n).

End Annotate.

(** The indices of the forward operations of a sequence, in order. *)
Definition forward_indices (s : list Operation) : list nat :=
  omap forward_index s.

(** No operation of the sequence checkpoints or runs without gradient. *)
Definition stores_everything (s : list Operation) : Prop :=
  Forall (λ op, match op with
                | ForwardCheck _ | ForwardNograd _ => False
                | _ => True
                end) s.

(** ** Checkpointed stages of a sequence *)

Definition ckpt_index (op : Operation) : option nat :=
  match op with
  | ForwardCheck i | ForwardNograd i => Some i
  | _ => None
  end.

(** The stages that a sequence runs with [ForwardCheck] or
    [ForwardNograd], in order. *)
Definition ckpt_stages (s : list Operation) : list nat := omap ckpt_index s.

(** The forward part of a schedule of the stages [i, ..., L - 1]: every
    stage is enabled, or opens a checkpoint region that runs the stages up
    to [j - 1] without gradient and is followed by the stage [j < L]. *)
Inductive forward_sweep (L : nat) : nat → list Operation → Prop :=
| sweep_end : forward_sweep L L []
| sweep_enable (i : nat) (l : list Operation) :
    (i < L)%nat → forward_sweep L (S i) l →
    forward_sweep L i (ForwardEnable i :: l)
| sweep_check (i j : nat) (l : list Operation) :
    (i < j < L)%nat → forward_sweep L j l →
    forward_sweep L i
      (ForwardCheck i :: (ForwardNograd <$> range (i + 1) j) ++ l).

(** What [_construct_chain] guarantees of a chain (with stages that are not
    empty): the lengths and signs of [wf_chain], no forward temporary, no
    backward temporary of the loss, positive forward times. *)
Definition as_built (c : Chain) : Prop :=
  wf_chain c ∧
  Forall (λ x, x = 0) (fwd_tmp c) ∧
  item (bwd_tmp c) (chain_length c) = 0 ∧
  Forall (λ t, 0 < t) (fweight c).

(** Every node of the stage [k] has the attribute. *)
Definition stage_covered (node_list : list (list nat)) (k : nat)
    (attrs0 : Annotate.attributes) : Prop :=
  ∀ node n, node_list !! k = Some node → n ∈ node → is_Some (attrs0 !! n).

(** The operations that close a region in the backward loop. *)
Definition closes_region (op : Operation) : Prop :=
  match op with
  | ForwardEnable _ | ForwardCheck _ | Backward _ => True
  | _ => False
  end.

(** * Properties *)

(** ** Extended integers *)

Module ExtFacts.
Import Ext.

Lemma le_refl a : le a a.
Proof. destruct a; unfold le; simpl; [apply Z.leb_refl|done]. Qed.

Lemma le_trans a b c : le a b → le b c → le a c.
Proof.
  unfold le; destruct a, b, c; simpl; try done.
  rewrite !Z.leb_le. lia.
Qed.

Lemma le_inf a : le a Inf.
Proof. by destruct a. Qed.

Lemma inf_le a : le Inf a → a = Inf.
Proof. by destruct a. Qed.

Lemma leb_ltb a b : leb a b = negb (ltb b a).
Proof. destruct a, b; simpl; try done. apply Z.leb_antisym. Qed.

Lemma ltb_false_le a b : ltb a b = false → le b a.
Proof. unfold le. rewrite leb_ltb. by intros ->. Qed.

Lemma ltb_true_le a b : ltb a b = true → le a b.
Proof.
  unfold le; destruct a, b; simpl; try done.
  rewrite Z.ltb_lt, Z.leb_le. lia.
Qed.

Lemma leb_false_le a b : leb a b = false → le b a.
Proof.
  unfold le; destruct a, b; simpl; try done.
  rewrite Z.leb_gt, Z.leb_le. lia.
Qed.

Lemma add_mono a a' b b' : le a a' → le b b' → le (add a b) (add a' b').
Proof.
  unfold le; destruct a, a', b, b'; simpl; try done.
  rewrite !Z.leb_le. lia.
Qed.

Lemma add_fin a b z :
  add a b = Fin z → ∃ x y, a = Fin x ∧ b = Fin y ∧ z = x + y.
Proof. destruct a, b; simpl; intros; simplify_eq; eauto. Qed.

End ExtFacts.


(** ** Lists and ranges *)

Lemma item_app_l (l k : list Z) (i : nat) :
  (i < List.length l)%nat → item (l ++ k) i = item l i.
Proof. intros. unfold item. by rewrite app_nth1. Qed.

Lemma item_app_end (l : list Z) : item (l ++ [0]) (List.length l) = 0.
Proof. unfold item. rewrite app_nth2 by lia. by rewrite Nat.sub_diag. Qed.

Lemma item_lookup (l : list Z) (i : nat) :
  (i < List.length l)%nat → l !! i = Some (item l i).
Proof.
  intros Hi. unfold item.
  destruct (lookup_lt_is_Some_2 l i Hi) as [x Hx].
  rewrite Hx. f_equal. symmetry. by apply nth_lookup_Some with (d := 0).
Qed.

Lemma item_nonneg (l : list Z) (i : nat) :
  Forall (λ x, 0 ≤ x) l → 0 ≤ item l i.
Proof.
  intros Hl. unfold item.
  destruct (decide (i < List.length l)%nat) as [Hi|Hi].
  - apply (Forall_nth (λ x, 0 ≤ x) 0 l); [done|lia].
  - rewrite nth_overflow by lia. lia.
Qed.

Lemma item_app0_nonneg (l : list Z) (i : nat) :
  Forall (λ x, 0 ≤ x) l → 0 ≤ item (l ++ [0]) i.
Proof.
  intros Hl. apply item_nonneg. apply Forall_app; split; [done|].
  by apply Forall_singleton.
Qed.

Lemma elem_of_range (a b k : nat) : k ∈ range a b ↔ (a ≤ k < b)%nat.
Proof. unfold range. rewrite elem_of_seq. lia. Qed.

Lemma range_empty (a b : nat) : (b ≤ a)%nat → range a b = [].
Proof. intros. unfold range. by replace (b - a)%nat with 0%nat by lia. Qed.

Lemma range_cons (a b : nat) : (a < b)%nat → range a b = a :: range (S a) b.
Proof.
  intros. unfold range.
  by replace (b - a)%nat with (S (b - S a)) by lia.
Qed.

Lemma elem_of_zrange (n m : Z) : m ∈ zrange n ↔ 0 ≤ m < n.
Proof.
  unfold zrange. rewrite list_elem_of_fmap. split.
  - intros (k & -> & Hk%elem_of_seq). lia.
  - intros Hm. exists (Z.to_nat m). rewrite elem_of_seq. lia.
Qed.

(** ** Loops *)

Lemma for_each_fmap {A B S : Type} (f : A → B) (l : list A)
    (body : B → S → option S) (s : S) :
  for_each (f <$> l) body s = for_each l (λ x, body (f x)) s.
Proof.
  revert s. induction l as [|x l IH]; intros s; simpl; [done|].
  destruct (body (f x) s); simpl; [apply IH|done].
Qed.

(** A loop over [range(a, b)] with a loop invariant [P k] that holds before
    the iteration [k] runs to completion and establishes [P b]. *)
Lemma for_each_range {St : Type} (P : nat → St → Prop)
    (body : nat → St → option St) (a b : nat) (s : St) :
  (a ≤ b)%nat →
  P a s →
  (∀ k s, (a ≤ k < b)%nat → P k s → ∃ s', body k s = Some s' ∧ P (k + 1)%nat s') →
  ∃ s', for_each (range a b) body s = Some s' ∧ P b s'.
Proof.
  intros Hab. remember (b - a)%nat as n eqn:Hn.
  revert a s Hab Hn. induction n as [|n IH]; intros a s Hab Hn Ha Hstep.
  - rewrite range_empty by lia. replace b with a by lia. eauto.
  - rewrite range_cons by lia. simpl.
    destruct (Hstep a s) as (s1 & -> & Hs1); [lia|done|]. simpl.
    replace (a + 1)%nat with (S a) in Hs1 by lia.
    apply IH; [lia|lia|done|].
    intros k s2 Hk. apply Hstep. lia.
Qed.

(** ** The base cells *)

Lemma init_row_lookup (c : Chain) (m0 : Z) (li : list nat)
    (opt0 : gmap (Z * nat * nat) ext) (m : Z) (i j : nat) :
  foldl (λ opt i, init_cell c m0 i opt) opt0 li !! (m, i, j) =
  if decide (m = m0 ∧ i ∈ li ∧ i = j) then Some (base_value c m i)
  else opt0 !! (m, i, j).
Proof.
  revert opt0. induction li as [|x li IH]; intros opt0; simpl.
  - case_decide as H; [|done]. by destruct H as (_ & ?%elem_of_nil & _).
  - rewrite IH.
    destruct (decide (m = m0 ∧ i ∈ li ∧ i = j)) as [(-> & Hi & ->)|Hn].
    + rewrite decide_True; [done|]. split_and!; [done| |done]. by right.
    + destruct (decide ((m, i, j) = (m0, x, x))) as [Heq|Hne].
      * simplify_eq. rewrite decide_True by (split_and!; [done|by left|done]).
        unfold init_cell, base_value.
        case_decide; by rewrite lookup_insert_eq.
      * rewrite decide_False.
        { unfold init_cell. case_decide; by rewrite lookup_insert_ne. }
        intros (-> & [->|Hi]%elem_of_cons & ->); [done|].
        apply Hn. done.
Qed.

Lemma init_table_lookup (c : Chain) (mmax m : Z) (i j : nat) :
  init_table c mmax !! (m, i, j) =
  if decide (0 ≤ m ≤ mmax ∧ (i ≤ chain_length c)%nat ∧ i = j)
  then Some (base_value c m i) else None.
Proof.
  unfold init_table.
  assert (∀ lm opt0,
    foldl (λ opt m, foldl (λ opt i, init_cell c m i opt) opt
                          (range 0 (chain_length c + 1))) opt0 lm !! (m, i, j)
    = if decide (m ∈ lm ∧ (i ≤ chain_length c)%nat ∧ i = j)
      then Some (base_value c m i) else opt0 !! (m, i, j)) as Hgen.
  { induction lm as [|x lm IH]; intros opt0; cbn [foldl].
    - case_decide as H; [|done]. destruct H as [H _]. by apply elem_of_nil in H.
    - rewrite IH, init_row_lookup.
      destruct (decide (m ∈ lm ∧ (i ≤ chain_length c)%nat ∧ i = j))
        as [(Hm & Hi & ->)|Hn].
      + rewrite decide_True; [done|]. split_and!; [by right|done|done].
      + destruct (decide (m = x ∧ i ∈ range 0 (chain_length c + 1) ∧ i = j))
          as [(-> & Hi%elem_of_range & ->)|Hn'].
        * rewrite decide_True; [done|]. split_and!; [by left|lia|done].
        * rewrite decide_False; [done|].
          intros ([->|Hm]%elem_of_cons & Hi & ->).
          -- apply Hn'. split_and!; [done| |done]. apply elem_of_range. lia.
          -- apply Hn. done. }
  rewrite Hgen, lookup_empty. clear Hgen.
  destruct (decide (0 ≤ m ≤ mmax ∧ (i ≤ chain_length c)%nat ∧ i = j))
    as [(Hm & Hi & ->)|Hn].
  - rewrite decide_True; [done|]. split_and!; [|done|done].
    apply elem_of_zrange. lia.
  - case_decide as H; [|done]. destruct H as (Hm%elem_of_zrange & Hi & ->).
    exfalso. apply Hn. split_and!; [lia|lia|done..].
Qed.

(** ** One cell: reads and their stability

    A cell is computed from cells written before it, and a cell is written
    once: what [solve_cell] returns on the table of the moment, it returns
    on every later table. *)

Lemma leaf_total_Some (c : Chain) (opt : gmap (Z * nat * nat) ext) m i idx j v :
  leaf_total c opt m i idx j = Some v ↔
  ∃ a b, opt !! (m - item (cw c) j, j, idx) = Some a ∧
         opt !! (m, i, (j - 1)%nat) = Some b ∧
         v = Fin (sum (slice (fw c) i j)) ⊕ a ⊕ b.
Proof.
  unfold leaf_total. split.
  - intros (a & Ha & (b & Hb & ?)%bind_Some)%bind_Some. simplify_eq. eauto.
  - intros (a & b & -> & -> & ->). done.
Qed.

Lemma leaf_total_weaken (c : Chain) (opt opt' : gmap (Z * nat * nat) ext)
    m i idx j v :
  opt ⊆ opt' →
  leaf_total c opt m i idx j = Some v → leaf_total c opt' m i idx j = Some v.
Proof.
  intros Hsub (a & b & Ha & Hb & ->)%leaf_total_Some.
  apply leaf_total_Some. exists a, b. eauto using lookup_weaken.
Qed.

Lemma leaf_checkpoints_Some (c : Chain) (opt : gmap (Z * nat * nat) ext)
    m i idx l :
  leaf_checkpoints c opt m i idx = Some l ↔
  Forall2 (λ j r, ∃ v, leaf_total c opt m i idx j = Some v ∧ r = (j, v))
          (filter (λ j, item (cw c) j ≤ m) (range (i + 1) (idx + 1))) l.
Proof.
  unfold leaf_checkpoints. rewrite mapM_Some.
  split; intros H; eapply Forall2_impl; [exact H| |exact H|]; intros j r.
  - intros (v & Hv & ?)%bind_Some. simplify_eq. eauto.
  - intros (v & -> & ->). done.
Qed.

Lemma leaf_checkpoints_weaken (c : Chain) (opt opt' : gmap (Z * nat * nat) ext)
    m i idx l :
  opt ⊆ opt' →
  leaf_checkpoints c opt m i idx = Some l →
  leaf_checkpoints c opt' m i idx = Some l.
Proof.
  intros Hsub. rewrite !leaf_checkpoints_Some.
  intros H. eapply Forall2_impl; [exact H|]. intros j r (v & Hv & ->).
  eauto using leaf_total_weaken.
Qed.

Lemma chain_checkpoint_Some (c : Chain) (opt : gmap (Z * nat * nat) ext)
    m i idx v :
  chain_checkpoint c opt m i idx = Some v ↔
  (item (cbw c) (i + 1) ≤ m ∧
   ∃ a b, opt !! (m, i, i) = Some a ∧
          opt !! (m - item (cbw c) (i + 1), (i + 1)%nat, idx) = Some b ∧
          v = a ⊕ b) ∨
  (m < item (cbw c) (i + 1) ∧ v = Inf).
Proof.
  unfold chain_checkpoint. case_decide as Hm.
  - split.
    + intros (a & Ha & (b & Hb & ?)%bind_Some)%bind_Some. simplify_eq.
      left. eauto 10.
    + intros [(_ & a & b & -> & -> & ->)|[? _]]; [done|lia].
  - split.
    + intros ?. simplify_eq. right. split; [lia|done].
    + intros [[? _]|[_ ->]]; [lia|done].
Qed.

Lemma chain_checkpoint_weaken (c : Chain) (opt opt' : gmap (Z * nat * nat) ext)
    m i idx v :
  opt ⊆ opt' →
  chain_checkpoint c opt m i idx = Some v →
  chain_checkpoint c opt' m i idx = Some v.
Proof.
  intros Hsub. rewrite !chain_checkpoint_Some.
  intros [(Hm & a & b & Ha & Hb & ->)|?]; [left|by right].
  split; [done|]. exists a, b. eauto using lookup_weaken.
Qed.

Lemma solve_cell_Some (c : Chain) (opt : gmap (Z * nat * nat) ext) m i idx r :
  solve_cell c opt m i idx = Some r ↔
  (m < mmin c i idx ∧ r = (Inf, None)) ∨
  (mmin c i idx ≤ m ∧
   ∃ leaf chain, leaf_checkpoints c opt m i idx = Some leaf ∧
                 chain_checkpoint c opt m i idx = Some chain ∧
                 r = ((choose (best_of leaf) chain).1,
                      Some (choose (best_of leaf) chain).2)).
Proof.
  unfold solve_cell. case_decide as Hm.
  - split.
    + intros ?. simplify_eq. by left.
    + intros [[_ ->]|[? _]]; [done|lia].
  - split.
    + intros (leaf & Hl & (chain & Hc & ?)%bind_Some)%bind_Some. simplify_eq.
      right. split; [lia|]. eauto.
    + intros [[? _]|(_ & leaf & chain & -> & -> & ->)]; [lia|done].
Qed.

Lemma solve_cell_weaken (c : Chain) (opt opt' : gmap (Z * nat * nat) ext)
    m i idx r :
  opt ⊆ opt' →
  solve_cell c opt m i idx = Some r → solve_cell c opt' m i idx = Some r.
Proof.
  intros Hsub. rewrite !solve_cell_Some.
  intros [?|(Hm & leaf & chain & Hl & Hc & ->)]; [by left|right].
  split; [done|]. exists leaf, chain.
  eauto using leaf_checkpoints_weaken, chain_checkpoint_weaken.
Qed.

Lemma table_inv_ext (c : Chain) (mmax : Z) (F G : Z → nat → nat → Prop) t :
  (∀ m i idx, F m i idx ↔ G m i idx) →
  table_inv c mmax F t → table_inv c mmax G t.
Proof.
  intros HFG [Hb Hf Hn Hw]. split; [done|..].
  - intros m i idx HG. apply Hf, HFG, HG.
  - intros m i idx Hne HG. apply Hn; [done|]. by rewrite HFG.
  - intros m i idx HG. apply Hw. by rewrite HFG.
Qed.

Lemma table_inv_init (c : Chain) (mmax : Z) :
  table_inv c mmax (filled (chain_length c) 0 1 0) (init_table c mmax, ∅).
Proof.
  split; simpl.
  - intros m i Hm Hi. rewrite init_table_lookup. by rewrite decide_True.
  - intros m i idx (Hm & Hi & [?|[-> ?]]); lia.
  - intros m i idx Hne _. rewrite init_table_lookup.
    by rewrite decide_False.
  - intros m i idx _. apply lookup_empty.
Qed.

(** Every cell the body reads is there. *)
Lemma table_inv_read (c : Chain) (mmax : Z) (F : Z → nat → nat → Prop) t
    (m : Z) (i idx : nat) :
  table_inv c mmax F t →
  0 ≤ m ≤ mmax → (i ≤ idx ≤ chain_length c)%nat →
  (i < idx → F m i idx)%nat →
  is_Some (t.1 !! (m, i, idx)).
Proof.
  intros [Hb Hf _ _] Hm Hi HF.
  destruct (decide (i = idx)) as [->|Hne].
  - rewrite Hb by (done || lia). eauto.
  - destruct (Hf m i idx) as (r & _ & Hr & _); [apply HF; lia|].
    rewrite Hr. eauto.
Qed.

Lemma solve_cell_total (c : Chain) (mmax : Z) t (m : Z) (d i : nat) :
  wf_chain c →
  0 ≤ m ≤ mmax → (1 ≤ d)%nat → (i + d ≤ chain_length c)%nat →
  table_inv c mmax (filled (chain_length c) m d i) t →
  is_Some (solve_cell c t.1 m i (i + d)).
Proof.
  intros Hwf Hm Hd Hi Hinv. unfold solve_cell.
  case_decide as Hmin; [eauto|].
  assert (is_Some (leaf_checkpoints c t.1 m i (i + d))) as [leaf ->].
  { unfold leaf_checkpoints. apply mapM_is_Some, Forall_forall.
    intros j [Hj Hr%elem_of_range]%list_elem_of_filter. simpl.
    pose proof (item_app0_nonneg (cweight c) j (wf_cweight_nonneg c Hwf)) as Hx.
    fold (cw c) in Hx.
    assert (is_Some (t.1 !! (m - item (cw c) j, j, (i + d)%nat))) as [a Ha].
    { eapply table_inv_read; [done|lia|lia|].
      intros Hlt. unfold filled. split_and!; [lia|lia|lia|].
      destruct (decide (item (cw c) j = 0)) as [->|?]; [right|left; lia].
      split; [lia|]. left. lia. }
    assert (is_Some (t.1 !! (m, i, (j - 1)%nat))) as [b Hb].
    { eapply table_inv_read; [done|lia|lia|].
      intros Hlt. unfold filled. split_and!; [lia|lia|lia|].
      right. split; [done|]. left. lia. }
    unfold leaf_total. rewrite Ha. simpl. rewrite Hb. simpl. eauto. }
  simpl.
  assert (is_Some (chain_checkpoint c t.1 m i (i + d))) as [chain ->].
  { unfold chain_checkpoint. case_decide as Hxbar; [|eauto].
    pose proof (item_app0_nonneg (cbweight c) (i + 1)
                  (wf_cbweight_nonneg c Hwf)) as Hx.
    fold (cbw c) in Hx.
    assert (is_Some (t.1 !! (m, i, i))) as [a ->].
    { eapply table_inv_read; [done|lia|lia|lia]. }
    simpl.
    assert (is_Some (t.1 !! (m - item (cbw c) (i + 1), (i + 1)%nat, (i + d)%nat)))
      as [b ->].
    { eapply table_inv_read; [done|lia|lia|].
      intros Hlt. unfold filled. split_and!; [lia|lia|lia|].
      destruct (decide (item (cbw c) (i + 1) = 0)) as [->|?]; [right|left; lia].
      split; [lia|]. left. lia. }
    simpl. eauto. }
  simpl. eauto.
Qed.

Lemma fill_cell_inv (c : Chain) (mmax : Z) t (m : Z) (d i : nat) :
  wf_chain c →
  0 ≤ m ≤ mmax → (1 ≤ d)%nat → (i + d ≤ chain_length c)%nat →
  table_inv c mmax (filled (chain_length c) m d i) t →
  ∃ t', fill_cell c m i (i + d) t = Some t' ∧
        table_inv c mmax (filled (chain_length c) m d (i + 1)) t'.
Proof.
  intros Hwf Hm Hd Hi Hinv.
  destruct (solve_cell_total c mmax t m d i) as [r Hr]; [done..|].
  unfold fill_cell. rewrite Hr. simpl. eexists; split; [done|].
  destruct Hinv as [Hb Hf Hn Hw].
  assert (¬ filled (chain_length c) m d i m i (i + d)) as Hnot.
  { unfold filled. lia. }
  assert (t.1 ⊆ <[(m, i, (i + d)%nat) := r.1]> t.1) as Hsub.
  { apply insert_subseteq, Hn; [lia|done]. }
  assert (∀ m' i' idx',
    filled (chain_length c) m d (i + 1) m' i' idx' ↔
    filled (chain_length c) m d i m' i' idx' ∨
    (m' = m ∧ i' = i ∧ idx' = (i + d)%nat)) as Hstep.
  { intros m' i' idx'. unfold filled. lia. }
  assert (∀ m' i' idx',
    ¬ filled (chain_length c) m d (i + 1) m' i' idx' →
    (m, i, (i + d)%nat) ≠ (m', i', idx')) as Hother.
  { intros m' i' idx' HF ?; simplify_eq. apply HF, Hstep. by right. }
  split; simpl.
  - intros m' i' Hm' Hi'. rewrite lookup_insert_ne; [by apply Hb|].
    intros ?; simplify_eq. lia.
  - intros m' i' idx' [HF|(-> & -> & ->)]%Hstep.
    + destruct (Hf _ _ _ HF) as (r' & Hs & Ho & Hwh).
      assert ((m, i, (i + d)%nat) ≠ (m', i', idx')) as Hne.
      { intros ?; simplify_eq. done. }
      exists r'. simpl. split_and!.
      * by eapply solve_cell_weaken.
      * by rewrite lookup_insert_ne.
      * destruct (r.2); [by rewrite lookup_insert_ne|done].
    + exists r. simpl. split_and!.
      * by eapply solve_cell_weaken.
      * by rewrite lookup_insert_eq.
      * destruct (r.2) eqn:Hr2; [by rewrite lookup_insert_eq|].
        by apply Hw.
  - intros m' i' idx' Hne HF.
    rewrite lookup_insert_ne by (by apply Hother).
    apply Hn; [done|]. rewrite Hstep in HF. tauto.
  - intros m' i' idx' HF.
    assert (t.2 !! (m', i', idx') = None) as Hold.
    { apply Hw. rewrite Hstep in HF. tauto. }
    destruct (r.2); [|done].
    by rewrite lookup_insert_ne by (by apply Hother).
Qed.

Lemma compute_table_inv (c : Chain) (mmax : Z) :
  wf_chain c →
  ∃ t, _compute_table c mmax = Some t ∧
       table_inv c mmax
         (filled (chain_length c) (Z.of_nat (Z.to_nat (mmax + 1))) 1 0) t.
Proof.
  intros Hwf. unfold _compute_table, zrange.
  rewrite for_each_fmap.
  set (L := chain_length c).
  replace (seq 0 (Z.to_nat (mmax + 1))) with (range 0 (Z.to_nat (mmax + 1)))
    by (unfold range; by rewrite Nat.sub_0_r).
  apply (for_each_range
           (λ k t, table_inv c mmax (filled L (Z.of_nat k) 1 0) t)).
  { lia. }
  { apply table_inv_init. }
  intros k t Hk Ht.
  destruct (for_each_range
              (λ d t, table_inv c mmax (filled L (Z.of_nat k) d 0) t)
              (λ d, for_each (range 0 (L + 1 - d))
                      (λ i, fill_cell c (Z.of_nat k) i (i + d)))
              1 (L + 1) t) as (t' & Ht' & Hinv'); [lia|done| |].
  - intros d t1 Hd Ht1.
    destruct (for_each_range
                (λ i t, table_inv c mmax (filled L (Z.of_nat k) d i) t)
                (λ i, fill_cell c (Z.of_nat k) i (i + d))
                0 (L + 1 - d) t1) as (t2 & Ht2 & Hinv2); [lia|done| |].
    + intros i t2 Hi2 Ht2. apply fill_cell_inv; [done|lia|lia|lia|done].
    + exists t2. split; [done|].
      eapply table_inv_ext; [|exact Hinv2].
      intros m i idx. unfold filled. lia.
  - exists t'. split; [done|].
    eapply table_inv_ext; [|exact Hinv'].
    intros m i idx. unfold filled. lia.
Qed.

(** ** The table that [_compute_table] returns *)

(** [_compute_table] never reads a missing cell. *)
Lemma compute_table_total (c : Chain) (mmax : Z) :
  wf_chain c → is_Some (_compute_table c mmax).
Proof.
  intros Hwf. destruct (compute_table_inv c mmax Hwf) as (t & -> & _). eauto.
Qed.

Section table.
Context (c : Chain) (mmax : Z).
Context (opt : gmap (Z * nat * nat) ext) (what : gmap (Z * nat * nat) decision).
Hypothesis Hwf : wf_chain c.
Hypothesis Htable : _compute_table c mmax = Some (opt, what).

Let L := chain_length c.

Lemma table_final_inv :
  table_inv c mmax (λ m i idx, 0 ≤ m ≤ mmax ∧ (i < idx ≤ L)%nat) (opt, what).
Proof.
  destruct (compute_table_inv c mmax Hwf) as (t & Ht & Hinv).
  rewrite Htable in Ht. simplify_eq.
  eapply table_inv_ext; [|exact Hinv].
  intros m i idx. unfold filled, L. lia.
Qed.

(** The cells [opt[m][i][i]]. *)
Lemma table_base (m : Z) (i : nat) :
  0 ≤ m ≤ mmax → (i ≤ L)%nat → opt !! (m, i, i) = Some (base_value c m i).
Proof. apply (inv_base _ _ _ _ table_final_inv). Qed.

(** The cells [opt[m][i][idx]] and [what[m][i][idx]] with [i < idx]. *)
Lemma table_cell (m : Z) (i idx : nat) :
  0 ≤ m ≤ mmax → (i < idx ≤ L)%nat → cell_ok c (opt, what) m i idx.
Proof. intros. by apply (inv_filled _ _ _ _ table_final_inv). Qed.

(** No other cell is written. *)
Lemma table_dom (m : Z) (i idx : nat) :
  is_Some (opt !! (m, i, idx)) → 0 ≤ m ≤ mmax ∧ (i ≤ idx ≤ L)%nat.
Proof.
  intros [v Hv].
  destruct (decide (0 ≤ m ≤ mmax ∧ (i ≤ idx ≤ L)%nat)) as [|Hn]; [done|].
  rewrite (inv_fresh _ _ _ _ table_final_inv) in Hv; [done| |]; simpl; lia.
Qed.

Lemma what_dom (m : Z) (i idx : nat) :
  is_Some (what !! (m, i, idx)) → 0 ≤ m ≤ mmax ∧ (i < idx ≤ L)%nat.
Proof.
  intros [v Hv].
  destruct (decide (0 ≤ m ≤ mmax ∧ (i < idx ≤ L)%nat)) as [|Hn]; [done|].
  by rewrite (inv_what _ _ _ _ table_final_inv) in Hv.
Qed.

Lemma table_present (m : Z) (i idx : nat) :
  0 ≤ m ≤ mmax → (i ≤ idx ≤ L)%nat → is_Some (opt !! (m, i, idx)).
Proof.
  intros Hm Hi. destruct (decide (i = idx)) as [->|].
  - rewrite table_base by (done || lia). eauto.
  - destruct (table_cell m i idx) as (r & _ & Hr & _); [done|lia|].
    simpl in Hr. rewrite Hr. eauto.
Qed.
End table.

(** ** The choice between the leaf and the chain option *)

Lemma best_of_fold (l : list (nat * ext)) (x : nat * ext) :
  let r := foldl (λ best y, if Ext.ltb y.2 best.2 then y else best) x l in
  r ∈ x :: l ∧ ∀ y, y ∈ x :: l → Ext.le r.2 y.2.
Proof.
  revert x. induction l as [|z l IH]; intros x; simpl.
  - split; [by left|]. intros y ->%list_elem_of_singleton. apply ExtFacts.le_refl.
  - destruct (Ext.ltb z.2 x.2) eqn:Hlt.
    + destruct (IH z) as [Hin Hmin]. split.
      * by right.
      * intros y [->|Hy]%elem_of_cons; [|by apply Hmin].
        eapply ExtFacts.le_trans; [apply Hmin; by left|].
        by apply ExtFacts.ltb_true_le.
    + destruct (IH x) as [Hin Hmin]. split.
      * apply elem_of_cons in Hin as [->|Hin]; [by left|by do 2 right].
      * intros y [->|[->|Hy]%elem_of_cons]%elem_of_cons.
        -- apply Hmin. by left.
        -- eapply ExtFacts.le_trans; [apply Hmin; by left|].
           by apply ExtFacts.ltb_false_le.
        -- apply Hmin. by right.
Qed.

Lemma best_of_None (l : list (nat * ext)) : best_of l = None ↔ l = [].
Proof. by destruct l. Qed.

Lemma best_of_Some (l : list (nat * ext)) (j : nat) (v : ext) :
  best_of l = Some (j, v) →
  (j, v) ∈ l ∧ ∀ j' v', (j', v') ∈ l → Ext.le v v'.
Proof.
  destruct l as [|x l]; [done|]. simpl. intros [= Hr].
  destruct (best_of_fold l x) as [Hin Hmin]. rewrite Hr in Hin, Hmin.
  split; [done|]. intros j' v' Hy. apply (Hmin (j', v') Hy).
Qed.

Lemma choose_cases (best : option (nat * ext)) (chain : ext) :
  (∃ j v, best = Some (j, v) ∧ Ext.le v chain ∧
          choose best chain = (v, LeafCkpt j)) ∨
  ((best = None ∨ ∃ j v, best = Some (j, v) ∧ Ext.leb v chain = false) ∧
   choose best chain = (chain, ChainCkpt)).
Proof.
  unfold choose. destruct best as [[j v]|]; [|right; eauto].
  destruct (Ext.leb v chain) eqn:Hle; [left|right]; eauto 10.
Qed.

Lemma choose_le_chain (best : option (nat * ext)) (chain : ext) :
  Ext.le (choose best chain).1 chain.
Proof.
  destruct (choose_cases best chain) as [(j & v & _ & Hle & ->)|[_ ->]];
    [done|apply ExtFacts.le_refl].
Qed.

Lemma choose_le_leaf (l : list (nat * ext)) (chain : ext) (j : nat) (v : ext) :
  (j, v) ∈ l → Ext.le (choose (best_of l) chain).1 v.
Proof.
  intros Hin.
  destruct (choose_cases (best_of l) chain)
    as [(j' & v' & Hb & _ & ->)|[[Hb|(j' & v' & Hb & Hgt)] ->]]; simpl.
  - apply best_of_Some in Hb as [_ Hmin]. by eapply Hmin.
  - apply best_of_None in Hb as ->. by apply elem_of_nil in Hin.
  - apply best_of_Some in Hb as [_ Hmin].
    eapply ExtFacts.le_trans; [by apply ExtFacts.leb_false_le|]. by eapply Hmin.
Qed.

(** The candidates of the leaf option. *)
Lemma leaf_checkpoints_elem (c : Chain) (opt : gmap (Z * nat * nat) ext)
    m i idx l j v :
  leaf_checkpoints c opt m i idx = Some l →
  (j, v) ∈ l ↔
  (i + 1 ≤ j ≤ idx)%nat ∧ item (cw c) j ≤ m ∧
  leaf_total c opt m i idx j = Some v.
Proof.
  intros Hl%leaf_checkpoints_Some. split.
  - intros (n & Hn)%list_elem_of_lookup.
    destruct (Forall2_lookup_r _ _ _ _ _ Hl Hn) as (j' & Hj' & v' & Hv & ?).
    simplify_eq.
    apply list_elem_of_lookup_2, list_elem_of_filter in Hj' as [? ?%elem_of_range].
    split_and!; [lia|lia|done|done].
  - intros (Hj & Hm & Hv).
    assert (j ∈ filter (λ j, item (cw c) j ≤ m) (range (i + 1) (idx + 1)))
      as (n & Hn)%list_elem_of_lookup.
    { apply list_elem_of_filter. split; [done|]. apply elem_of_range. lia. }
    destruct (Forall2_lookup_l _ _ _ _ _ Hl Hn) as (r & Hr & v' & Hv' & ->).
    simplify_eq. by eapply list_elem_of_lookup_2.
Qed.

Section table_cells.
Context (c : Chain) (mmax : Z).
Context (opt : gmap (Z * nat * nat) ext) (what : gmap (Z * nat * nat) decision).
Hypothesis Hwf : wf_chain c.
Hypothesis Htable : _compute_table c mmax = Some (opt, what).

Let L := chain_length c.

(** The two ways a cell of width at least one is written. *)
Lemma table_cell_cases (m : Z) (i idx : nat) :
  0 ≤ m ≤ mmax → (i < idx ≤ L)%nat →
  (m < mmin c i idx ∧
   opt !! (m, i, idx) = Some Inf ∧ what !! (m, i, idx) = None) ∨
  (mmin c i idx ≤ m ∧
   ∃ leaf chain,
     leaf_checkpoints c opt m i idx = Some leaf ∧
     chain_checkpoint c opt m i idx = Some chain ∧
     opt !! (m, i, idx) = Some (choose (best_of leaf) chain).1 ∧
     what !! (m, i, idx) = Some (choose (best_of leaf) chain).2).
Proof.
  intros Hm Hi.
  destruct (table_cell c mmax opt what Hwf Htable m i idx Hm Hi)
    as (r & Hr & Ho & Hw). simpl in *.
  apply solve_cell_Some in Hr as [[? ->]|(? & leaf & chain & ? & ? & ->)].
  - left. done.
  - right. split; [done|]. exists leaf, chain. done.
Qed.

Lemma base_value_mono (m1 m2 : Z) (i : nat) :
  m1 ≤ m2 → Ext.le (base_value c m2 i) (base_value c m1 i).
Proof.
  intros Hm. unfold base_value.
  destruct (decide (limit c i ≤ m1)).
  - rewrite decide_True by lia. apply ExtFacts.le_refl.
  - apply ExtFacts.le_inf.
Qed.

(** More memory never costs more time, by induction on the width. *)
Lemma opt_mono_width (n : nat) :
  ∀ (i idx : nat) (m1 m2 : Z) (v1 v2 : ext),
    (idx - i < n)%nat → (i ≤ idx ≤ L)%nat →
    0 ≤ m1 → m1 ≤ m2 → m2 ≤ mmax →
    opt !! (m1, i, idx) = Some v1 → opt !! (m2, i, idx) = Some v2 →
    Ext.le v2 v1.
Proof.
  induction n as [|n IH]; intros i idx m1 m2 v1 v2 Hn Hi Hm1 Hm12 Hm2 H1 H2;
    [lia|].
  destruct (decide (i = idx)) as [->|Hne].
  { rewrite (table_base c mmax opt what Hwf Htable) in H1, H2
      by (fold L; lia).
    simplify_eq. by apply base_value_mono. }
  destruct (table_cell_cases m1 i idx) as
    [(_ & Ho1 & _)|(Hmin1 & leaf1 & chain1 & Hl1 & Hc1 & Ho1 & _)];
    [lia|lia| |].
  { rewrite Ho1 in H1. simplify_eq. apply ExtFacts.le_inf. }
  destruct (table_cell_cases m2 i idx) as
    [(? & _)|(_ & leaf2 & chain2 & Hl2 & Hc2 & Ho2 & _)];
    [lia|lia|lia|].
  rewrite Ho1 in H1. rewrite Ho2 in H2. simplify_eq.
  destruct (choose_cases (best_of leaf1) chain1)
    as [(j & v & Hb & _ & ->)|[_ ->]]; simpl.
  - (* the value at [m1] is a leaf total: the same leaf exists at [m2] *)
    apply best_of_Some in Hb as [Hin _].
    apply (leaf_checkpoints_elem _ _ _ _ _ _ _ _ Hl1) in Hin
      as (Hj & Hx & (a1 & b1 & Ha1 & Hb1 & ->)%leaf_total_Some).
    pose proof (item_app0_nonneg (cweight c) j (wf_cweight_nonneg c Hwf))
      as Hx0. fold (cw c) in Hx0.
    destruct (table_present c mmax opt what Hwf Htable
                (m2 - item (cw c) j) j idx) as [a2 Ha2]; [lia|fold L; lia|].
    destruct (table_present c mmax opt what Hwf Htable
                m2 i (j - 1)) as [b2 Hb2]; [lia|fold L; lia|].
    eapply ExtFacts.le_trans.
    + apply (choose_le_leaf leaf2 chain2 j
               (Fin (sum (slice (fw c) i j)) ⊕ a2 ⊕ b2)).
      apply (leaf_checkpoints_elem _ _ _ _ _ _ _ _ Hl2).
      split_and!; [lia|lia|lia|]. apply leaf_total_Some. eauto.
    + apply ExtFacts.add_mono; [apply ExtFacts.add_mono; [apply ExtFacts.le_refl|]|].
      * apply (IH j idx (m1 - item (cw c) j) (m2 - item (cw c) j));
          (done || lia).
      * apply (IH i (j - 1)%nat m1 m2); (done || lia).
  - (* the value at [m1] is the chain total *)
    eapply ExtFacts.le_trans; [apply choose_le_chain|].
    apply chain_checkpoint_Some in Hc1
      as [(Hx1 & a1 & b1 & Ha1 & Hb1 & ->)|[_ ->]]; [|apply ExtFacts.le_inf].
    apply chain_checkpoint_Some in Hc2
      as [(Hx2 & a2 & b2 & Ha2 & Hb2 & ->)|[? _]]; [|lia].
    pose proof (item_app0_nonneg (cbweight c) (i + 1)
                  (wf_cbweight_nonneg c Hwf)) as Hx0. fold (cbw c) in Hx0.
    apply ExtFacts.add_mono.
    + apply (IH i i m1 m2); (done || lia).
    + apply (IH (i + 1)%nat idx (m1 - item (cbw c) (i + 1))
               (m2 - item (cbw c) (i + 1))); (done || lia).
Qed.
End table_cells.

(** ** Sums of times *)

Lemma sum_app (l k : list Z) : sum (l ++ k) = sum l + sum k.
Proof. unfold sum. induction l as [|x l IH]; simpl; lia. Qed.

Lemma sum_take_drop (l : list Z) (n i : nat) :
  (i + n ≤ List.length l)%nat →
  sum (take n (drop i l)) = sum (item l <$> seq i n).
Proof.
  revert i. induction n as [|n IH]; intros i Hi; [done|].
  rewrite (drop_S l (item l i) i) by (apply item_lookup; lia).
  simpl. rewrite IH by lia. done.
Qed.

Lemma sum_slice (l : list Z) (i j : nat) :
  (i ≤ j ≤ List.length l)%nat →
  sum (slice l i j) = sum (item l <$> range i j).
Proof. intros. unfold slice, range. apply sum_take_drop. lia. Qed.

Lemma total_time_app (c : Chain) (s1 s2 : list Operation) :
  total_time c (s1 ++ s2) = total_time c s1 + total_time c s2.
Proof. unfold total_time. by rewrite fmap_app, sum_app. Qed.

Lemma total_time_nograd (c : Chain) (l : list nat) :
  total_time c (ForwardNograd <$> l) = sum (item (fweight c) <$> l).
Proof.
  unfold total_time. rewrite <- list_fmap_compose. done.
Qed.

(** The forward sweep of a leaf decision costs [sum(fw[lmin:j])]. *)
Lemma total_time_sweep (c : Chain) (lmin j : nat) :
  (lmin < j ≤ chain_length c)%nat →
  total_time c ([ForwardCheck lmin] ++ (ForwardNograd <$> range (lmin + 1) j))
  = sum (slice (fw c) lmin j).
Proof.
  intros Hj. rewrite total_time_app, total_time_nograd.
  rewrite sum_slice by (unfold fw; rewrite length_app; simpl;
                        unfold chain_length in Hj; lia).
  rewrite (range_cons lmin j) by lia.
  replace (lmin + 1)%nat with (S lmin) by lia.
  unfold total_time. simpl.
  assert (∀ l : list nat, Forall (λ k, k < chain_length c)%nat l →
            item (fweight c) <$> l = item (fw c) <$> l) as Heq.
  { intros l Hl. apply Forall_fmap_ext. eapply Forall_impl; [exact Hl|].
    intros k Hk. unfold fw. symmetry. by apply item_app_l. }
  rewrite Heq.
  - unfold fw. rewrite item_app_l by (unfold chain_length in Hj; lia).
    rewrite Z.add_0_r. reflexivity.
  - apply Forall_forall. intros k Hk%elem_of_range. lia.
Qed.

(** ** [_rec] on the table of [_compute_table] *)

Lemma rec_no_memory (fuel : nat) (c : Chain) (lmin lmax : nat) (cmem : Z) t :
  (0 < fuel)%nat → cmem ≤ 0 →
  _rec fuel c lmin lmax cmem t = Err (NegativeMemory cmem).
Proof.
  intros Hf Hc. destruct fuel as [|fuel]; [lia|]. simpl.
  by rewrite decide_True.
Qed.

Lemma mmin_base (c : Chain) (i idx : nat) :
  item (cw c) (idx + 1) + item (cw c) (i + 1) + item (ftmp c) i ≤ mmin c i idx.
Proof. unfold mmin. case_decide; lia. Qed.

Section reconstruction.
Context (c : Chain) (mmax : Z).
Context (opt : gmap (Z * nat * nat) ext) (what : gmap (Z * nat * nat) decision).
Hypothesis Hwf : wf_chain c.
Hypothesis Htable : _compute_table c mmax = Some (opt, what).

Let L := chain_length c.

Lemma base_finite (m : Z) (i : nat) (v : Z) :
  opt !! (m, i, i) = Some (Fin v) →
  limit c i ≤ m ∧ v = item (fw c) i + item (bw c) i.
Proof.
  intros Hv.
  destruct (table_dom c mmax opt what Hwf Htable m i i) as [Hm Hi]; [eauto|].
  rewrite (table_base c mmax opt what Hwf Htable) in Hv by (done || lia).
  unfold base_value in Hv. case_decide; by simplify_eq.
Qed.

(** A finite cell is at or above the bound on [x] at both of its ends. *)
Lemma finite_floor (m : Z) (i idx : nat) (v : Z) :
  opt !! (m, i, idx) = Some (Fin v) →
  item (cw c) (i + 1) + item (ftmp c) i +
  (if decide (i = idx) then item (cbw c) (i + 1) else item (cw c) (idx + 1))
  ≤ m.
Proof.
  intros Hv. case_decide as Hi.
  - subst idx. apply base_finite in Hv as [Hlim _]. unfold limit in Hlim. lia.
  - destruct (table_dom c mmax opt what Hwf Htable m i idx) as [Hm Hr];
      [eauto|].
    destruct (table_cell_cases c mmax opt what Hwf Htable m i idx)
      as [(_ & Ho & _)|(Hmin & _)]; [done|fold L; lia| |].
    + rewrite Ho in Hv. done.
    + pose proof (mmin_base c i idx). lia.
Qed.

Hypothesis Hloss : item (bweight c) L = 0.

Lemma rec_spec (fuel : nat) :
  ∀ (lmin lmax : nat) (cmem v : Z),
    (lmax - lmin < fuel)%nat → 0 < cmem →
    opt !! (cmem, lmin, lmax) = Some (Fin v) →
    (∃ s, _rec fuel c lmin lmax cmem (opt, what) = Ok s ∧ total_time c s = v) ∨
    (_rec fuel c lmin lmax cmem (opt, what) = Err (NegativeMemory 0) ∧
     ¬ positive_sizes c).
Proof.
  induction fuel as [|fuel IH]; intros lmin lmax cmem v Hfuel Hcmem Hv; [lia|].
  destruct (table_dom c mmax opt what Hwf Htable cmem lmin lmax) as [Hm Hi];
    [eauto|]. fold L in Hi.
  (* a nested request, with no memory left or by induction *)
  assert (∀ lmin' lmax' cmem' v',
    (lmax' - lmin' < lmax - lmin)%nat → 0 ≤ cmem' →
    (cmem' = 0 → ¬ positive_sizes c) →
    opt !! (cmem', lmin', lmax') = Some (Fin v') →
    (∃ s, _rec fuel c lmin' lmax' cmem' (opt, what) = Ok s ∧
          total_time c s = v') ∨
    (_rec fuel c lmin' lmax' cmem' (opt, what) = Err (NegativeMemory 0) ∧
     ¬ positive_sizes c)) as Hcall.
  { intros lmin' lmax' cmem' v' Hlt Hc0 Hzero Hv'.
    destruct (decide (cmem' = 0)) as [->|Hpos].
    - right. split; [|by apply Hzero]. apply rec_no_memory; lia.
    - apply IH; [lia|lia|done]. }
  cbn [_rec]. rewrite decide_False by lia. rewrite Hv. cbn [read bind Ext.is_inf].
  destruct (decide (lmin = lmax)) as [->|Hne].
  { (* one stage, or the loss *)
    apply base_finite in Hv as [_ ->]. left.
    destruct (decide (lmax = chain_length c)) as [->|HL].
    - eexists; split; [done|]. unfold total_time, fw, bw. simpl.
      rewrite item_app_end. fold L. lia.
    - eexists; split; [done|]. unfold total_time, fw, bw. simpl.
      rewrite item_app_l by (unfold L, chain_length in *; lia). lia. }
  destruct (table_cell_cases c mmax opt what Hwf Htable cmem lmin lmax)
    as [(_ & Ho & _)|(Hmin & leaf & chain & Hl & Hc & Ho & Hw)];
    [done|fold L; lia| |].
  { rewrite Ho in Hv. done. }
  rewrite Hw. cbn [read bind]. rewrite Ho in Hv.
  destruct (choose_cases (best_of leaf) chain)
    as [(j & vl & Hb & _ & Hch)|[_ Hch]]; rewrite Hch in Hv |- *;
    cbn [fst snd] in Hv |- *; simplify_eq.
  - (* leaf decision at [j] *)
    apply best_of_Some in Hb as [Hin _].
    apply (leaf_checkpoints_elem _ _ _ _ _ _ _ _ Hl) in Hin
      as (Hj & Hx & (a & b & Ha & Hb & Hsum)%leaf_total_Some).
    symmetry in Hsum.
    apply ExtFacts.add_fin in Hsum as (ab & vb & Hab & -> & ->).
    apply ExtFacts.add_fin in Hab as (s0 & va & [= <-] & -> & ->).
    assert (cweight c !! j = Some (item (cw c) j)) as ->.
    { unfold cw. rewrite item_app_l, item_lookup;
        [done| |]; rewrite (wf_cweight c Hwf); fold L; lia. }
    cbn [read bind].
    destruct j as [|j']; [lia|].
    replace (S j' - 1)%nat with j' in Hb by lia.
    pose proof (finite_floor _ _ _ _ Hb) as Hfl.
    pose proof (item_app0_nonneg (cweight c) (lmin + 1)
                  (wf_cweight_nonneg c Hwf)) as Hx1. fold (cw c) in Hx1.
    pose proof (item_app0_nonneg (fwd_tmp c) lmin
                  (wf_fwd_tmp_nonneg c Hwf)) as Hx2. fold (ftmp c) in Hx2.
    pose proof (item_app0_nonneg (cbweight c) (lmin + 1)
                  (wf_cbweight_nonneg c Hwf)) as Hx3. fold (cbw c) in Hx3.
    replace (j' + 1)%nat with (S j') in Hfl by lia.
    destruct (Hcall (S j') lmax (cmem - item (cw c) (S j')) va)
      as [(s1 & -> & Hs1)|[-> Hnp]]; [lia|lia| |done| |by right].
    { intros Hz Hpos.
      destruct (Hpos (lmin + 1)%nat) as [Hp1 Hp2]; [fold L; lia|].
      unfold cw, cbw in *.
      rewrite !item_app_l in *
        by (rewrite ?(wf_cweight c Hwf), ?(wf_cbweight c Hwf); fold L; lia).
      rewrite Nat.add_1_r in *. case_decide; subst; lia. }
    cbn [bind].
    destruct (Hcall lmin j' cmem vb)
      as [(s2 & -> & Hs2)|[-> Hnp]]; [lia|lia|lia|done| |by right].
    left. eexists; split; [done|].
    pose proof (total_time_sweep c lmin (S j')) as Hsw.
    rewrite total_time_app in Hsw.
    rewrite (total_time_app c [_]), (total_time_app c (_ <$> _)),
      (total_time_app c s1). fold L in Hsw. lia.
  - (* chain decision *)
    apply chain_checkpoint_Some in Hc
      as [(Hx & a & b & Ha & Hb & Hv)|[_ Hv]]; [|done].
    symmetry in Hv. apply ExtFacts.add_fin in Hv as (va & vb & -> & -> & ->).
    assert (cbweight c !! (lmin + 1)%nat = Some (item (cbw c) (lmin + 1)))
      as ->.
    { unfold cbw. rewrite item_app_l, item_lookup;
        [done| |]; rewrite (wf_cbweight c Hwf); fold L; lia. }
    cbn [read bind].
    pose proof (finite_floor _ _ _ _ Ha) as Hfl.
    rewrite decide_True in Hfl by done.
    pose proof (item_app0_nonneg (cweight c) (lmin + 1)
                  (wf_cweight_nonneg c Hwf)) as Hx1. fold (cw c) in Hx1.
    pose proof (item_app0_nonneg (fwd_tmp c) lmin
                  (wf_fwd_tmp_nonneg c Hwf)) as Hx2. fold (ftmp c) in Hx2.
    apply base_finite in Ha as [_ ->].
    destruct (Hcall (lmin + 1)%nat lmax (cmem - item (cbw c) (lmin + 1)) vb)
      as [(s1 & -> & Hs1)|[-> Hnp]]; [lia|lia| |done| |by right].
    { intros Hz Hpos.
      destruct (Hpos (lmin + 1)%nat) as [Hp1 Hp2]; [fold L; lia|].
      unfold cw in *.
      rewrite !item_app_l in *
        by (rewrite ?(wf_cweight c Hwf); fold L; lia).
      lia. }
    left. eexists; split; [done|].
    rewrite !total_time_app. unfold total_time at 1 3. simpl.
    unfold fw, bw.
    rewrite item_app_l by (unfold L, chain_length in Hi; lia). lia.
Qed.
End reconstruction.

(** What an error of [_rec] says: the memory of a negative-memory error is
    not positive, the cell of an infeasible request holds [inf]. *)
Lemma rec_error_sound (fuel : nat) (c : Chain)
    (opt : gmap (Z * nat * nat) ext) (what : gmap (Z * nat * nat) decision) :
  ∀ (lmin lmax : nat) (cmem : Z) (e : exn),
    _rec fuel c lmin lmax cmem (opt, what) = Err e →
    match e with
    | NegativeMemory m => m ≤ 0
    | Infeasible l l' m => 0 < m ∧ opt !! (m, l, l') = Some Inf
    | ZeroDivisionError | OverflowError | NotANumber => False
    | LookupError | RecursionError => True
    end.
Proof.
  induction fuel as [|fuel IH]; intros lmin lmax cmem e He; cbn [_rec] in He.
  { by simplify_eq. }
  case_decide as Hc; [by simplify_eq|].
  destruct (opt !! (cmem, lmin, lmax)) as [[v|]|] eqn:Ho; cbn in He;
    [|simplify_eq; split; [lia|done]|by simplify_eq].
  case_decide; [case_decide; done|].
  destruct (what !! (cmem, lmin, lmax)) as [[|j]|]; cbn in He;
    [| |by simplify_eq].
  - destruct (cbweight c !! (lmin + 1)%nat) as [xbar|]; cbn in He;
      [|by simplify_eq].
    destruct (_rec fuel c (lmin + 1) lmax (cmem - xbar) (opt, what))
      as [s|e1] eqn:H1; cbn in He; [done|].
    simplify_eq. by eapply IH.
  - destruct (cweight c !! j) as [x|]; cbn in He; [|by simplify_eq].
    destruct (_rec fuel c j lmax (cmem - x) (opt, what))
      as [s1|e1] eqn:H1; cbn in He; [|simplify_eq; by eapply IH].
    destruct j as [|j']; cbn in He; [by simplify_eq|].
    destruct (_rec fuel c lmin j' cmem (opt, what))
      as [s2|e2] eqn:H2; cbn in He; [done|].
    simplify_eq. by eapply IH.
Qed.

(** ** Facts on the rounding of floats *)

Module FloatFacts.
Import Float.

Lemma pow2_pos (k : Z) : 0 ≤ k → 0 < 2 ^ k.
Proof. intros. by apply Z.pow_pos_nonneg. Qed.

Lemma pow2_split (a b : Z) : 0 ≤ a → 0 ≤ b → 2 ^ (a + b) = 2 ^ a * 2 ^ b.
Proof. intros. by apply Z.pow_add_r. Qed.

Lemma pow2_le (a b : Z) : 0 ≤ a ≤ b → 2 ^ a ≤ 2 ^ b.
Proof. intros. apply Z.pow_le_mono_r; lia. Qed.

Lemma pow2_lt (a b : Z) : 0 ≤ a < b → 2 ^ a < 2 ^ b.
Proof. intros. apply Z.pow_lt_mono_r; lia. Qed.

(** [2 ^ exponent ≤ N / D < 2 ^ (exponent + 1)] *)
Lemma exponent_spec (N D : Z) :
  0 < N → 0 < D →
  let ex := exponent N D in
  (0 ≤ ex → 2 ^ ex * D ≤ N ∧ N < 2 ^ (ex + 1) * D) ∧
  (ex < 0 → D ≤ N * 2 ^ (- ex) ∧ N * 2 ^ (- ex) < 2 * D).
Proof.
  intros HN HD. unfold exponent. case_decide as Hc; cbn zeta.
  - assert (0 < N `div` D) as Hq by (apply Z.div_str_pos; lia).
    pose proof (Z.log2_spec _ Hq) as [Hl Hu].
    pose proof (Z.log2_nonneg (N `div` D)).
    pose proof (Z.mul_div_le N D HD).
    pose proof (Z.mul_succ_div_gt N D HD).
    split; [|lia]. intros _.
    replace (Z.log2 (N `div` D) + 1) with (Z.succ (Z.log2 (N `div` D))) by lia.
    split; nia.
  - set (c := (D + N - 1) `div` N).
    assert (1 < c) as Hc1.
    { unfold c. assert (2 ≤ (D + N - 1) `div` N); [|lia].
      apply Z.div_le_lower_bound; lia. }
    pose proof (Z.log2_up_spec _ Hc1) as [Hl Hu].
    pose proof (Z.log2_up_pos _ Hc1) as Hp.
    assert (D ≤ c * N ∧ (c - 1) * N < D) as [HcN HcN'].
    { unfold c.
      pose proof (Z.mul_div_le (D + N - 1) N HN).
      pose proof (Z.mul_succ_div_gt (D + N - 1) N HN). nia. }
    split; [lia|]. intros _. rewrite Z.opp_involutive.
    split; [nia|].
    assert (2 ^ Z.log2_up c = 2 * 2 ^ Z.pred (Z.log2_up c)) as ->.
    { rewrite <- Z.pow_succ_r by lia. f_equal. lia. }
    nia.
Qed.

Lemma exponent_le (N D : Z) (j : Z) :
  0 < N → 0 < D → 0 ≤ j → N < 2 ^ (j + 1) * D → exponent N D ≤ j.
Proof.
  intros HN HD Hj Hlt.
  destruct (exponent_spec N D HN HD) as [Hp _].
  destruct (decide (exponent N D ≤ j)) as [|Hn]; [done|].
  destruct Hp as [Hp _]; [lia|].
  assert (2 ^ (j + 1) ≤ 2 ^ exponent N D) by (apply pow2_le; lia).
  nia.
Qed.

(** The error of [rhe_div] is at most one half. *)
Lemma rhe_div_spec (N D : Z) :
  0 < D →
  2 * rhe_div N D * D - D ≤ 2 * N ≤ 2 * rhe_div N D * D + D.
Proof.
  intros HD. unfold rhe_div.
  pose proof (Z.div_mod N D ltac:(lia)).
  pose proof (Z.mod_pos_bound N D HD).
  repeat case_decide; try destruct (Z.even _); nia.
Qed.

Lemma rhe_div_exact (n D : Z) : 0 < D → rhe_div (n * D) D = n.
Proof.
  intros HD. unfold rhe_div.
  rewrite Z.div_mul, Z.mod_mul by lia.
  rewrite decide_True by lia. done.
Qed.

(** Rounding a quotient with a numerator below [2 ^ 53] keeps its floor
    and its ceiling. *)
Lemma round_frac_small (N D m e : Z) :
  0 < N < 2 ^ 53 → 0 < D < 2 ^ 1075 →
  round_frac N D = (m, e) →
  e ≤ 0 ∧ m `div` 2 ^ (- e) = N `div` D ∧
  - ((- m) `div` 2 ^ (- e)) = - ((- N) `div` D).
Proof.
  intros HN HD. unfold round_frac.
  destruct (exponent_spec N D) as [Hp Hn]; [lia..|].
  assert (exponent N D ≤ 52) as H52.
  { apply exponent_le; [lia..|]. change (52 + 1) with 53. nia. }
  set (ex := exponent N D) in *.
  case_decide as He.
  - (* e = 0 *)
    assert (ex = 52) as Hex by lia.
    intros [= <- <-]. rewrite Hex. change (Z.max 52 (-1022) - 52) with 0.
    change (- 0) with 0. change (2 ^ 0) with 1.
    rewrite Z.mul_1_r, !Z.div_1_r.
    destruct Hp as [Hp _]; [lia|]. rewrite Hex in Hp.
    pose proof (rhe_div_spec N D ltac:(lia)) as Hr.
    set (m := rhe_div N D) in *.
    split; [lia|].
    assert (D = 1) as -> by (change (2 ^ 52) with 4503599627370496 in Hp;
      change (2 ^ 53) with 9007199254740992 in HN; nia).
    rewrite !Z.div_1_r. lia.
  - intros [= <- <-].
    set (k := - (Z.max ex (-1022) - 52)).
    assert (0 < k) as Hk by lia.
    assert (0 < 2 ^ k) as HP by (apply pow2_pos; lia).
    assert (D < 2 * 2 ^ k) as HD2.
    { destruct (decide (ex < -1022)) as [Hs|Hs].
      - assert (k = 1074) as -> by lia.
        rewrite <- Z.pow_succ_r by lia. apply HD.
      - assert (k = 52 - ex) as -> by lia.
        destruct (decide (0 ≤ ex)) as [Hge|Hlt].
        + destruct Hp as [Hp _]; [done|].
          assert (2 ^ 53 = 2 * 2 ^ (52 - ex) * 2 ^ ex) as Heq.
          { rewrite <- Z.pow_succ_r, <- Z.pow_add_r by lia. f_equal; lia. }
          assert (0 < 2 ^ ex) by (apply pow2_pos; lia).
          assert (0 < 2 ^ (52 - ex)) by (apply pow2_pos; lia).
          nia.
        + destruct Hn as [Hn _]; [lia|].
          assert (2 * 2 ^ (52 - ex) = 2 ^ 53 * 2 ^ (- ex)) as ->.
          { rewrite <- Z.pow_succ_r, <- Z.pow_add_r by lia. f_equal; lia. }
          assert (0 < 2 ^ (- ex)) by (apply pow2_pos; lia).
          nia. }
    replace (- (Z.max ex (-1022) - 52)) with k by done.
    replace (- - k) with k by lia.
    pose proof (rhe_div_spec (N * 2 ^ k) D ltac:(lia)) as Hr.
    set (m := rhe_div (N * 2 ^ k) D) in *.
    pose proof (Z.mul_div_le N D ltac:(lia)).
    pose proof (Z.mul_succ_div_gt N D ltac:(lia)).
    pose proof (Z.mul_div_le (- N) D ltac:(lia)).
    pose proof (Z.mul_succ_div_gt (- N) D ltac:(lia)).
    split; [lia|]. split.
    + symmetry. apply Z.div_unique_pos with (r := m - N `div` D * 2 ^ k);
        [|lia]. split; nia.
    + f_equal. symmetry.
      apply Z.div_unique_pos with (r := - m - (- N) `div` D * 2 ^ k);
        [|lia]. split; nia.
Qed.


Lemma fl_proper (x y : Q) : (x == y)%Q → fl x = fl y.
Proof. intros H. unfold fl. by rewrite (Qred_complete x y H). Qed.

Lemma Qred_inject_Z (n : Z) : Qred (inject_Z n) = inject_Z n.
Proof.
  unfold Qred, inject_Z.
  pose proof (Z.ggcd_gcd n 1) as Hg.
  pose proof (Z.ggcd_correct_divisors n 1) as Hd.
  destruct (Z.ggcd n 1) as [g [aa bb]]. cbn in Hg. destruct Hd as [Ha Hb].
  rewrite Z.gcd_1_r in Hg. subst g.
  f_equal; [lia|]. assert (bb = 1) as -> by lia. done.
Qed.

Lemma fl_canonical (x q : Q) : fl x = Some q → Qred q = q.
Proof.
  unfold fl. case_decide.
  - by intros [= <-].
  - destruct (round_frac _ _) as [m e]. case_decide; [done|].
    intros [= <-]. apply Qred_complete, Qred_correct.
Qed.

Lemma Qdiv_Z (a b : Z) :
  0 < b → (inject_Z a / inject_Z b == a # Z.to_pos b)%Q.
Proof.
  intros Hb. destruct b as [|p|p]; try lia.
  unfold Qeq, Qdiv, Qinv, Qmult, inject_Z. cbn. lia.
Qed.

Lemma dyadic_floor (m e : Z) :
  e ≤ 0 → Qfloor (dyadic m e) = m `div` 2 ^ (- e).
Proof.
  intros He. unfold dyadic. case_decide.
  - assert (e = 0) as -> by lia. rewrite Qfloor_Z. cbn.
    by rewrite Z.mul_1_r, Z.div_1_r.
  - cbn. rewrite Z2Pos.id; [done|]. apply pow2_pos. lia.
Qed.

Lemma dyadic_ceiling (m e : Z) :
  e ≤ 0 → Qceiling (dyadic m e) = - ((- m) `div` 2 ^ (- e)).
Proof.
  intros He. unfold dyadic. case_decide.
  - assert (e = 0) as -> by lia. rewrite Qceiling_Z. cbn.
    rewrite Z.mul_1_r, Z.div_1_r. lia.
  - unfold Qceiling. cbn. rewrite Z2Pos.id; [done|]. apply pow2_pos. lia.
Qed.

Lemma dyadic_opp (m e : Z) : dyadic (- m) e = (- dyadic m e)%Q.
Proof.
  unfold dyadic. case_decide; [|done].
  unfold inject_Z, Qopp. cbn. f_equal. lia.
Qed.

Lemma fl_opp (x : Q) : fl (- x) = Qopp <$> fl x.
Proof.
  unfold fl. rewrite Qred_opp. destruct (Qred x) as [N D]. cbn [Qopp Qnum Qden].
  destruct (decide (N = 0)) as [->|HN].
  - by rewrite !decide_True by done.
  - rewrite !decide_False by lia. rewrite Z.abs_opp.
    destruct (round_frac (Z.abs N) (Z.pos D)) as [m e].
    case_decide; [done|]. cbn. f_equal.
    rewrite Z.sgn_opp, Z.mul_opp_l, dyadic_opp. apply Qred_opp.
Qed.

Lemma fl_zero (x : Q) : (x == 0)%Q → fl x = Some 0%Q.
Proof. intros H. by rewrite (fl_proper _ _ H). Qed.

(** The rounded quotient of a positive integer below [2 ^ 53] by a positive
    integer has the floor and the ceiling of the exact quotient. *)
Lemma fl_quot (x : Q) (a b : Z) :
  0 < a < 2 ^ 53 → 0 < b < 2 ^ 1075 →
  (x == inject_Z a / inject_Z b)%Q →
  ∃ q, fl x = Some q ∧ Qfloor q = a `div` b ∧
       Qceiling q = - ((- a) `div` b).
Proof.
  intros Ha Hb Hx.
  assert (Qred x == a # Z.to_pos b)%Q as Hr.
  { by rewrite Qred_correct, Hx, Qdiv_Z by lia. }
  pose proof (gcd_Qred x) as Hg.
  assert (Qfloor (Qred x) = a `div` b) as Hfl.
  { rewrite (Qfloor_comp _ _ Hr). cbn. by rewrite Z2Pos.id by lia. }
  assert (Qceiling (Qred x) = - ((- a) `div` b)) as Hce.
  { rewrite (Qceiling_comp _ _ Hr). unfold Qceiling. cbn.
    by rewrite Z2Pos.id by lia. }
  unfold fl. destruct (Qred x) as [N D]. cbn [Qnum Qden] in *.
  unfold Qeq in Hr. cbn [Qnum Qden] in Hr. rewrite Z2Pos.id in Hr by lia.
  assert (0 < N) as HN by nia.
  assert (N ≤ a) as HNa.
  { apply Z.divide_pos_le; [lia|].
    apply (Z.gauss N (Z.pos D) a); [|done].
    exists b. lia. }
  assert (Z.pos D ≤ b) as HDb.
  { apply Z.divide_pos_le; [lia|].
    apply (Z.gauss (Z.pos D) N b); [|by rewrite Z.gcd_comm].
    exists a. lia. }
  rewrite decide_False by lia.
  rewrite Z.abs_eq by lia.
  destruct (round_frac N (Z.pos D)) as [m e] eqn:Hrf.
  apply round_frac_small in Hrf as (He & Hf & Hc); [|lia..].
  unfold Qceiling in Hce. cbn in Hfl, Hce.
  rewrite decide_False.
  - eexists; split; [done|].
    rewrite Z.sgn_pos, Z.mul_1_l by done.
    rewrite (Qfloor_comp _ _ (Qred_correct _)),
      (Qceiling_comp _ _ (Qred_correct _)).
    rewrite dyadic_floor, dyadic_ceiling by done. split; congruence.
  - intros [He' Hov]. assert (e = 0) as -> by lia.
    change (- 0) with 0 in Hf. change (2 ^ 0) with 1 in *.
    rewrite Z.div_1_r in Hf. rewrite Z.mul_1_r in Hov.
    pose proof (Z.mul_div_le N (Z.pos D) ltac:(lia)).
    assert (2 ^ 53 < 2 ^ 1024) by (by apply pow2_lt).
    nia.
Qed.

(** An integer below [2 ^ 53] in absolute value is a float. *)
Lemma fl_int (x : Q) (n : Z) :
  Z.abs n < 2 ^ 53 → (x == inject_Z n)%Q → fl x = Some (inject_Z n).
Proof.
  intros Hn Hx. rewrite (fl_proper _ _ Hx).
  assert (∀ n, 0 ≤ n < 2 ^ 53 → fl (inject_Z n) = Some (inject_Z n)) as Hpos.
  { clear. intros n Hn. destruct (decide (n = 0)) as [->|Hn0]; [done|].
    destruct (fl_quot (inject_Z n) n 1) as (q & Hq & Hf & Hc);
      [lia|split; [lia|by apply (pow2_lt 0)]| |].
    { unfold Qeq; cbn. lia. }
    rewrite Hq. f_equal.
    rewrite Z.div_1_r in Hf, Hc.
    rewrite <- (fl_canonical _ _ Hq), <- (Qred_inject_Z n).
    apply Qred_complete, Qle_antisym.
    - replace n with (Qceiling q) by lia. apply Qle_ceiling.
    - replace n with (Qfloor q) at 1 by lia. apply Qfloor_le. }
  destruct (decide (0 ≤ n)) as [Hn0|Hn0]; [apply Hpos; lia|].
  assert (inject_Z n = - inject_Z (- n))%Q as ->.
  { unfold inject_Z, Qopp. cbn. f_equal. lia. }
  rewrite fl_opp, Hpos by lia. done.
Qed.


(** A significand has at most 53 bits, and no exponent is below -1074. *)
Lemma round_frac_bound (N D m e : Z) :
  0 < N → 0 < D → round_frac N D = (m, e) →
  0 ≤ m ≤ 2 ^ 53 ∧ -1074 ≤ e.
Proof.
  intros HN HD. unfold round_frac.
  destruct (exponent_spec N D HN HD) as [Hp Hn].
  set (ex := exponent N D) in *.
  assert (∀ A D', 0 < D' → 0 ≤ A → A < 2 ^ 53 * D' →
                  0 ≤ rhe_div A D' ≤ 2 ^ 53) as Hr.
  { intros A D' HD' HA Hlt. pose proof (rhe_div_spec A D' HD').
    assert (0 < 2 ^ 53) by (by apply pow2_pos). nia. }
  case_decide as He; intros [= <- <-]; (split; [|lia]).
  - destruct Hp as [_ Hp]; [lia|].
    assert (0 < 2 ^ (Z.max ex (-1022) - 52)) by (apply pow2_pos; lia).
    apply Hr; [nia|lia|].
    replace (ex + 1) with (53 + (Z.max ex (-1022) - 52)) in Hp by lia.
    rewrite Z.pow_add_r in Hp by lia. nia.
  - set (k := - (Z.max ex (-1022) - 52)).
    assert (0 < k) by lia.
    assert (0 < 2 ^ k) by (apply pow2_pos; lia).
    apply Hr; [done|nia|].
    destruct (decide (0 ≤ ex)) as [Hex|Hex].
    + destruct Hp as [_ Hp]; [done|].
      assert (2 ^ 53 = 2 ^ (ex + 1) * 2 ^ k) as ->.
      { rewrite <- Z.pow_add_r by lia. f_equal. lia. }
      nia.
    + destruct Hn as [_ Hn]; [lia|].
      assert (0 < 2 ^ (- ex)) by (apply pow2_pos; lia).
      destruct (decide (-1022 ≤ ex)) as [Hex'|Hex'].
      * assert (2 ^ k = 2 ^ (- ex) * 2 ^ 52) as ->.
        { rewrite <- Z.pow_add_r by lia. f_equal. lia. }
        change (2 ^ 53) with (2 * 2 ^ 52).
        assert (0 < 2 ^ 52) by done. nia.
      * assert (k = 1074) as Hk by lia.
        assert (0 < 2 ^ 53) by done.
        destruct (decide (-1074 ≤ ex)) as [Hex2|Hex2].
        -- assert (2 ^ k = 2 ^ (- ex) * 2 ^ (k + ex)) as ->.
           { rewrite <- Z.pow_add_r by lia. f_equal. lia. }
           assert (0 < 2 ^ (k + ex) ≤ 2 ^ 51) as Hle
             by (split; [apply pow2_pos|apply pow2_le]; lia).
           change (2 ^ 53) with (4 * 2 ^ 51) in *.
           assert (N * 2 ^ (- ex) * 2 ^ (k + ex) < 2 * D * 2 ^ 51); [|lia].
           nia.
        -- assert (2 ^ k ≤ 2 ^ (- ex)) by (apply pow2_le; lia). nia.
Qed.

(** A finite float is below [2 ^ 1024] in absolute value. *)
Lemma fl_finite (x y : Q) :
  fl x = Some y → Z.abs (Qfloor y) ≤ 2 ^ 1024.
Proof.
  assert (0 < 2 ^ 1024) as H1024 by (by apply pow2_pos).
  assert (2 ^ 53 < 2 ^ 1024) as H53 by (by apply pow2_lt).
  unfold fl. pose proof (Qred_correct x) as Hx.
  destruct (Qred x) as [N D]. cbn [Qnum Qden].
  case_decide as HN; [intros [= <-]; change (Qfloor 0) with 0; lia|].
  destruct (round_frac (Z.abs N) (Z.pos D)) as [m e] eqn:Hrf.
  apply round_frac_bound in Hrf as [Hm He]; [|lia..].
  case_decide as Hov; [done|]. intros [= <-].
  rewrite (Qfloor_comp _ _ (Qred_correct _)).
  unfold dyadic. case_decide as He0.
  - rewrite Qfloor_Z.
    assert (0 < 2 ^ e) by (by apply pow2_pos).
    assert (m * 2 ^ e < 2 ^ 1024) by (apply Z.nle_gt; intros ?; by apply Hov).
    destruct (Z.sgn_spec N) as [[? ->]|[[? ->]|[? ->]]]; nia.
  - cbn. assert (0 < 2 ^ (- e)) as HP by (apply pow2_pos; lia).
    rewrite Z2Pos.id by done.
    assert (- m ≤ Z.sgn N * m ≤ m) as Hs
      by (destruct (Z.sgn_spec N) as [[? ->]|[[? ->]|[? ->]]]; lia).
    pose proof (Z.div_le_mono _ _ (2 ^ (- e)) HP (proj1 Hs)).
    pose proof (Z.div_le_mono _ _ (2 ^ (- e)) HP (proj2 Hs)).
    pose proof (Z.div_le_upper_bound m (2 ^ (- e)) m HP ltac:(nia)).
    pose proof (Z.div_le_lower_bound (- m) (2 ^ (- e)) (- m) HP ltac:(nia)).
    lia.
Qed.

End FloatFacts.


(** ** Discretization *)

Lemma to_double_exact (v : Z) :
  Z.abs v < 2 ^ 53 → Float.to_double v = Ok (inject_Z v).
Proof.
  intros Hv. unfold Float.to_double.
  by rewrite (FloatFacts.fl_int _ v Hv (Qeq_refl _)).
Qed.

(** Below [2 ^ 53] the float division of [_discretize] loses nothing:
    [math.ceil(value / mem_unit)] is the ceiling of the exact quotient. *)
Lemma ceil_div_exact (value mem_unit : Z) :
  0 ≤ value < 2 ^ 53 → mem_unit ≠ 0 → Z.abs mem_unit ≤ 2 ^ 1024 →
  ceil_div value (Some mem_unit) = Ok (exact_ceil mem_unit value).
Proof.
  intros Hv Hu Hb. unfold ceil_div. rewrite to_double_exact by lia.
  cbn [bind]. rewrite decide_False by done. unfold exact_ceil.
  assert (2 ^ 1024 < 2 ^ 1075) by (by apply FloatFacts.pow2_lt).
  destruct (decide (value = 0)) as [->|Hv0].
  { rewrite FloatFacts.fl_zero by (unfold Qdiv; apply Qmult_0_l).
    change (- 0) with 0. by rewrite Z.div_0_l. }
  destruct (decide (0 < mem_unit)) as [Hpos|Hneg].
  - destruct (FloatFacts.fl_quot (inject_Z value / inject_Z mem_unit)
                value mem_unit) as (q & -> & _ & ->); [lia..|done|done].
  - assert (inject_Z value / inject_Z mem_unit ==
            - (inject_Z value / inject_Z (- mem_unit)))%Q as Heq.
    { rewrite inject_Z_opp. field. intros H0.
      unfold Qeq in H0. cbn in H0. lia. }
    rewrite (FloatFacts.fl_proper _ _ Heq), FloatFacts.fl_opp.
    destruct (FloatFacts.fl_quot (inject_Z value / inject_Z (- mem_unit))
                value (- mem_unit)) as (q & -> & Hf & _); [lia..|done|].
    cbn [fmap option_fmap option_map]. unfold Qceiling.
    rewrite (Qfloor_comp _ _ (Qopp_involutive q)), Hf.
    by rewrite <- (Z.div_opp_opp (- value) mem_unit), Z.opp_involutive.
Qed.

Lemma ceil_div_spec (value mem_unit : Z) :
  0 < mem_unit ≤ 2 ^ 1024 → 0 ≤ value < 2 ^ 53 →
  ∃ d, ceil_div value (Some mem_unit) = Ok d ∧
       value ≤ d * mem_unit ∧ (d - 1) * mem_unit < value.
Proof.
  intros Hu Hv. rewrite ceil_div_exact by lia.
  eexists; split; [done|]. unfold exact_ceil.
  pose proof (Z.div_mod (- value) mem_unit ltac:(lia)) as Hdm.
  pose proof (Z.mod_pos_bound (- value) mem_unit ltac:(lia)) as Hmod.
  nia.
Qed.

Lemma discretize_Ok (mem_unit : Z) (values : list Z) :
  mem_unit ≠ 0 → Z.abs mem_unit ≤ 2 ^ 1024 →
  Forall (λ v, 0 ≤ v < 2 ^ 53) values →
  _discretize (Some mem_unit) values = Ok (exact_ceil mem_unit <$> values).
Proof.
  intros Hu Hb Hvs. induction Hvs as [|v values Hv _ IH]; [done|].
  cbn [_discretize]. rewrite ceil_div_exact by done. cbn [bind].
  by rewrite IH.
Qed.

(** A zero [mem_unit] makes the first division raise. *)
Lemma discretize_zero_unit (value : Z) (values : list Z) :
  Z.abs value < 2 ^ 53 →
  _discretize (Some 0) (value :: values) = Err ZeroDivisionError.
Proof.
  intros Hv. cbn [_discretize]. unfold ceil_div.
  by rewrite to_double_exact by done.
Qed.

Lemma floor_div_finite (vx : option Q) (wx u : Q) :
  Float.floor_div vx wx = Ok (Some u) → Z.abs (Qfloor u) ≤ 2 ^ 1024.
Proof.
  assert (0 < 2 ^ 1024) as H1024 by (by apply FloatFacts.pow2_pos).
  unfold Float.floor_div. case_decide; [done|]. intros [= Hu].
  destruct vx as [vx|]; [|done]. cbn in Hu.
  destruct (Float.fl (vx - _)) as [d0|]; [|done]. cbn in Hu.
  destruct (Float.fl (d0 / wx)) as [div0|] eqn:Hdiv0; [|done]. cbn in Hu.
  assert (∀ div, (∃ x, Float.fl x = Some div) →
            (if decide (Qnum div = 0) then Some 0%Q
             else match Float.fl (div - inject_Z (Qfloor div)) with
                  | Some t =>
                      if Qle_bool t (1 # 2) then Some (inject_Z (Qfloor div))
                      else Float.fl (inject_Z (Qfloor div) + 1)
                  | None => Some (inject_Z (Qfloor div))
                  end) = Some u →
            Z.abs (Qfloor u) ≤ 2 ^ 1024) as Hend.
  { intros div [x Hx] Hr. apply FloatFacts.fl_finite in Hx.
    case_decide; [simplify_eq; change (Qfloor 0) with 0; lia|].
    destruct (Float.fl (div - _)) as [t|].
    - destruct (Qle_bool t (1 # 2)).
      + simplify_eq. by rewrite Qfloor_Z.
      + by apply FloatFacts.fl_finite in Hr.
    - simplify_eq. by rewrite Qfloor_Z. }
  case_decide.
  - cbn in Hu. apply (Hend div0); eauto.
  - destruct (xorb _ _).
    + destruct (Float.fl (div0 - 1)) as [div|] eqn:Hdiv; [|done].
      cbn in Hu. apply (Hend div); eauto.
    + cbn in Hu. apply (Hend div0); eauto.
Qed.

(** The unit that [solver_rotor] computes is a finite float. *)
Lemma mem_unit_finite (mem_limit mem_slots : Z) (eps : Q) (mem_unit : Z) :
  mem_unit_of mem_limit mem_slots eps = Ok (Some mem_unit) →
  Z.abs mem_unit ≤ 2 ^ 1024.
Proof.
  unfold mem_unit_of.
  destruct (Float.to_double mem_limit) as [l|]; [|done]. cbn [bind].
  destruct (Float.to_double mem_slots) as [wx|]; [|done]. cbn [bind].
  destruct (Float.floor_div _ wx) as [[u|]|] eqn:Hu; [|done..].
  cbn. intros [= <-]. by eapply floor_div_finite.
Qed.

(** ** The chain builder *)

Lemma ceil_nonneg (mem_unit value : Z) :
  0 < mem_unit → 0 ≤ value → 0 ≤ exact_ceil mem_unit value.
Proof.
  intros Hu Hv. unfold exact_ceil.
  pose proof (Z.div_mod (- value) mem_unit ltac:(lia)) as Hdm.
  pose proof (Z.mod_pos_bound (- value) mem_unit Hu) as Hmod.
  nia.
Qed.

Lemma ceil_nonpos (mem_unit value : Z) :
  mem_unit < 0 → 0 ≤ value → exact_ceil mem_unit value ≤ 0.
Proof.
  intros Hu Hv. unfold exact_ceil.
  rewrite <- (Z.opp_involutive mem_unit) at 1.
  rewrite Z.div_opp_opp by lia.
  pose proof (Z.div_pos value (- mem_unit) Hv ltac:(lia)). lia.
Qed.

(** A value below the size of a negative unit is discretized to 0. *)
Lemma ceil_neg_unit_zero (mem_unit value : Z) :
  0 ≤ value < - mem_unit → exact_ceil mem_unit value = 0.
Proof.
  intros Hv. unfold exact_ceil.
  rewrite <- (Z.opp_involutive mem_unit) at 1.
  rewrite Z.div_opp_opp by lia. rewrite Z.div_small by lia. done.
Qed.

Lemma ceil_mono (mem_unit v1 v2 : Z) :
  0 < mem_unit → v1 ≤ v2 → exact_ceil mem_unit v1 ≤ exact_ceil mem_unit v2.
Proof.
  intros Hu Hv. unfold exact_ceil.
  pose proof (Z.div_le_mono (- v2) (- v1) mem_unit Hu ltac:(lia)). lia.
Qed.

Lemma ceil_zero (mem_unit : Z) : exact_ceil mem_unit 0 = 0.
Proof. unfold exact_ceil. simpl. by rewrite Zdiv_0_l. Qed.

Lemma Forall_ceil_nonneg (mem_unit : Z) (l : list Z) :
  0 < mem_unit → Forall (λ x, 0 ≤ x) l →
  Forall (λ x, 0 ≤ x) (exact_ceil mem_unit <$> l).
Proof.
  intros Hu Hl. apply Forall_fmap. eapply Forall_impl; [exact Hl|].
  intros x Hx. by apply ceil_nonneg.
Qed.

(** The four lists that [_construct_chain] discretizes hold non-negative
    values below [2 ^ 53] when the measurements of the stages do. *)
Lemma chain_values_exact (node_list : list Stage) (data_size : Z) :
  0 ≤ data_size < 2 ^ 53 →
  Forall stage_nonneg node_list → Forall stage_exact node_list →
  Forall (λ v, 0 ≤ v < 2 ^ 53)
    (data_size ::
       ((λ node, if stage_inplace node then 0
                 else Z.max (stage_output_size node) (stage_fwd_xbar node))
          <$> node_list)) ∧
  Forall (λ v, 0 ≤ v < 2 ^ 53)
    (data_size :: (stage_output_size <$> node_list)) ∧
  Forall (λ v, 0 ≤ v < 2 ^ 53) (replicate (List.length node_list) 0) ∧
  Forall (λ v, 0 ≤ v < 2 ^ 53) ((stage_bwd_tmp <$> node_list) ++ [0]).
Proof.
  intros Hd Hn He.
  assert (0 < 2 ^ 53) as H53 by (by apply FloatFacts.pow2_pos).
  assert (Forall (λ node, stage_nonneg node ∧ stage_exact node) node_list)
    as Hne by (by apply Forall_and).
  split_and!.
  - apply Forall_cons. split; [done|]. apply Forall_fmap.
    eapply Forall_impl; [exact Hne|].
    intros node [(? & ? & ?) (? & ? & ?)]. simpl. case_match; lia.
  - apply Forall_cons. split; [done|]. apply Forall_fmap.
    eapply Forall_impl; [exact Hne|].
    intros node [(? & ? & ?) (? & ? & ?)]. simpl. lia.
  - apply Forall_replicate. lia.
  - apply Forall_app. split; [|apply Forall_singleton; lia].
    apply Forall_fmap. eapply Forall_impl; [exact Hne|].
    intros node [(? & ? & ?) (? & ? & ?)]. simpl. lia.
Qed.

(** The chain that [_construct_chain] returns for a non-zero unit. *)
Lemma construct_chain_Ok (node_list : list Stage) (data_size mem_unit : Z) :
  mem_unit ≠ 0 → Z.abs mem_unit ≤ 2 ^ 1024 →
  0 ≤ data_size < 2 ^ 53 →
  Forall stage_nonneg node_list → Forall stage_exact node_list →
  _construct_chain node_list data_size (Some mem_unit)
  = Ok (mkChain
          (stage_fwd_time <$> node_list)
          ((stage_bwd_time <$> node_list) ++ [0])
          (exact_ceil mem_unit <$>
             data_size :: (stage_output_size <$> node_list))
          (exact_ceil mem_unit <$>
             data_size ::
               ((λ node, if stage_inplace node then 0
                         else Z.max (stage_output_size node)
                                    (stage_fwd_xbar node)) <$> node_list))
          (exact_ceil mem_unit <$> replicate (List.length node_list) 0)
          (exact_ceil mem_unit <$> (stage_bwd_tmp <$> node_list) ++ [0])).
Proof.
  intros Hu Hb Hd Hn He.
  destruct (chain_values_exact node_list data_size Hd Hn He)
    as (H1 & H2 & H3 & H4).
  unfold _construct_chain. by rewrite !discretize_Ok by done.
Qed.

Lemma built_chain_wf (node_list : list Stage) (data_size mem_unit : Z)
    (chain : Chain) :
  0 < mem_unit ≤ 2 ^ 1024 → 0 ≤ data_size < 2 ^ 53 →
  Forall stage_nonneg node_list → Forall stage_exact node_list →
  _construct_chain node_list data_size (Some mem_unit) = Ok chain →
  wf_chain chain ∧
  chain_length chain = List.length node_list ∧
  item (bweight chain) (chain_length chain) = 0 ∧
  item (bwd_tmp chain) (chain_length chain) = 0 ∧
  Forall (λ x, x = 0) (fwd_tmp chain).
Proof.
  intros Hu Hd Hn He. rewrite construct_chain_Ok by (done || lia).
  intros [= <-].
  assert (0 < mem_unit) as Hu' by lia. assert (0 ≤ data_size) as Hd' by lia.
  assert (Forall (λ x, 0 ≤ x) (stage_output_size <$> node_list)) as H1.
  { apply Forall_fmap. eapply Forall_impl; [exact Hn|]. by intros x (? & _). }
  assert (Forall (λ x, 0 ≤ x)
            ((λ node, if stage_inplace node then 0
                      else Z.max (stage_output_size node)
                                 (stage_fwd_xbar node)) <$> node_list)) as H2.
  { apply Forall_fmap. eapply Forall_impl; [exact Hn|].
    intros x (? & ? & _). simpl. case_match; lia. }
  assert (Forall (λ x, 0 ≤ x) (stage_bwd_tmp <$> node_list)) as H3.
  { apply Forall_fmap. eapply Forall_impl; [exact Hn|].
    by intros x (_ & _ & ?). }
  split_and!.
  - split; unfold chain_length; cbn [fweight bweight cweight cbweight
                                      fwd_tmp bwd_tmp].
    + by rewrite length_app, !length_fmap, Nat.add_1_r.
    + by rewrite length_fmap; cbn; rewrite !length_fmap.
    + by rewrite length_fmap; cbn; rewrite !length_fmap.
    + by rewrite !length_fmap, length_replicate.
    + by rewrite length_fmap, length_app, !length_fmap, Nat.add_1_r.
    + apply Forall_cons. split; [by apply ceil_nonneg|].
      by apply (Forall_ceil_nonneg mem_unit).
    + apply Forall_cons. split; [by apply ceil_nonneg|].
      by apply (Forall_ceil_nonneg mem_unit).
    + apply Forall_ceil_nonneg; [done|]. apply Forall_replicate. lia.
    + apply Forall_ceil_nonneg; [done|]. apply Forall_app. split; [done|].
      by apply Forall_singleton.
  - unfold chain_length. cbn. by rewrite length_fmap.
  - unfold chain_length. cbn [fweight bweight].
    rewrite length_fmap, <- (length_fmap stage_bwd_time node_list).
    apply item_app_end.
  - unfold chain_length. cbn [fweight bwd_tmp].
    rewrite fmap_app. cbn. rewrite ceil_zero, length_fmap.
    rewrite <- (length_fmap stage_bwd_tmp node_list).
    rewrite <- (length_fmap (exact_ceil mem_unit)
                  (stage_bwd_tmp <$> node_list)).
    apply item_app_end.
  - cbn. apply Forall_fmap, Forall_replicate. simpl. apply ceil_zero.
Qed.

(** ** The [torch.var_mean] branch *)

Section var_mean.
Import StrategiesConstructor.
Context (CONV_FUNC_OP LINEAR_FUNC_OP RESHAPE_FUNC_OP : list Target).
Context (ELEMENTWISE_FUNC_OP BCAST_FUNC_OP : list Target).
Context (var_mean_strategy :
           Z → ShardingSpec → ShardingSpec → sharding_output → outcome frame).
Context (other_branch :
           Node → option sharding_output → outcome (option sharding_output)).

#[local] Abbreviation process :=
  (process_node CONV_FUNC_OP LINEAR_FUNC_OP RESHAPE_FUNC_OP ELEMENTWISE_FUNC_OP
     BCAST_FUNC_OP var_mean_strategy other_branch).
#[local] Abbreviation build :=
  (build_strategies_and_cost CONV_FUNC_OP LINEAR_FUNC_OP RESHAPE_FUNC_OP
     ELEMENTWISE_FUNC_OP BCAST_FUNC_OP var_mean_strategy other_branch).
#[local] Abbreviation reached :=
  (var_mean_reached CONV_FUNC_OP LINEAR_FUNC_OP RESHAPE_FUNC_OP
     ELEMENTWISE_FUNC_OP BCAST_FUNC_OP).

Lemma for_loop_app {A St : Type} (body : St → A → outcome St)
    (l k : list A) (s : St) :
  for_loop body (l ++ k) s =
  match for_loop body l s with
  | Done s' => for_loop body k s'
  | Raise e => Raise e
  end.
Proof.
  revert s. induction l as [|x l IH]; intros s; simpl; [done|].
  destruct (body s x); [apply IH|done].
Qed.

(** With [new_input_sharding_spec] unbound, the branch finishes only when
    there is no strategy to iterate over, and binds nothing. *)
Lemma var_mean_branch_unbound (node : Node) (fr fr' : frame) :
  local_new_input_sharding_spec fr = None →
  var_mean_branch var_mean_strategy node fr = Done fr' →
  local_new_input_sharding_spec fr' = None.
Proof.
  intros Hfr. unfold var_mean_branch.
  destruct (kwargs node !! "dim") as [dim|]; [|done].
  destruct (predecessor_strategies node) as [|[|strategy l] ?]; [done| |].
  - simpl. by intros [= <-].
  - simpl. unfold var_mean_iteration. rewrite Hfr.
    by destruct (output_sharding_spec strategy).
Qed.

Lemma process_node_unbound (node : Node) (fr fr' : frame) :
  local_new_input_sharding_spec fr = None →
  process fr node = Done fr' →
  local_new_input_sharding_spec fr' = None.
Proof.
  intros Hfr. unfold process_node.
  assert (run_other_branch other_branch node fr = Done fr' →
          local_new_input_sharding_spec fr' = None) as Hother.
  { unfold run_other_branch.
    destruct (other_branch node _); [|done]. by intros [= <-]. }
  repeat case_decide; try done.
  by apply var_mean_branch_unbound.
Qed.

(** [new_input_sharding_spec] is unbound whenever a node is reached. *)
Lemma nodes_unbound (nodes : list Node) (fr fr' : frame) :
  local_new_input_sharding_spec fr = None →
  for_loop process nodes fr = Done fr' →
  local_new_input_sharding_spec fr' = None.
Proof.
  revert fr. induction nodes as [|node nodes IH]; intros fr Hfr; simpl.
  - by intros [= <-].
  - destruct (process fr node) as [fr1|] eqn:Hnode; [|done].
    apply IH. by eapply process_node_unbound.
Qed.

(** The dispatch of a [call_function] node whose target is [torch.var_mean]. *)
Lemma process_var_mean (node : Node) (fr : frame) :
  reached →
  op node = "call_function" → target node = torch_var_mean →
  process fr node = var_mean_branch var_mean_strategy node fr.
Proof.
  intros (H1 & H2 & H3 & H4 & H5) Hop Ht. unfold process_node.
  rewrite Ht. rewrite decide_True by done.
  rewrite !decide_False by tauto. by rewrite decide_True.
Qed.

(** With at least one strategy on the first predecessor, the branch raises. *)
Lemma var_mean_branch_raises (node : Node) (fr : frame)
    (strategy : ShardingStrategy) (strategies : list ShardingStrategy)
    (others : list (list ShardingStrategy)) :
  local_new_input_sharding_spec fr = None →
  predecessor_strategies node = (strategy :: strategies) :: others →
  var_mean_branch var_mean_strategy node fr =
  match kwargs node !! "dim" with
  | None => Raise (KeyError "dim")
  | Some _ =>
      match output_sharding_spec strategy with
      | TupleSpec _ =>
          Raise (AssertionError "The input node should NOT be a tuple of tensor.")
      | OneSpec _ => Raise (NameError "new_input_sharding_spec")
      end
  end.
Proof.
  intros Hfr Hpred. unfold var_mean_branch. rewrite Hpred.
  destruct (kwargs node !! "dim"); [|done].
  simpl. unfold var_mean_iteration. rewrite Hfr.
  by destruct (output_sharding_spec strategy).
Qed.
End var_mean.

(** ** Maxima *)

Lemma py_max_spec (l : list Z) :
  l ≠ [] → py_max l ∈ l ∧ ∀ x, x ∈ l → x ≤ py_max l.
Proof.
  destruct l as [|x l]; [done|]. intros _. simpl.
  revert x. induction l as [|y l IH]; intros x; simpl.
  - split; [by left|]. intros z ->%list_elem_of_singleton. lia.
  - destruct (IH (Z.max x y)) as [Hin Hmax]. split.
    + apply elem_of_cons in Hin as [->|Hin]; [|by do 2 right].
      destruct (Z.max_spec x y) as [[_ ->]|[_ ->]]; [right|]; by left.
    + intros z [->|[->|Hz]%elem_of_cons]%elem_of_cons.
      * pose proof (Hmax (Z.max x y)) as H. specialize (H ltac:(by left)). lia.
      * pose proof (Hmax (Z.max x y)) as H. specialize (H ltac:(by left)). lia.
      * apply Hmax. by right.
Qed.

(** * The claims *)

Ltac solve_wf_chain :=
  split; simpl; try reflexivity; repeat constructor; lia.

(** C3. For a well-formed chain, a fixed range [(i, j)] with
    [0 <= i <= j <= L] and memory values [0 <= m1 <= m2 <= mmax], both cells
    [opt[m1][i][j]] and [opt[m2][i][j]] exist in the table of
    [_compute_table] and [opt[m2][i][j] <= opt[m1][i][j]], with [inf] above
    every integer: the minimal time does not increase when memory does. *)
Theorem opt_nonincreasing_in_memory (c : Chain) (mmax : Z)
    (opt : gmap (Z * nat * nat) ext) (what : gmap (Z * nat * nat) decision)
    (i j : nat) (m1 m2 : Z) :
  wf_chain c →
  _compute_table c mmax = Some (opt, what) →
  (i ≤ j ≤ chain_length c)%nat →
  0 ≤ m1 → m1 ≤ m2 → m2 ≤ mmax →
  ∃ v1 v2, opt !! (m1, i, j) = Some v1 ∧ opt !! (m2, i, j) = Some v2 ∧
           Ext.le v2 v1.
Proof.
  intros Hwf Ht Hi H0 H12 H2.
  destruct (table_present c mmax opt what Hwf Ht m1 i j) as [v1 Hv1];
    [lia|done|].
  destruct (table_present c mmax opt what Hwf Ht m2 i j) as [v2 Hv2];
    [lia|done|].
  exists v1, v2. split_and!; [done|done|].
  eapply (opt_mono_width c mmax opt what Hwf Ht (S (j - i)) i j m1 m2);
    (done || lia).
Qed.

Lemma opt_nonincreasing_in_memory_witness :
  ∃ v1 v2, (table_of chain_unit 3).1 !! (1, 0%nat, 1%nat) = Some v1 ∧
           (table_of chain_unit 3).1 !! (3, 0%nat, 1%nat) = Some v2 ∧
           Ext.le v2 v1.
Proof.
  apply (opt_nonincreasing_in_memory chain_unit 3 _ (table_of chain_unit 3).2).
  - solve_wf_chain.
  - vm_compute. reflexivity.
  - unfold chain_length. simpl. lia.
  - lia.
  - lia.
  - lia.
Defined.



(** C6, amended. For a cell [(m, i, j)] of width [d = j - i >= 1] the floor
    [mmin] is [ends = x_size[j+1] + x_size[i+1] + tmp_fwd[i]] when [d = 1];
    when [d > 1] it is the larger of [ends] and [x_size[j+1] + M], where [M]
    is the maximum over the interior stages [k] in [(i, j)] of
    [x_size[k] + x_size[k+1] + tmp_fwd[k]]: the interior maximum is raised
    by [x_size[j+1]], so the floor is at least [max(ends, M)] and equal to
    it when [x_size[j+1]] is 0.  Whenever [m < mmin] the cell [opt[m][i][j]]
    is [inf] and no decision is recorded; from [mmin] on the cell is given
    by the recurrence and a decision is recorded. *)
Theorem feasibility_floor (c : Chain) (mmax : Z)
    (opt : gmap (Z * nat * nat) ext) (what : gmap (Z * nat * nat) decision)
    (m : Z) (i j : nat) :
  wf_chain c →
  _compute_table c mmax = Some (opt, what) →
  0 ≤ m ≤ mmax → (i < j ≤ chain_length c)%nat →
  let ends := item (cw c) (j + 1) + item (cw c) (i + 1) + item (ftmp c) i in
  let stage k := item (cw c) k + item (cw c) (k + 1) + item (ftmp c) k in
  (j = (i + 1)%nat → mmin c i j = ends) ∧
  ((i + 1 < j)%nat →
   ∃ M, (∃ k, (i < k < j)%nat ∧ M = stage k) ∧
        (∀ k, (i < k < j)%nat → stage k ≤ M) ∧
        mmin c i j = Z.max ends (item (cw c) (j + 1) + M) ∧
        Z.max ends M ≤ mmin c i j ∧
        (item (cw c) (j + 1) = 0 → mmin c i j = Z.max ends M)) ∧
  (m < mmin c i j →
   opt !! (m, i, j) = Some Inf ∧ what !! (m, i, j) = None) ∧
  (mmin c i j ≤ m →
   ∃ leaf chain,
     leaf_checkpoints c opt m i j = Some leaf ∧
     chain_checkpoint c opt m i j = Some chain ∧
     opt !! (m, i, j) = Some (choose (best_of leaf) chain).1 ∧
     what !! (m, i, j) = Some (choose (best_of leaf) chain).2).
Proof.
  intros Hwf Ht Hm Hi ends stage. split_and!.
  - intros ->. unfold mmin. rewrite decide_False by lia. done.
  - intros Hd. unfold mmin. rewrite decide_True by lia.
    set (l := (λ k, item (cw c) k + item (cw c) (k + 1) + item (ftmp c) k)
                <$> range (i + 1) j).
    destruct (py_max_spec l) as [Hin Hmax].
    { unfold l. rewrite (range_cons (i + 1) j) by lia. done. }
    pose proof (item_app0_nonneg (cweight c) (j + 1)
                  (wf_cweight_nonneg c Hwf)) as Hx. fold (cw c) in Hx.
    exists (py_max l). split_and!.
    + apply list_elem_of_fmap in Hin as (k & Hk & Hr%elem_of_range).
      exists k. split; [lia|done].
    + intros k Hk. apply Hmax. apply list_elem_of_fmap. exists k.
      split; [done|]. apply elem_of_range. lia.
    + done.
    + fold ends. lia.
    + fold ends. intros ->. by rewrite Z.add_0_l.
  - intros Hlt.
    destruct (table_cell_cases c mmax opt what Hwf Ht m i j Hm Hi)
      as [(_ & ? & ?)|(? & _)]; [done|lia].
  - intros Hge.
    destruct (table_cell_cases c mmax opt what Hwf Ht m i j Hm Hi)
      as [(? & _)|(_ & H)]; [lia|done].
Qed.

Lemma feasibility_floor_witness :
  let ends := item (cw chain_floor) (2 + 1) + item (cw chain_floor) (0 + 1)
              + item (ftmp chain_floor) 0 in
  let stage k := item (cw chain_floor) k + item (cw chain_floor) (k + 1)
                 + item (ftmp chain_floor) k in
  (2%nat = (0 + 1)%nat → mmin chain_floor 0 2 = ends) ∧
  ((0 + 1 < 2)%nat →
   ∃ M, (∃ k, (0 < k < 2)%nat ∧ M = stage k) ∧
        (∀ k, (0 < k < 2)%nat → stage k ≤ M) ∧
        mmin chain_floor 0 2 = Z.max ends (item (cw chain_floor) (2 + 1) + M) ∧
        Z.max ends M ≤ mmin chain_floor 0 2 ∧
        (item (cw chain_floor) (2 + 1) = 0 →
         mmin chain_floor 0 2 = Z.max ends M)) ∧
  (2 < mmin chain_floor 0 2 →
   (table_of chain_floor 3).1 !! (2, 0%nat, 2%nat) = Some Inf ∧
   (table_of chain_floor 3).2 !! (2, 0%nat, 2%nat) = None) ∧
  (mmin chain_floor 0 2 ≤ 2 →
   ∃ leaf chain,
     leaf_checkpoints chain_floor (table_of chain_floor 3).1 2 0 2
       = Some leaf ∧
     chain_checkpoint chain_floor (table_of chain_floor 3).1 2 0 2
       = Some chain ∧
     (table_of chain_floor 3).1 !! (2, 0%nat, 2%nat)
       = Some (choose (best_of leaf) chain).1 ∧
     (table_of chain_floor 3).2 !! (2, 0%nat, 2%nat)
       = Some (choose (best_of leaf) chain).2).
Proof.
  apply (feasibility_floor chain_floor 3 _ (table_of chain_floor 3).2 2 0 2).
  - solve_wf_chain.
  - vm_compute. reflexivity.
  - lia.
  - unfold chain_length. simpl. lia.
Defined.

(** C6 as stated fails: the interior maximum enters the floor with
    [x_size[j+1]] added.  On [chain_floor], for the range [(0, 2)],
    [ends = 2] and the interior maximum is [M = 2], so the floor of the
    claim is 2; the floor of the code is [max(2, 1 + 2) = 3], and with
    [m = 2] the cell holds [inf] and no decision, although the leaf
    candidate [k = 2] has the finite value 14. *)
Lemma feasibility_floor_interior :
  wf_chain chain_floor ∧
  _compute_table chain_floor 3 = Some (table_of chain_floor 3) ∧
  item (cw chain_floor) (2 + 1) + item (cw chain_floor) (0 + 1)
    + item (ftmp chain_floor) 0 = 2 ∧
  item (cw chain_floor) 1 + item (cw chain_floor) (1 + 1)
    + item (ftmp chain_floor) 1 = 2 ∧
  mmin chain_floor 0 2 = 3 ∧
  (table_of chain_floor 3).1 !! (2, 0%nat, 2%nat) = Some Inf ∧
  (table_of chain_floor 3).2 !! (2, 0%nat, 2%nat) = None ∧
  leaf_total chain_floor (table_of chain_floor 3).1 2 0 2 2 = Some (Fin 14).
Proof.
  split; [solve_wf_chain|]. vm_compute. repeat split; congruence.
Qed.

(** C2, amended. For every cell [(m, i, j)] with [i < j] and [m] at or above
    the floor [mmin]: if some [k] in [(i, j]] has [m >= x_size[k]] there is a
    best leaf, and whenever the best leaf total is less than or equal to the
    chain total, [what[m][i][j]] is the leaf marker [(False, k)] of its
    boundary and [opt[m][i][j]] its total; a tie goes to the leaf. *)
Theorem tie_break_leaf (c : Chain) (mmax : Z)
    (opt : gmap (Z * nat * nat) ext) (what : gmap (Z * nat * nat) decision)
    (m : Z) (i j : nat) :
  wf_chain c →
  _compute_table c mmax = Some (opt, what) →
  0 ≤ m ≤ mmax → (i < j ≤ chain_length c)%nat → mmin c i j ≤ m →
  ∃ leaf chain,
    leaf_checkpoints c opt m i j = Some leaf ∧
    chain_checkpoint c opt m i j = Some chain ∧
    ((∃ k, (i < k ≤ j)%nat ∧ item (cw c) k ≤ m) →
     ∃ k v, best_of leaf = Some (k, v)) ∧
    (∀ k v, best_of leaf = Some (k, v) → Ext.le v chain →
            what !! (m, i, j) = Some (LeafCkpt k) ∧
            opt !! (m, i, j) = Some v).
Proof.
  intros Hwf Ht Hm Hi Hmin.
  destruct (table_cell_cases c mmax opt what Hwf Ht m i j Hm Hi)
    as [(? & _)|(_ & leaf & chain & Hl & Hc & Ho & Hw)]; [lia|].
  exists leaf, chain. split_and!; [done|done| |].
  - intros (k & Hk & Hx).
    destruct (best_of leaf) as [[k' v]|] eqn:Hb; [eauto|].
    apply best_of_None in Hb. subst leaf.
    assert (is_Some (opt !! (m - item (cw c) k, k, j))) as [a Ha].
    { pose proof (item_app0_nonneg (cweight c) k (wf_cweight_nonneg c Hwf))
        as Hx0. fold (cw c) in Hx0.
      eapply table_present; [done..|lia|lia]. }
    assert (is_Some (opt !! (m, i, (k - 1)%nat))) as [b Hb].
    { eapply table_present; [done..|lia|lia]. }
    assert ((k, Fin (sum (slice (fw c) i k)) ⊕ a ⊕ b) ∈ @nil (nat * ext))
      as Hin; [|by apply elem_of_nil in Hin].
    apply (leaf_checkpoints_elem _ _ _ _ _ _ _ _ Hl).
    split_and!; [lia|lia|done|]. apply leaf_total_Some. eauto.
  - intros k v Hb Hle. rewrite Hw, Ho. unfold choose. rewrite Hb.
    unfold Ext.le in Hle. by rewrite Hle.
Qed.

Lemma tie_break_leaf_witness :
  ∃ leaf chain,
    leaf_checkpoints chain_tie (table_of chain_tie 5).1 5 0 2 = Some leaf ∧
    chain_checkpoint chain_tie (table_of chain_tie 5).1 5 0 2 = Some chain ∧
    ((∃ k, (0 < k ≤ 2)%nat ∧ item (cw chain_tie) k ≤ 5) →
     ∃ k v, best_of leaf = Some (k, v)) ∧
    (∀ k v, best_of leaf = Some (k, v) → Ext.le v chain →
            (table_of chain_tie 5).2 !! (5, 0%nat, 2%nat) = Some (LeafCkpt k) ∧
            (table_of chain_tie 5).1 !! (5, 0%nat, 2%nat) = Some v).
Proof.
  apply (tie_break_leaf chain_tie 5 _ (table_of chain_tie 5).2).
  - solve_wf_chain.
  - vm_compute. reflexivity.
  - lia.
  - unfold chain_length. simpl. lia.
  - vm_compute. discriminate.
Defined.

(** The tie of [chain_tie]: both totals are 13 and the leaf is recorded. *)
Example tie_break_leaf_tie :
  leaf_checkpoints chain_tie (table_of chain_tie 5).1 5 0 2
    = Some [(1%nat, Fin 13); (2%nat, Fin 14)] ∧
  chain_checkpoint chain_tie (table_of chain_tie 5).1 5 0 2 = Some (Fin 13) ∧
  (table_of chain_tie 5).2 !! (5, 0%nat, 2%nat) = Some (LeafCkpt 1).
Proof. vm_compute. done. Qed.

(** C2 as stated fails below the floor.  On [chain_two] with one unit of
    memory, the range [(0, 1)] has the candidate [k = 1] ([x_size[1] = 1])
    and its leaf total and the chain total are both [inf], a tie; but
    [m = 1 < mmin = 2], the comparison is never made, and [what[1][0][1]]
    holds no marker at all. *)
Lemma tie_break_below_floor :
  wf_chain chain_two ∧
  _compute_table chain_two 2 = Some (table_of chain_two 2) ∧
  item (cweight chain_two) 1 ≤ 1 ∧
  leaf_checkpoints chain_two (table_of chain_two 2).1 1 0 1
    = Some [(1%nat, Inf)] ∧
  chain_checkpoint chain_two (table_of chain_two 2).1 1 0 1 = Some Inf ∧
  Ext.le Inf Inf ∧
  1 < mmin chain_two 0 1 ∧
  (table_of chain_two 2).2 !! (1, 0%nat, 1%nat) = None.
Proof.
  split; [solve_wf_chain|]. vm_compute. repeat split; congruence.
Qed.

(** C1, amended. For a well-formed chain whose terminal backward time is 0,
    and a request [(lmin, lmax, cmem)] with [cmem > 0] and
    [opt[cmem][lmin][lmax]] finite, [_rec] (with a recursion budget above
    [lmax - lmin]) either returns a sequence whose total time is exactly
    [opt[cmem][lmin][lmax]], or raises the negative-memory error of a nested
    request whose memory is exactly 0; when every [x_size[k]] and
    [xbar_size[k]] with [1 <= k <= L] is positive it returns the sequence. *)
Theorem rec_round_trip (c : Chain) (mmax : Z)
    (opt : gmap (Z * nat * nat) ext) (what : gmap (Z * nat * nat) decision)
    (fuel lmin lmax : nat) (cmem v : Z) :
  wf_chain c →
  item (bweight c) (chain_length c) = 0 →
  _compute_table c mmax = Some (opt, what) →
  (lmax - lmin < fuel)%nat →
  0 < cmem →
  opt !! (cmem, lmin, lmax) = Some (Fin v) →
  ((∃ s, _rec fuel c lmin lmax cmem (opt, what) = Ok s ∧ total_time c s = v) ∨
   _rec fuel c lmin lmax cmem (opt, what) = Err (NegativeMemory 0)) ∧
  (positive_sizes c →
   ∃ s, _rec fuel c lmin lmax cmem (opt, what) = Ok s ∧ total_time c s = v).
Proof.
  intros Hwf Hloss Ht Hfuel Hcmem Hv.
  destruct (rec_spec c mmax opt what Hwf Ht Hloss fuel lmin lmax cmem v
              Hfuel Hcmem Hv) as [Hok|[Herr Hnp]].
  - split; [by left|done].
  - split; [by right|]. intros Hpos. by destruct Hnp.
Qed.

Lemma rec_round_trip_witness :
  ((∃ s, _rec 4 chain_tie 0 3 5 (table_of chain_tie 5) = Ok s ∧
         total_time chain_tie s = 13) ∨
   _rec 4 chain_tie 0 3 5 (table_of chain_tie 5) = Err (NegativeMemory 0)) ∧
  (positive_sizes chain_tie →
   ∃ s, _rec 4 chain_tie 0 3 5 (table_of chain_tie 5) = Ok s ∧
        total_time chain_tie s = 13).
Proof.
  apply (rec_round_trip chain_tie 5 (table_of chain_tie 5).1
           (table_of chain_tie 5).2 4 0 3 5 13).
  - solve_wf_chain.
  - reflexivity.
  - vm_compute. reflexivity.
  - lia.
  - lia.
  - vm_compute. reflexivity.
Defined.

(** The sequence of that request, and its time. *)
Example rec_round_trip_sequence :
  _rec 4 chain_tie 0 3 5 (table_of chain_tie 5)
    = Ok [ForwardCheck 0; ForwardEnable 1; ForwardEnable 2; Loss; Backward 2;
          Backward 1; ForwardEnable 0; Backward 0] ∧
  (table_of chain_tie 5).1 !! (5, 0%nat, 3%nat) = Some (Fin 13).
Proof. vm_compute. done. Qed.

(** C1 as stated fails when a nested request is left with no memory.  On
    [chain_empty_output] ([x_size[1] = 0], [xbar_size[1] = 1]) with one unit
    of memory, [opt[1][0][1] = 8] is finite and records the chain decision;
    [_rec] then asks for the range [(1, 1)] with [1 - xbar_size[1] = 0]
    units and raises: no sequence is returned. *)
Lemma rec_round_trip_no_memory :
  wf_chain chain_empty_output ∧
  item (bweight chain_empty_output) (chain_length chain_empty_output) = 0 ∧
  _compute_table chain_empty_output 1 = Some (table_of chain_empty_output 1) ∧
  0 < 1 ∧
  (table_of chain_empty_output 1).1 !! (1, 0%nat, 1%nat) = Some (Fin 8) ∧
  (table_of chain_empty_output 1).2 !! (1, 0%nat, 1%nat) = Some ChainCkpt ∧
  _rec 2 chain_empty_output 0 1 1 (table_of chain_empty_output 1)
    = Err (NegativeMemory 0).
Proof.
  split; [solve_wf_chain|]. vm_compute. repeat split; congruence.
Qed.

(** C4, amended. For a one-stage chain with [fwd_time = [5]] and
    [bwd_time = [3]] (terminal costs 0) whose sizes are small enough that the
    base floor of stage 0 is met at [mmax], that of the loss is met at
    [mmax - xbar_size[1]], and [mmax - xbar_size[1] > 0]: the solver yields
    [opt[mmax][0][1] = 8], and [_rec] for [(0, 1, mmax)] returns exactly
    [[ForwardEnable(0), Loss, Backward(0)]], of total cost 8. *)
Theorem one_stage_chain (x0 x1 xbar0 xbar1 tf0 tb0 tb1 mmax : Z) :
  let c := mkChain [5] [3; 0] [x0; x1] [xbar0; xbar1] [tf0] [tb0; tb1] in
  wf_chain c →
  limit c 0 ≤ mmax → limit c 1 ≤ mmax - xbar1 → 0 < mmax - xbar1 →
  ∃ opt what,
    _compute_table c mmax = Some (opt, what) ∧
    opt !! (mmax, 0%nat, 1%nat) = Some (Fin 8) ∧
    (∀ fuel, (1 < fuel)%nat →
       _rec fuel c 0 1 mmax (opt, what)
       = Ok [ForwardEnable 0; Loss; Backward 0]) ∧
    total_time c [ForwardEnable 0; Loss; Backward 0] = 8.
Proof.
  intros c Hwf H0 H1 Hpos.
  destruct (compute_table_total c mmax Hwf) as [[opt what] Ht].
  exists opt, what.
  pose proof (wf_cweight_nonneg c Hwf) as Hx. simpl in Hx.
  pose proof (wf_cbweight_nonneg c Hwf) as Hxbar. simpl in Hxbar.
  pose proof (wf_fwd_tmp_nonneg c Hwf) as Htf. simpl in Htf.
  pose proof (wf_bwd_tmp_nonneg c Hwf) as Htb. simpl in Htb.
  repeat match goal with
         | H : Forall _ (_ :: _) |- _ => apply Forall_cons in H as [? H]
         end.
  unfold limit, c in H0, H1. cbn in H0, H1.
  assert (opt !! (mmax, 0%nat, 0%nat) = Some (Fin 8)) as Hb0.
  { rewrite (table_base c mmax opt what Hwf Ht) by (unfold chain_length, c; simpl; lia).
    unfold base_value, limit, c. cbn. by rewrite decide_True by lia. }
  assert (opt !! (mmax - xbar1, 1%nat, 1%nat) = Some (Fin 0)) as Hb1.
  { rewrite (table_base c mmax opt what Hwf Ht) by (unfold chain_length, c; simpl; lia).
    unfold base_value, limit, c. cbn. by rewrite decide_True by lia. }
  destruct (table_cell_cases c mmax opt what Hwf Ht mmax 0 1)
    as [(Hlt & _)|(_ & leaf & chain & Hl & Hc & Ho & Hw)];
    [lia|unfold chain_length, c; simpl; lia| |].
  { unfold mmin in Hlt. rewrite decide_False in Hlt by lia.
    unfold c in Hlt. cbn in Hlt. lia. }
  apply chain_checkpoint_Some in Hc as [(_ & a & b & Ha & Hb & ->)|[Hlt _]];
    [|unfold c in Hlt; cbn in Hlt; lia].
  unfold c in Hb; cbn in Hb. rewrite Hb0 in Ha. rewrite Hb1 in Hb. simplify_eq.
  assert (choose (best_of leaf) (Fin 8 ⊕ Fin 0) = (Fin 8, ChainCkpt)) as Hch.
  { destruct (choose_cases (best_of leaf) (Fin 8 ⊕ Fin 0))
      as [(k & v & Hbest & Hle & _)|[_ ->]]; [|done].
    apply best_of_Some in Hbest as [Hin _].
    apply (leaf_checkpoints_elem _ _ _ _ _ _ _ _ Hl) in Hin
      as (Hk & Hxk & (a & b & Ha & Hb & ->)%leaf_total_Some).
    assert (k = 1%nat) as -> by lia. unfold c in Ha, Hb, Hxk. cbn in Ha, Hb, Hxk.
    rewrite Hb0 in Hb. simplify_eq.
    rewrite (table_base c mmax opt what Hwf Ht) in Ha
      by (unfold chain_length, c; simpl; lia).
    simplify_eq. unfold base_value in Hle. cbn in Hle. by case_decide. }
  rewrite Hch in Ho, Hw. simpl in Ho, Hw.
  split_and!; [exact Ht|exact Ho| |reflexivity].
  intros fuel Hfuel. destruct fuel as [|[|fuel]]; [lia|lia|].
  cbn [_rec]. rewrite decide_False by lia. rewrite Ho. cbn.
  rewrite decide_False by lia.
  rewrite Hw. cbn. rewrite decide_False by lia.
  rewrite Hb1. cbn. rewrite !decide_True by done. done.
Qed.

Lemma one_stage_chain_witness :
  ∃ opt what,
    _compute_table chain_unit 3 = Some (opt, what) ∧
    opt !! (3, 0%nat, 1%nat) = Some (Fin 8) ∧
    (∀ fuel, (1 < fuel)%nat →
       _rec fuel chain_unit 0 1 3 (opt, what)
       = Ok [ForwardEnable 0; Loss; Backward 0]) ∧
    total_time chain_unit [ForwardEnable 0; Loss; Backward 0] = 8.
Proof.
  apply (one_stage_chain 1 1 1 1 0 0 0 3).
  - solve_wf_chain.
  - vm_compute. discriminate.
  - vm_compute. discriminate.
  - lia.
Defined.

(** C4 as stated names the operations in another order.  On [chain_unit]
    with [mmax = 3] every floor is met and [opt[3][0][1] = 8]; the chain
    decision puts the sequence of the range [(1, 1)], which is [Loss],
    between [ForwardEnable(0)] and [Backward(0)]. *)
Lemma one_stage_chain_order :
  wf_chain chain_unit ∧
  _compute_table chain_unit 3 = Some (table_of chain_unit 3) ∧
  limit chain_unit 0 ≤ 3 ∧ limit chain_unit 1 ≤ 3 ∧ mmin chain_unit 0 1 ≤ 3 ∧
  (table_of chain_unit 3).1 !! (3, 0%nat, 1%nat) = Some (Fin 8) ∧
  _rec 2 chain_unit 0 1 3 (table_of chain_unit 3)
    = Ok [ForwardEnable 0; Loss; Backward 0] ∧
  [ForwardEnable 0; Loss; Backward 0] ≠ [ForwardEnable 0; Backward 0; Loss].
Proof.
  split; [solve_wf_chain|]. vm_compute. repeat split; congruence.
Qed.

(** C7, amended. For every request [(lmin, lmax, cmem)] (and a positive
    recursion budget): if [cmem <= 0], [_rec] raises the error that names
    the memory value; if [cmem > 0] and [opt[cmem][lmin][lmax]] is [inf], it
    raises the error that names the range and the memory value; no sequence
    is returned in either case.  Conversely, on a request with [cmem > 0]
    and a finite cell neither error is raised for the request itself: an
    error can only come from a nested request, and it is never a division
    error. *)
Theorem rec_infeasible_error (fuel : nat) (c : Chain)
    (opt : gmap (Z * nat * nat) ext) (what : gmap (Z * nat * nat) decision)
    (lmin lmax : nat) (cmem : Z) :
  (0 < fuel)%nat →
  (cmem ≤ 0 →
   _rec fuel c lmin lmax cmem (opt, what) = Err (NegativeMemory cmem)) ∧
  (0 < cmem → opt !! (cmem, lmin, lmax) = Some Inf →
   _rec fuel c lmin lmax cmem (opt, what) = Err (Infeasible lmin lmax cmem)) ∧
  (∀ v e, 0 < cmem → opt !! (cmem, lmin, lmax) = Some (Fin v) →
          _rec fuel c lmin lmax cmem (opt, what) = Err e →
          e ≠ NegativeMemory cmem ∧ e ≠ Infeasible lmin lmax cmem ∧
          e ≠ ZeroDivisionError).
Proof.
  intros Hfuel. split_and!.
  - intros Hc. by apply rec_no_memory.
  - intros Hc Ho. destruct fuel as [|fuel]; [lia|].
    cbn [_rec]. rewrite decide_False by lia. by rewrite Ho.
  - intros v e Hc Ho He. apply rec_error_sound in He.
    split_and!; intros ->.
    + lia.
    + destruct He as [_ He]. rewrite Ho in He. done.
    + done.
Qed.

Lemma rec_infeasible_error_witness :
  (0 ≤ 0 →
   _rec 2 chain_unit 0 1 0 (table_of chain_unit 3) = Err (NegativeMemory 0)) ∧
  (0 < 1 → (table_of chain_unit 3).1 !! (1, 0%nat, 1%nat) = Some Inf →
   _rec 2 chain_unit 0 1 1 (table_of chain_unit 3) = Err (Infeasible 0 1 1)) ∧
  (_rec 2 chain_unit 0 1 3 (table_of chain_unit 3)
   = Ok [ForwardEnable 0; Loss; Backward 0]).
Proof.
  destruct (rec_infeasible_error 2 chain_unit (table_of chain_unit 3).1
              (table_of chain_unit 3).2 0 1 0 ltac:(lia)) as (H0 & _ & _).
  destruct (rec_infeasible_error 2 chain_unit (table_of chain_unit 3).1
              (table_of chain_unit 3).2 0 1 1 ltac:(lia)) as (_ & H1 & _).
  split_and!; [exact H0|exact H1|reflexivity].
Defined.

(** C7 as stated fails in its converse.  On [chain_empty_output2] the request
    [(0, 1, 2)] is feasible ([cmem = 2 > 0], [opt[2][0][1] = 3]), and [_rec]
    raises the negative-memory error, for the nested request of the range
    [(1, 1)] with [2 - xbar_size[1] = 0] units; that error names the memory
    and no range. *)
Lemma rec_feasible_request_raises :
  wf_chain chain_empty_output2 ∧
  _compute_table chain_empty_output2 2
    = Some (table_of chain_empty_output2 2) ∧
  0 < 2 ∧
  (table_of chain_empty_output2 2).1 !! (2, 0%nat, 1%nat) = Some (Fin 3) ∧
  _rec 2 chain_empty_output2 0 1 2 (table_of chain_empty_output2 2)
    = Err (NegativeMemory 0).
Proof.
  split; [solve_wf_chain|]. vm_compute. repeat split; congruence.
Qed.

(** C9, amended. For every positive float [mem_unit] (a finite float is
    below [2 ^ 1024]) and every list of raw byte values [0 <= v < 2 ^ 53],
    [_discretize] returns one value [d] per raw value [v], with
    [d = ceil(v / mem_unit)]: [d] is non-negative, [d * mem_unit >= v] (the
    raw value is not under-represented) and [(d - 1) * mem_unit < v].  From
    [2 ^ 53] on, the conversion of [v] to a float may round it down. *)
Theorem discretize_covers_value (mem_unit : Z) (values : list Z) :
  0 < mem_unit < 2 ^ 1024 →
  Forall (λ v, 0 ≤ v < 2 ^ 53) values →
  ∃ ds, _discretize (Some mem_unit) values = Ok ds ∧
        Forall2 (λ v d, 0 ≤ d ∧ v ≤ d * mem_unit ∧ (d - 1) * mem_unit < v)
                values ds.
Proof.
  intros Hu Hv. induction Hv as [|v values Hv0 _ (ds & IH & Hds)].
  - exists []. split; [done|constructor].
  - destruct (ceil_div_spec v mem_unit) as (d & Hd & Hge & Hlt); [lia..|].
    cbn [_discretize]. rewrite Hd. cbn [bind]. rewrite IH. cbn [bind].
    exists (d :: ds). split; [done|].
    constructor; [|done]. split_and!; [nia|done|done].
Qed.

Lemma discretize_covers_value_witness :
  ∃ ds, _discretize (Some 490) [0; 1; 490; 491; 4096] = Ok ds ∧
        Forall2 (λ v d, 0 ≤ d ∧ v ≤ d * 490 ∧ (d - 1) * 490 < v)
                [0; 1; 490; 491; 4096] ds.
Proof.
  apply (discretize_covers_value 490 [0; 1; 490; 491; 4096]).
  - split; [lia|reflexivity].
  - repeat constructor; (lia || reflexivity).
Defined.

(** The discretized values of the witness. *)
Example discretize_values :
  _discretize (Some 490) [0; 1; 490; 491; 4096] = Ok [0; 1; 1; 2; 9].
Proof. vm_compute. reflexivity. Qed.

(** C9 as stated fails: with [mem_unit = 1.0], the raw value [2 ^ 53 + 1]
    is converted to the float [2 ^ 53] and discretized to [2 ^ 53] units,
    which hold one byte less than the value. *)
Lemma discretize_under_reports :
  0 < 1 ∧ 0 ≤ 2 ^ 53 + 1 ∧
  _discretize (Some 1) [2 ^ 53 + 1] = Ok [2 ^ 53] ∧
  2 ^ 53 * 1 < 2 ^ 53 + 1.
Proof. split_and!; [lia|lia|vm_compute; reflexivity|lia]. Qed.

Lemma compute_table_no_slot (c : Chain) (mmax : Z) :
  mmax < 0 → _compute_table c mmax = Some (∅, ∅).
Proof.
  intros Hm. unfold _compute_table, init_table, zrange.
  replace (Z.to_nat (mmax + 1)) with 0%nat by lia. done.
Qed.

(** C8, amended. [solver_rotor] and [_construct_chain] test neither
    [mem_limit] nor [mem_slots], and no configuration error is raised.  For
    a budget and an input size below [2 ^ 53] in absolute value:
    - with [mem_slots = 0], the floor division that computes [mem_unit]
      raises [ZeroDivisionError], before a chain or a table is built;
    - when [mem_unit] comes out as [0.0], [_discretize] raises
      [ZeroDivisionError] on the first size, before a table is built;
    - with [mem_slots < 0], [solver_rotor] always ends in an error, and when
      the chain is built this error comes after the table: [_compute_table]
      returns the empty table, and [_rec] raises its negative-memory
      [ValueError] or fails on the read of the table;
    - when [mem_unit] comes out negative, nothing is rejected:
      [_construct_chain] returns a chain, all of whose sizes are at most 0,
      and [solver_rotor] goes on to [_compute_table] and [_rec] with it. *)
Theorem solver_rotor_no_validation (node_list : list Stage)
    (data_size mem_limit mem_slots : Z) (eps : Q) :
  Z.abs mem_limit < 2 ^ 53 → 0 ≤ data_size < 2 ^ 53 →
  (mem_slots = 0 →
   mem_unit_of mem_limit mem_slots eps = Err ZeroDivisionError ∧
   solver_rotor node_list data_size mem_limit mem_slots eps
   = Err ZeroDivisionError) ∧
  (mem_unit_of mem_limit mem_slots eps = Ok (Some 0) →
   _construct_chain node_list data_size (Some 0) = Err ZeroDivisionError ∧
   solver_rotor node_list data_size mem_limit mem_slots eps
   = Err ZeroDivisionError) ∧
  (mem_slots < 0 →
   ∃ e, solver_rotor node_list data_size mem_limit mem_slots eps = Err e ∧
        ∀ mem_unit chain,
          mem_unit_of mem_limit mem_slots eps = Ok mem_unit →
          _construct_chain node_list data_size mem_unit = Ok chain →
          _compute_table chain mem_slots = Some (∅, ∅) ∧
          (e = LookupError ∨ ∃ cmem, cmem ≤ 0 ∧ e = NegativeMemory cmem)) ∧
  (∀ mem_unit,
     mem_unit_of mem_limit mem_slots eps = Ok (Some mem_unit) →
     mem_unit < 0 →
     Forall stage_nonneg node_list → Forall stage_exact node_list →
     ∃ chain,
       _construct_chain node_list data_size (Some mem_unit) = Ok chain ∧
       Forall (λ x, x ≤ 0) (cweight chain) ∧
       Forall (λ x, x ≤ 0) (cbweight chain) ∧
       solver_rotor node_list data_size mem_limit mem_slots eps
       = (do opt_table <- read (_compute_table chain mem_slots);
          do x0 <- read (cweight chain !! 0%nat);
          do sequence <- _rec (S (chain_length chain)) chain 0
                              (chain_length chain) (mem_slots - x0) opt_table;
          Ok (chain, opt_table, sequence))).
Proof.
  intros Hl Hd. split_and!.
  - intros ->.
    assert (mem_unit_of mem_limit 0 eps = Err ZeroDivisionError) as Hu.
    { unfold mem_unit_of. by rewrite to_double_exact by done. }
    split; [done|]. unfold solver_rotor. by rewrite Hu.
  - intros Hu.
    assert (_construct_chain node_list data_size (Some 0)
            = Err ZeroDivisionError) as Hc.
    { unfold _construct_chain. by rewrite discretize_zero_unit by lia. }
    split; [done|]. unfold solver_rotor. rewrite Hu. cbn [bind]. by rewrite Hc.
  - intros Hs. unfold solver_rotor.
    destruct (mem_unit_of mem_limit mem_slots eps) as [mem_unit|e];
      cbn [bind]; [|exists e; split; [done|]; by intros ?? [=]].
    destruct (_construct_chain node_list data_size mem_unit) as [chain|e]
      eqn:Hc; cbn [bind];
      [|exists e; split; [done|]; intros ?? [= <-]; by rewrite Hc].
    rewrite compute_table_no_slot by done. cbn [bind read].
    assert (∀ e : exn,
              e = LookupError ∨ (∃ cmem, cmem ≤ 0 ∧ e = NegativeMemory cmem) →
              ∀ mem_unit0 chain0,
                Ok mem_unit = Ok mem_unit0 →
                _construct_chain node_list data_size mem_unit0 = Ok chain0 →
                _compute_table chain0 mem_slots = Some (∅, ∅) ∧
                (e = LookupError ∨
                 ∃ cmem, cmem ≤ 0 ∧ e = NegativeMemory cmem)) as Hend.
    { intros e He ? chain0 [= <-] _. split; [|done].
      by apply compute_table_no_slot. }
    destruct (cweight chain !! 0%nat) as [x0|]; cbn [bind read].
    + cbn [_rec]. case_decide as Hm; cbn [bind].
      * eexists. split; [done|]. apply Hend. right. eauto.
      * rewrite lookup_empty. cbn [bind read].
        eexists. split; [done|]. apply Hend. by left.
    + eexists. split; [done|]. apply Hend. by left.
  - intros mem_unit Hu Hneg Hn He.
    pose proof (mem_unit_finite _ _ _ _ Hu) as Hb.
    eexists. split; [apply construct_chain_Ok; [lia|done..]|].
    cbn [cweight cbweight].
    destruct (chain_values_exact node_list data_size Hd Hn He)
      as (H1 & H2 & _).
    split_and!.
    + apply Forall_fmap. eapply Forall_impl; [exact H2|].
      intros v [Hv _]. simpl. by apply ceil_nonpos.
    + apply Forall_fmap. eapply Forall_impl; [exact H1|].
      intros v [Hv _]. simpl. by apply ceil_nonpos.
    + unfold solver_rotor. rewrite Hu. cbn [bind].
      by rewrite construct_chain_Ok by (done || lia).
Qed.

Lemma solver_rotor_no_validation_witness :
  ∃ chain,
    _construct_chain [mkStage 5 3 4 4 0 false] 4 (Some (-490)) = Ok chain ∧
    Forall (λ x, x ≤ 0) (cweight chain) ∧
    Forall (λ x, x ≤ 0) (cbweight chain) ∧
    solver_rotor [mkStage 5 3 4 4 0 false] 4 (-1000) 2 (1 # 50)
    = (do opt_table <- read (_compute_table chain 2);
       do x0 <- read (cweight chain !! 0%nat);
       do sequence <- _rec (S (chain_length chain)) chain 0
                           (chain_length chain) (2 - x0) opt_table;
       Ok (chain, opt_table, sequence)).
Proof.
  destruct (solver_rotor_no_validation [mkStage 5 3 4 4 0 false] 4 (-1000) 2
              (1 # 50)) as (_ & _ & _ & H); [reflexivity|split; [lia|reflexivity]|].
  apply (H (-490)).
  - vm_compute. reflexivity.
  - lia.
  - repeat constructor; simpl; lia.
  - repeat constructor; simpl; reflexivity.
Defined.

(** C8 as stated fails: a negative budget is not rejected.  With
    [mem_limit = -1000], two slots and the default [eps = 0.02], [mem_unit]
    is [-490.0], every size of the chain is discretized to 0, the table is
    built and [solver_rotor] returns a sequence. *)
Lemma solver_rotor_negative_budget :
  mem_unit_of (-1000) 2 (1 # 50) = Ok (Some (-490)) ∧
  _construct_chain [mkStage 5 3 4 4 0 false] 4 (Some (-490))
    = Ok (mkChain [5] [3; 0] [0; 0] [0; 0] [0] [0; 0]) ∧
  ∃ opt_table,
    _compute_table (mkChain [5] [3; 0] [0; 0] [0; 0] [0] [0; 0]) 2
      = Some opt_table ∧
    solver_rotor [mkStage 5 3 4 4 0 false] 4 (-1000) 2 (1 # 50)
      = Ok (mkChain [5] [3; 0] [0; 0] [0; 0] [0] [0; 0], opt_table,
            [ForwardEnable 0; Loss; Backward 0]).
Proof.
  split; [vm_compute; reflexivity|]. split; [vm_compute; reflexivity|].
  eexists. split; vm_compute; reflexivity.
Qed.

Section var_mean_claim.
Import StrategiesConstructor.
Context (CONV_FUNC_OP LINEAR_FUNC_OP RESHAPE_FUNC_OP : list Target).
Context (ELEMENTWISE_FUNC_OP BCAST_FUNC_OP : list Target).
Context (var_mean_strategy :
           Z → ShardingSpec → ShardingSpec → sharding_output → outcome frame).
Context (other_branch :
           Node → option sharding_output → outcome (option sharding_output)).

(** C10, amended. Take a [call_function] node whose target is
    [torch.var_mean] (a target of none of the tables tested before), whose
    first predecessor carries at least one strategy, and which the loop over
    the nodes reaches.  Then [build_strategies_and_cost] raises: the branch
    never completes normally.  When the node has a keyword argument [dim] and
    the first strategy's output is a single [ShardingSpec], the exception is
    the [NameError] on [new_input_sharding_spec], unbound when the f-string
    reads it; without [dim] it is a [KeyError], and on a tuple of specs the
    assertion fails first. *)
Theorem var_mean_name_error (before after : list Node) (node : Node)
    (fr : frame) (strategy : ShardingStrategy)
    (strategies : list ShardingStrategy)
    (others : list (list ShardingStrategy)) :
  var_mean_reached CONV_FUNC_OP LINEAR_FUNC_OP RESHAPE_FUNC_OP
    ELEMENTWISE_FUNC_OP BCAST_FUNC_OP →
  op node = "call_function" →
  target node = torch_var_mean →
  predecessor_strategies node = (strategy :: strategies) :: others →
  for_loop
    (process_node CONV_FUNC_OP LINEAR_FUNC_OP RESHAPE_FUNC_OP
       ELEMENTWISE_FUNC_OP BCAST_FUNC_OP var_mean_strategy other_branch)
    before fresh_frame = Done fr →
  (∃ e,
     build_strategies_and_cost CONV_FUNC_OP LINEAR_FUNC_OP RESHAPE_FUNC_OP
       ELEMENTWISE_FUNC_OP BCAST_FUNC_OP var_mean_strategy other_branch
       (before ++ node :: after) = Raise e ∧
     e = match kwargs node !! "dim" with
         | None => KeyError "dim"
         | Some _ =>
             match output_sharding_spec strategy with
             | TupleSpec _ =>
                 AssertionError
                   "The input node should NOT be a tuple of tensor."
             | OneSpec _ => NameError "new_input_sharding_spec"
             end
         end) ∧
  (∀ dim spec,
     kwargs node !! "dim" = Some dim →
     output_sharding_spec strategy = OneSpec spec →
     build_strategies_and_cost CONV_FUNC_OP LINEAR_FUNC_OP RESHAPE_FUNC_OP
       ELEMENTWISE_FUNC_OP BCAST_FUNC_OP var_mean_strategy other_branch
       (before ++ node :: after)
     = Raise (NameError "new_input_sharding_spec")).
Proof.
  intros Hreach Hop Htarget Hpred Hbefore.
  assert (local_new_input_sharding_spec fr = None) as Hfr.
  { by eapply nodes_unbound; [|exact Hbefore]. }
  assert (build_strategies_and_cost CONV_FUNC_OP LINEAR_FUNC_OP RESHAPE_FUNC_OP
            ELEMENTWISE_FUNC_OP BCAST_FUNC_OP var_mean_strategy other_branch
            (before ++ node :: after)
          = var_mean_branch var_mean_strategy node fr) as Hbuild.
  { unfold build_strategies_and_cost. rewrite for_loop_app, Hbefore.
    cbn [for_loop]. rewrite process_var_mean by done.
    rewrite (var_mean_branch_raises _ _ _ _ _ _ Hfr Hpred).
    destruct (kwargs node !! "dim"); [|done].
    by destruct (output_sharding_spec strategy). }
  rewrite Hbuild, (var_mean_branch_raises _ _ _ _ _ _ Hfr Hpred). split.
  - destruct (kwargs node !! "dim"); [|eauto].
    destruct (output_sharding_spec strategy); eauto.
  - intros dim spec -> ->. done.
Qed.
End var_mean_claim.

Lemma var_mean_name_error_witness :
  StrategiesConstructor.build_strategies_and_cost [] [] [] [] []
    Examples.unreached Examples.placeholder_branch
    ([Examples.placeholder_node] ++ Examples.var_mean_node :: [])
  = StrategiesConstructor.Raise
      (StrategiesConstructor.NameError "new_input_sharding_spec").
Proof.
  eapply (var_mean_name_error [] [] [] [] []
            Examples.unreached Examples.placeholder_branch
            [Examples.placeholder_node] [] Examples.var_mean_node).
  - repeat split; apply not_elem_of_nil.
  - reflexivity.
  - reflexivity.
  - reflexivity.
  - reflexivity.
  - reflexivity.
  - reflexivity.
Defined.

(** C10 as stated fails for a node without the keyword argument [dim]: the
    node is a [call_function] node of target [torch.var_mean], its first
    predecessor carries a strategy, and the exception is the [KeyError] of
    [node.kwargs['dim']], raised before the f-string is evaluated. *)
Lemma var_mean_key_error :
  StrategiesConstructor.op Examples.var_mean_node_positional = "call_function" ∧
  StrategiesConstructor.target Examples.var_mean_node_positional
    = StrategiesConstructor.torch_var_mean ∧
  StrategiesConstructor.predecessor_strategies Examples.var_mean_node_positional
    = [[Examples.replica_strategy]] ∧
  StrategiesConstructor.build_strategies_and_cost [] [] [] [] []
    Examples.unreached Examples.placeholder_branch
    [Examples.placeholder_node; Examples.var_mean_node_positional]
  = StrategiesConstructor.Raise (StrategiesConstructor.KeyError "dim") ∧
  StrategiesConstructor.KeyError "dim"
    ≠ StrategiesConstructor.NameError "new_input_sharding_spec".
Proof. repeat split; try reflexivity. discriminate. Qed.

(** * Further properties of the solver *)

(** ** The shape of the sequences of [_rec] *)

(** What a call of [_rec] that returns has done. *)
Lemma rec_Ok_inv (fuel : nat) (c : Chain)
    (opt : gmap (Z * nat * nat) ext) (what : gmap (Z * nat * nat) decision)
    (lmin lmax : nat) (cmem : Z) (s : list Operation) :
  _rec (S fuel) c lmin lmax cmem (opt, what) = Ok s →
  0 < cmem ∧
  ∃ v, opt !! (cmem, lmin, lmax) = Some (Fin v) ∧
    ((lmin = lmax ∧
      s = if decide (lmin = chain_length c) then [Loss]
          else [ForwardEnable lmin; Backward lmin]) ∨
     (lmin ≠ lmax ∧ what !! (cmem, lmin, lmax) = Some ChainCkpt ∧
      ∃ xbar s', cbweight c !! (lmin + 1)%nat = Some xbar ∧
        _rec fuel c (lmin + 1) lmax (cmem - xbar) (opt, what) = Ok s' ∧
        s = [ForwardEnable lmin] ++ s' ++ [Backward lmin]) ∨
     (lmin ≠ lmax ∧
      ∃ j x s1 s2, what !! (cmem, lmin, lmax) = Some (LeafCkpt (S j)) ∧
        cweight c !! S j = Some x ∧
        _rec fuel c (S j) lmax (cmem - x) (opt, what) = Ok s1 ∧
        _rec fuel c lmin j cmem (opt, what) = Ok s2 ∧
        s = [ForwardCheck lmin] ++ (ForwardNograd <$> range (lmin + 1) (S j))
              ++ s1 ++ s2)).
Proof.
  cbn [_rec]. case_decide as Hc; [done|]. intros He. split; [lia|].
  destruct (opt !! (cmem, lmin, lmax)) as [[v|]|] eqn:Ho; cbn in He;
    [|done|done].
  exists v. split; [done|].
  case_decide as Hl.
  { left. split; [done|]. case_decide; by simplify_eq. }
  right.
  destruct (what !! (cmem, lmin, lmax)) as [[|j]|]; cbn in He; [| |done].
  - left. split_and!; [done..|].
    destruct (cbweight c !! (lmin + 1)%nat) as [xbar|]; cbn in He; [|done].
    destruct (_rec fuel c (lmin + 1) lmax (cmem - xbar) (opt, what))
      as [s'|] eqn:H1; cbn in He; [|done].
    simplify_eq. eauto.
  - right. split; [done|].
    destruct (cweight c !! j) as [x|] eqn:Hx; cbn in He; [|done].
    destruct (_rec fuel c j lmax (cmem - x) (opt, what))
      as [s1|] eqn:H1; cbn in He; [|done].
    destruct j as [|j]; cbn in He; [done|].
    destruct (_rec fuel c lmin j cmem (opt, what))
      as [s2|] eqn:H2; cbn in He; [|done].
    simplify_eq. exists j, x, s1, s2. done.
Qed.

Section sequence_shape.
Context (c : Chain) (mmax : Z).
Context (opt : gmap (Z * nat * nat) ext) (what : gmap (Z * nat * nat) decision).
Hypothesis Hwf : wf_chain c.
Hypothesis Htable : _compute_table c mmax = Some (opt, what).

(** The boundary of a leaf decision lies within the range. *)
Lemma what_leaf_bounds (m : Z) (i idx j : nat) :
  what !! (m, i, idx) = Some (LeafCkpt j) → (i < j ≤ idx)%nat.
Proof.
  intros Hw.
  destruct (what_dom c mmax opt what Hwf Htable m i idx) as [Hm Hi]; [eauto|].
  destruct (table_cell_cases c mmax opt what Hwf Htable m i idx Hm Hi)
    as [(_ & _ & Hn)|(_ & leaf & chain & Hl & _ & _ & Hw')].
  { rewrite Hn in Hw. done. }
  rewrite Hw' in Hw.
  destruct (choose_cases (best_of leaf) chain)
    as [(k & v & Hb & _ & Hch)|[_ Hch]]; rewrite Hch in Hw; simpl in Hw;
    simplify_eq.
  apply best_of_Some in Hb as [Hin _].
  apply (leaf_checkpoints_elem _ _ _ _ _ _ _ _ Hl) in Hin as (? & _). lia.
Qed.

Lemma backward_indices_app (s1 s2 : list Operation) :
  backward_indices (s1 ++ s2) = backward_indices s1 ++ backward_indices s2.
Proof. apply omap_app. Qed.

Lemma backward_indices_nograd (l : list nat) :
  backward_indices (ForwardNograd <$> l) = [].
Proof. induction l as [|x l IH]; [done|]. simpl. exact IH. Qed.

Lemma range_snoc (a b : nat) : (a ≤ b)%nat → range a (S b) = range a b ++ [b].
Proof.
  intros Hab. unfold range. replace (S b - a)%nat with (S (b - a)) by lia.
  rewrite seq_S. f_equal. f_equal. lia.
Qed.

Lemma range_split (a b d : nat) :
  (a ≤ b ≤ d)%nat → range a d = range a b ++ range b d.
Proof.
  intros H. unfold range. replace (d - a)%nat with ((b - a) + (d - b))%nat by lia.
  rewrite seq_app. do 2 f_equal. lia.
Qed.

Lemma rec_backward_order (fuel : nat) :
  ∀ (lmin lmax : nat) (cmem : Z) (s : list Operation),
    _rec fuel c lmin lmax cmem (opt, what) = Ok s →
    (lmin ≤ lmax ≤ chain_length c)%nat ∧
    backward_indices s = reverse (range lmin (stages_end c lmax)).
Proof.
  induction fuel as [|fuel IH]; intros lmin lmax cmem s Hs; [done|].
  apply rec_Ok_inv in Hs as (Hc & v & Ho & Hcases).
  destruct (table_dom c mmax opt what Hwf Htable cmem lmin lmax) as [_ Hi];
    [eauto|].
  split; [done|]. unfold stages_end.
  destruct Hcases as [[-> ->]|[(Hne & Hw & xbar & s' & _ & Hs' & ->)|
                                (Hne & j & x & s1 & s2 & Hw & _ & H1 & H2 & ->)]].
  - case_decide.
    + by rewrite range_empty by lia.
    + rewrite range_cons, range_empty by lia. done.
  - apply IH in Hs' as [_ Hs']. unfold stages_end in Hs'.
    rewrite !backward_indices_app, Hs'. simpl.
    rewrite (range_cons lmin) by (case_decide; lia).
    rewrite reverse_cons. do 3 f_equal. lia.
  - apply what_leaf_bounds in Hw.
    apply IH in H1 as [_ H1]. apply IH in H2 as [_ H2].
    unfold stages_end in H1, H2.
    rewrite (decide_False (P := j = chain_length c)) in H2 by lia.
    rewrite !backward_indices_app, backward_indices_nograd, H1, H2. simpl.
    rewrite <- reverse_app. f_equal. symmetry. apply range_split.
    case_decide; lia.
Qed.
End sequence_shape.

Section loss_position.
Context (c : Chain) (mmax : Z).
Context (opt : gmap (Z * nat * nat) ext) (what : gmap (Z * nat * nat) decision).
Hypothesis Hwf : wf_chain c.
Hypothesis Htable : _compute_table c mmax = Some (opt, what).

Lemma rec_loss_position (fuel : nat) :
  ∀ (lmin lmax : nat) (cmem : Z) (s : list Operation),
    _rec fuel c lmin lmax cmem (opt, what) = Ok s →
    if decide (lmax = chain_length c)
    then ∃ fwd bwd, s = fwd ++ Loss :: bwd ∧
           forward_index <$> fwd = Some <$> range lmin lmax ∧ Loss ∉ bwd
    else Loss ∉ s.
Proof.
  induction fuel as [|fuel IH]; intros lmin lmax cmem s Hs; [done|].
  apply rec_Ok_inv in Hs as (Hc & v & Ho & Hcases).
  destruct (table_dom c mmax opt what Hwf Htable cmem lmin lmax) as [_ Hi];
    [eauto|].
  destruct Hcases as [[-> ->]|[(Hne & Hw & xbar & s' & _ & Hs' & ->)|
                                (Hne & j & x & s1 & s2 & Hw & _ & H1 & H2 & ->)]].
  - case_decide.
    + exists [], []. rewrite range_empty by lia.
      split_and!; [done|done|apply not_elem_of_nil].
    + intros Hin. repeat (apply elem_of_cons in Hin as [?|Hin]; [done|]).
      by apply elem_of_nil in Hin.
  - apply IH in Hs'. case_decide.
    + destruct Hs' as (fwd & bwd & -> & Hf & Hb).
      exists (ForwardEnable lmin :: fwd), (bwd ++ [Backward lmin]).
      split_and!.
      * simpl. by rewrite <- app_assoc.
      * rewrite (range_cons lmin) by lia. rewrite !fmap_cons, Hf.
        cbn [forward_index]. do 3 f_equal. lia.
      * intros [?|[?|[]%elem_of_nil]%elem_of_cons]%elem_of_app; done.
    + intros [?|[?|[?|[]%elem_of_nil]%elem_of_cons]%elem_of_app]%elem_of_cons;
        done.
  - apply what_leaf_bounds with (c := c) (mmax := mmax) (opt := opt) in Hw;
      [|done..].
    apply IH in H1. apply IH in H2.
    rewrite (decide_False (P := j = chain_length c)) in H2 by lia.
    assert (Loss ∉ ForwardNograd <$> range (lmin + 1) (S j)) as Hn.
    { intros (k & ? & _)%list_elem_of_fmap. done. }
    case_decide.
    + destruct H1 as (fwd & bwd & -> & Hf & Hb).
      exists ([ForwardCheck lmin] ++ (ForwardNograd <$> range (lmin + 1) (S j))
                ++ fwd), (bwd ++ s2).
      split_and!.
      * rewrite <- !app_assoc. simpl. by rewrite <- ?app_assoc.
      * rewrite (range_split lmin (S j) lmax) by lia.
        rewrite (range_cons lmin (S j)) by lia.
        rewrite !fmap_app, !fmap_cons, Hf. cbn [forward_index fmap list_fmap app].
        do 2 f_equal. rewrite <- list_fmap_compose.
        replace (lmin + 1)%nat with (S lmin) by lia. done.
      * intros [?|?]%elem_of_app; done.
    + intros [?|[?|[?|?]%elem_of_app]%elem_of_app]%elem_of_cons; done.
Qed.
End loss_position.

(** ** Bounds on the table *)

Lemma sum_nonneg (l : list Z) : Forall (λ x, 0 ≤ x) l → 0 ≤ sum l.
Proof. unfold sum. induction 1; simpl; lia. Qed.

Lemma run_time_one (c : Chain) (i : nat) :
  run_time c i i = item (fw c) i + item (bw c) i.
Proof.
  unfold run_time. rewrite range_cons, range_empty by lia. simpl. lia.
Qed.

Lemma run_time_split (c : Chain) (i k j : nat) :
  (i < k ≤ j)%nat →
  run_time c i j = run_time c i (k - 1) + run_time c k j.
Proof.
  intros H. unfold run_time.
  rewrite (range_split i k (S j)) by lia.
  rewrite fmap_app, sum_app. by replace (S (k - 1)) with k by lia.
Qed.

Lemma fw_slice_nonneg (c : Chain) (i j : nat) :
  Forall (λ x, 0 ≤ x) (fweight c) → 0 ≤ sum (slice (fw c) i j).
Proof.
  intros Hf. apply sum_nonneg. unfold slice.
  apply Forall_take, Forall_drop. unfold fw.
  apply Forall_app. split; [done|]. by apply Forall_singleton.
Qed.

Section table_bounds.
Context (c : Chain) (mmax : Z).
Context (opt : gmap (Z * nat * nat) ext) (what : gmap (Z * nat * nat) decision).
Hypothesis Hwf : wf_chain c.
Hypothesis Htable : _compute_table c mmax = Some (opt, what).
Hypothesis Hfw : Forall (λ x, 0 ≤ x) (fweight c).

(** A finite cell costs at least one pass over its stages. *)
Lemma opt_lower_bound_width (n : nat) :
  ∀ (i j : nat) (m v : Z),
    (j - i < n)%nat → opt !! (m, i, j) = Some (Fin v) → run_time c i j ≤ v.
Proof.
  induction n as [|n IH]; intros i j m v Hn Hv; [lia|].
  destruct (table_dom c mmax opt what Hwf Htable m i j) as [Hm Hi]; [eauto|].
  destruct (decide (i = j)) as [->|Hne].
  { apply (base_finite c mmax opt what Hwf Htable) in Hv as [_ ->].
    rewrite run_time_one. lia. }
  destruct (table_cell_cases c mmax opt what Hwf Htable m i j)
    as [(_ & Ho & _)|(_ & leaf & chain & Hl & Hc & Ho & _)]; [done|lia| |].
  { rewrite Ho in Hv. done. }
  rewrite Ho in Hv.
  destruct (choose_cases (best_of leaf) chain)
    as [(k & u & Hb & _ & Hch)|[_ Hch]]; rewrite Hch in Hv; simpl in Hv;
    simplify_eq.
  - apply best_of_Some in Hb as [Hin _].
    apply (leaf_checkpoints_elem _ _ _ _ _ _ _ _ Hl) in Hin
      as (Hk & _ & (a & b & Ha & Hb & Hsum)%leaf_total_Some).
    symmetry in Hsum.
    apply ExtFacts.add_fin in Hsum as (ab & vb & Hab & -> & ->).
    apply ExtFacts.add_fin in Hab as (s0 & va & [= <-] & -> & ->).
    apply IH in Ha; [|lia]. apply IH in Hb; [|lia].
    rewrite (run_time_split c i k j) by lia.
    pose proof (fw_slice_nonneg c i k Hfw). lia.
  - apply chain_checkpoint_Some in Hc
      as [(_ & a & b & Ha & Hb & Hv)|[_ Hv]]; [|done].
    symmetry in Hv. apply ExtFacts.add_fin in Hv as (va & vb & -> & -> & ->).
    apply (base_finite c mmax opt what Hwf Htable) in Ha as [_ ->].
    apply IH in Hb; [|lia].
    rewrite (run_time_split c i (i + 1) j) by lia.
    replace (i + 1 - 1)%nat with i by lia. rewrite run_time_one. lia.
Qed.

(** Where every stage can keep its [xbar], nothing is recomputed. *)
Lemma stores_all_opt (n : nat) :
  ∀ (i : nat) (m : Z),
    0 ≤ m ≤ mmax → (i + n ≤ chain_length c)%nat →
    stores_all c n i m = true →
    opt !! (m, i, (i + n)%nat) = Some (Fin (run_time c i (i + n))).
Proof.
  induction n as [|n IH]; intros i m Hm Hi Hs; cbn [stores_all] in Hs.
  - rewrite Nat.add_0_r.
    apply andb_prop in Hs as [Hl%bool_decide_eq_true _].
    rewrite (table_base c mmax opt what Hwf Htable) by (done || lia).
    unfold base_value. rewrite decide_True by done. by rewrite run_time_one.
  - apply andb_prop in Hs as [Hl%bool_decide_eq_true Hs].
    apply andb_prop in Hs as [Hs Hrec].
    apply andb_prop in Hs as [Hmin%bool_decide_eq_true Hx%bool_decide_eq_true].
    pose proof (item_app0_nonneg (cbweight c) (i + 1)
                  (wf_cbweight_nonneg c Hwf)) as Hx0. fold (cbw c) in Hx0.
    apply IH in Hrec; [|lia|lia].
    replace (i + 1 + n)%nat with (i + S n)%nat in Hrec by lia.
    destruct (table_cell_cases c mmax opt what Hwf Htable m i (i + S n))
      as [(? & _)|(_ & leaf & chain & Hl' & Hc & Ho & _)]; [done|lia|lia|].
    apply chain_checkpoint_Some in Hc
      as [(_ & a & b & Ha & Hb & ->)|[? _]]; [|lia].
    rewrite (table_base c mmax opt what Hwf Htable) in Ha by (done || lia).
    unfold base_value in Ha. rewrite decide_True in Ha by done.
    rewrite Hrec in Hb. simplify_eq.
    pose proof (choose_le_chain (best_of leaf)
                  (Fin (item (fw c) i + item (bw c) i)
                   ⊕ Fin (run_time c (i + 1) (i + S n)))) as Hle.
    destruct ((choose (best_of leaf)
                 (Fin (item (fw c) i + item (bw c) i)
                  ⊕ Fin (run_time c (i + 1) (i + S n)))).1) as [v|] eqn:Hv;
      [|done].
    rewrite Ho. do 2 f_equal.
    pose proof (opt_lower_bound_width (S (S n)) i (i + S n) m v
                  ltac:(lia) Ho) as Hlow.
    unfold Ext.le in Hle. simpl in Hle. apply Z.leb_le in Hle.
    rewrite (run_time_split c i (i + 1) (i + S n)) in Hlow |- * by lia.
    replace (i + 1 - 1)%nat with i in Hlow |- * by lia.
    rewrite run_time_one in Hlow |- *. lia.
Qed.
End table_bounds.


(** * Further properties, stated *)



(** X2. In a cell [(m, i, j)] with [i < j] and [m] at or above the floor,
    the value of [opt] is the minimum of the chain total and the leaf
    totals: it is at most each of them and equal to one of them; the chain
    decision is recorded exactly when the chain total is strictly below
    every leaf total. *)
Theorem opt_is_minimum (c : Chain) (mmax : Z)
    (opt : gmap (Z * nat * nat) ext) (what : gmap (Z * nat * nat) decision)
    (m : Z) (i j : nat) :
  wf_chain c →
  _compute_table c mmax = Some (opt, what) →
  0 ≤ m ≤ mmax → (i < j ≤ chain_length c)%nat → mmin c i j ≤ m →
  ∃ leaf chain v,
    leaf_checkpoints c opt m i j = Some leaf ∧
    chain_checkpoint c opt m i j = Some chain ∧
    opt !! (m, i, j) = Some v ∧
    Ext.le v chain ∧
    (∀ k u, (k, u) ∈ leaf → Ext.le v u) ∧
    (v = chain ∨ ∃ k, (k, v) ∈ leaf) ∧
    (what !! (m, i, j) = Some ChainCkpt ↔
     ∀ k u, (k, u) ∈ leaf → Ext.ltb chain u = true).
Proof.
  intros Hwf Ht Hm Hi Hmin.
  destruct (table_cell_cases c mmax opt what Hwf Ht m i j Hm Hi)
    as [(? & _)|(_ & leaf & chain & Hl & Hc & Ho & Hw)]; [lia|].
  exists leaf, chain, (choose (best_of leaf) chain).1.
  split_and!; [done|done|done|apply choose_le_chain| | |].
  - intros k u. apply choose_le_leaf.
  - destruct (choose_cases (best_of leaf) chain)
      as [(k & v & Hb & _ & ->)|[_ ->]]; [right|by left].
    exists k. by apply best_of_Some in Hb as [? _].
  - rewrite Hw.
    destruct (choose_cases (best_of leaf) chain)
      as [(k & v & Hb & Hle & ->)|[Hb ->]]; simpl.
    + split; [done|]. intros Hall.
      apply best_of_Some in Hb as [Hin _]. apply Hall in Hin.
      unfold Ext.le in Hle. rewrite ExtFacts.leb_ltb, Hin in Hle. done.
    + split; [|done]. intros _ k u Hin.
      destruct Hb as [Hb|(k' & v & Hb & Hgt)].
      * apply best_of_None in Hb as ->. by apply elem_of_nil in Hin.
      * apply best_of_Some in Hb as [_ Hmin']. specialize (Hmin' k u Hin).
        destruct (Ext.ltb chain u) eqn:Hlt; [done|].
        apply ExtFacts.ltb_false_le in Hlt.
        pose proof (ExtFacts.le_trans _ _ _ Hmin' Hlt) as Hvc.
        unfold Ext.le in Hvc. congruence.
Qed.

Lemma opt_is_minimum_witness :
  ∃ leaf chain v,
    leaf_checkpoints chain_tie (table_of chain_tie 5).1 5 0 3 = Some leaf ∧
    chain_checkpoint chain_tie (table_of chain_tie 5).1 5 0 3 = Some chain ∧
    (table_of chain_tie 5).1 !! (5, 0%nat, 3%nat) = Some v ∧
    Ext.le v chain ∧
    (∀ k u, (k, u) ∈ leaf → Ext.le v u) ∧
    (v = chain ∨ ∃ k, (k, v) ∈ leaf) ∧
    ((table_of chain_tie 5).2 !! (5, 0%nat, 3%nat) = Some ChainCkpt ↔
     ∀ k u, (k, u) ∈ leaf → Ext.ltb chain u = true).
Proof.
  apply (opt_is_minimum chain_tie 5 _ (table_of chain_tie 5).2).
  - solve_wf_chain.
  - vm_compute. reflexivity.
  - lia.
  - unfold chain_length. simpl. lia.
  - vm_compute. discriminate.
Defined.

(** X3. When the forward times are non-negative, a finite [opt[m][i][j]] is
    at least the time of one forward and one backward pass over the stages
    [i..j]: recomputation only adds time. *)
Theorem opt_lower_bound (c : Chain) (mmax : Z)
    (opt : gmap (Z * nat * nat) ext) (what : gmap (Z * nat * nat) decision)
    (m v : Z) (i j : nat) :
  wf_chain c →
  Forall (λ x, 0 ≤ x) (fweight c) →
  _compute_table c mmax = Some (opt, what) →
  opt !! (m, i, j) = Some (Fin v) →
  run_time c i j ≤ v.
Proof.
  intros Hwf Hfw Ht Hv.
  apply (opt_lower_bound_width c mmax opt what Hwf Ht Hfw (S (j - i)) i j m v);
    [lia|exact Hv].
Qed.

Lemma opt_lower_bound_witness : run_time chain_tie 0 3 ≤ 13.
Proof.
  apply (opt_lower_bound chain_tie 5 (table_of chain_tie 5).1
           (table_of chain_tie 5).2 5 13 0 3).
  - solve_wf_chain.
  - repeat constructor; lia.
  - vm_compute. reflexivity.
  - vm_compute. reflexivity.
Defined.

(** X4. When the forward times are non-negative and, with [m] units, every
    stage of the range [(i, i + n)] can keep its [xbar] (the chain option is
    open all along), [opt[m][i][i + n]] is exactly the time of one forward
    and one backward pass: nothing is recomputed. *)
Theorem stores_all_no_recomputation (c : Chain) (mmax : Z)
    (opt : gmap (Z * nat * nat) ext) (what : gmap (Z * nat * nat) decision)
    (m : Z) (i n : nat) :
  wf_chain c →
  Forall (λ x, 0 ≤ x) (fweight c) →
  _compute_table c mmax = Some (opt, what) →
  0 ≤ m ≤ mmax → (i + n ≤ chain_length c)%nat →
  stores_all c n i m = true →
  opt !! (m, i, (i + n)%nat) = Some (Fin (run_time c i (i + n))).
Proof.
  intros Hwf Hfw Ht Hm Hi Hs.
  exact (stores_all_opt c mmax opt what Hwf Ht Hfw n i m Hm Hi Hs).
Qed.

Lemma stores_all_no_recomputation_witness :
  (table_of chain_tie 8).1 !! (8, 0%nat, (0 + 3)%nat)
  = Some (Fin (run_time chain_tie 0 (0 + 3))).
Proof.
  apply (stores_all_no_recomputation chain_tie 8 _ (table_of chain_tie 8).2).
  - solve_wf_chain.
  - repeat constructor; lia.
  - vm_compute. reflexivity.
  - lia.
  - unfold chain_length. simpl. lia.
  - vm_compute. reflexivity.
Defined.


Lemma enable_indices_app (s1 s2 : list Operation) :
  enable_indices (s1 ++ s2) = enable_indices s1 ++ enable_indices s2.
Proof. apply omap_app. Qed.

Lemma enable_indices_nograd (l : list nat) :
  enable_indices (ForwardNograd <$> l) = [].
Proof. induction l as [|x l IH]; [done|]. simpl. exact IH. Qed.

Lemma rec_enable_once (c : Chain) (mmax : Z)
    (opt : gmap (Z * nat * nat) ext) (what : gmap (Z * nat * nat) decision)
    (Hwf : wf_chain c) (Htable : _compute_table c mmax = Some (opt, what))
    (fuel : nat) :
  ∀ (lmin lmax : nat) (cmem : Z) (s : list Operation),
    _rec fuel c lmin lmax cmem (opt, what) = Ok s →
    enable_indices s ≡ₚ range lmin (stages_end c lmax).
Proof.
  induction fuel as [|fuel IH]; intros lmin lmax cmem s Hs; [done|].
  apply rec_Ok_inv in Hs as (Hc & v & Ho & Hcases).
  destruct (table_dom c mmax opt what Hwf Htable cmem lmin lmax) as [_ Hi];
    [eauto|].
  unfold stages_end.
  destruct Hcases as [[-> ->]|[(Hne & Hw & xbar & s' & _ & Hs' & ->)|
                                (Hne & j & x & s1 & s2 & Hw & _ & H1 & H2 & ->)]].
  - case_decide.
    + by rewrite range_empty by lia.
    + rewrite range_cons, range_empty by lia. done.
  - apply IH in Hs'. unfold stages_end in Hs'.
    rewrite !enable_indices_app, Hs'. simpl.
    rewrite (range_cons lmin) by (case_decide; lia).
    rewrite app_nil_r. rewrite Nat.add_1_r. done.
  - apply (what_leaf_bounds c mmax opt what Hwf Htable) in Hw.
    apply IH in H1. apply IH in H2.
    unfold stages_end in H1, H2.
    rewrite (decide_False (P := j = chain_length c)) in H2 by lia.
    rewrite !enable_indices_app, enable_indices_nograd, H1, H2. simpl.
    case_decide.
    + rewrite (range_split lmin (S j) lmax) by lia.
      apply Permutation_app_comm.
    + rewrite (range_split lmin (S j) (S lmax)) by lia.
      apply Permutation_app_comm.
Qed.

(** X5. A sequence returned by [_rec] for the range [(lmin, lmax)] runs
    every stage of the range backward exactly once, from the last stage
    down to [lmin], and enables every stage of the range exactly once (the
    loss has no forward and no backward operation of its own). *)
Theorem rec_each_stage_once (c : Chain) (mmax : Z)
    (opt : gmap (Z * nat * nat) ext) (what : gmap (Z * nat * nat) decision)
    (fuel lmin lmax : nat) (cmem : Z) (s : list Operation) :
  wf_chain c →
  _compute_table c mmax = Some (opt, what) →
  _rec fuel c lmin lmax cmem (opt, what) = Ok s →
  backward_indices s = reverse (range lmin (stages_end c lmax)) ∧
  enable_indices s ≡ₚ range lmin (stages_end c lmax).
Proof.
  intros Hwf Ht Hs. split.
  - by destruct (rec_backward_order c mmax opt what Hwf Ht fuel lmin lmax cmem s).
  - by eapply rec_enable_once.
Qed.

Lemma rec_each_stage_once_witness :
  let s := [ForwardCheck 0; ForwardEnable 1; ForwardEnable 2; Loss;
            Backward 2; Backward 1; ForwardEnable 0; Backward 0] in
  backward_indices s = reverse (range 0 (stages_end chain_tie 3)) ∧
  enable_indices s ≡ₚ range 0 (stages_end chain_tie 3).
Proof.
  apply (rec_each_stage_once chain_tie 5 (table_of chain_tie 5).1
           (table_of chain_tie 5).2 4 0 3 5).
  - solve_wf_chain.
  - vm_compute. reflexivity.
  - vm_compute. reflexivity.
Defined.

(** X6. In a sequence returned by [_rec] for a range that ends at the loss
    ([lmax] is the length of the chain), [Loss] occurs exactly once and the
    operations before it are forward operations on the stages
    [lmin, ..., lmax - 1] in this order, one each: the position of a forward
    operation before the loss is its stage index minus [lmin]. *)
Theorem rec_forward_sweep (c : Chain) (mmax : Z)
    (opt : gmap (Z * nat * nat) ext) (what : gmap (Z * nat * nat) decision)
    (fuel lmin : nat) (cmem : Z) (s : list Operation) :
  wf_chain c →
  _compute_table c mmax = Some (opt, what) →
  _rec fuel c lmin (chain_length c) cmem (opt, what) = Ok s →
  ∃ fwd bwd, s = fwd ++ Loss :: bwd ∧
             forward_index <$> fwd = Some <$> range lmin (chain_length c) ∧
             ¬ (Loss ∈ fwd) ∧ ¬ (Loss ∈ bwd).
Proof.
  intros Hwf Ht Hs.
  pose proof (rec_loss_position c mmax opt what Hwf Ht fuel lmin
                (chain_length c) cmem s Hs) as H.
  rewrite decide_True in H by done.
  destruct H as (fwd & bwd & -> & Hf & Hb).
  exists fwd, bwd. split_and!; [done..| |done].
  intros Hin. apply (list_elem_of_fmap_2 forward_index) in Hin.
  rewrite Hf in Hin. apply list_elem_of_fmap in Hin as (? & ? & _). done.
Qed.

Lemma rec_forward_sweep_witness :
  ∃ fwd bwd,
    [ForwardCheck 0; ForwardEnable 1; ForwardEnable 2; Loss;
     Backward 2; Backward 1; ForwardEnable 0; Backward 0]
    = fwd ++ Loss :: bwd ∧
    forward_index <$> fwd = Some <$> range 0 (chain_length chain_tie) ∧
    ¬ (Loss ∈ fwd) ∧ ¬ (Loss ∈ bwd).
Proof.
  apply (rec_forward_sweep chain_tie 5 (table_of chain_tie 5).1
           (table_of chain_tie 5).2 4 0 5).
  - solve_wf_chain.
  - vm_compute. reflexivity.
  - vm_compute. reflexivity.
Defined.


Lemma Ok_inj {A : Type} (a b : A) : Ok a = Ok b → a = b.
Proof. congruence. Qed.

(** X7. With a positive finite memory unit, an input size and stage
    measurements that are non-negative and below [2 ^ 53],
    [_construct_chain] returns a chain that has one stage per entry of
    [node_list], lists of the lengths the table solver reads, non-negative
    discretized sizes, a terminal backward time and a terminal backward
    temporary of 0, and forward temporaries that are all 0. *)
Theorem construct_chain_well_formed (node_list : list Stage)
    (data_size mem_unit : Z) :
  0 < mem_unit < 2 ^ 1024 → 0 ≤ data_size < 2 ^ 53 →
  Forall stage_nonneg node_list → Forall stage_exact node_list →
  ∃ chain,
    _construct_chain node_list data_size (Some mem_unit) = Ok chain ∧
    wf_chain chain ∧
    chain_length chain = List.length node_list ∧
    item (bweight chain) (chain_length chain) = 0 ∧
    item (bwd_tmp chain) (chain_length chain) = 0 ∧
    Forall (λ x, x = 0) (fwd_tmp chain).
Proof.
  intros Hu Hd Hn He.
  destruct (_construct_chain node_list data_size (Some mem_unit))
    as [chain|e] eqn:Hc.
  - exists chain. split; [done|]. eapply built_chain_wf; [|done..]. lia.
  - rewrite construct_chain_Ok in Hc by (done || lia). done.
Qed.

Lemma construct_chain_well_formed_witness :
  ∃ chain,
    _construct_chain [mkStage 5 3 100 250 40 false; mkStage 1 1 100 100 0 true]
                     64 (Some 98) = Ok chain ∧
    wf_chain chain ∧
    chain_length chain = 2%nat ∧
    item (bweight chain) (chain_length chain) = 0 ∧
    item (bwd_tmp chain) (chain_length chain) = 0 ∧
    Forall (λ x, x = 0) (fwd_tmp chain).
Proof.
  apply (construct_chain_well_formed
           [mkStage 5 3 100 250 40 false; mkStage 1 1 100 100 0 true] 64 98).
  - split; [lia|reflexivity].
  - split; [lia|reflexivity].
  - repeat constructor; simpl; lia.
  - repeat constructor; simpl; reflexivity.
Defined.




(** * [remove_duplicated_strategy] *)

Section remove_duplicated_facts.
Context {A : Type} `{EqDecision A} (strategy_name : A → string).

#[local] Abbreviation keep := (first_of_each_name strategy_name).
#[local] Abbreviation drop := (repeated_names strategy_name).

Lemma list_remove_elem (x : A) (l : list A) :
  x ∈ l → ∃ l', list_remove x l = Some l' ∧ l ≡ₚ x :: l' ∧ sublist l' l.
Proof.
  induction l as [|y l IH]; intros Hin.
  { by apply elem_of_nil in Hin. }
  cbn [list_remove]. case_decide as Hy.
  - subst y. exists l. split_and!; [done|done|]. by apply sublist_cons.
  - apply elem_of_cons in Hin as [->|Hin]; [done|].
    destruct (IH Hin) as (l' & -> & Hp & Hs).
    exists (y :: l'). split_and!; [done| |by apply sublist_skip].
    rewrite Hp. apply Permutation_swap.
Qed.

Lemma check_names_spec (l : list A) :
  ∀ seen rem,
    check_names strategy_name (seen, rem) l
    = (seen ++ (strategy_name <$> keep seen l), rem ++ drop seen l).
Proof.
  unfold check_names.
  induction l as [|x l IH]; intros seen rem; cbn [foldl first_of_each_name
    repeated_names].
  { by rewrite fmap_nil, !app_nil_r. }
  case_decide; rewrite IH.
  - by rewrite <- app_assoc.
  - by rewrite fmap_cons, <- app_assoc.
Qed.

Lemma keep_drop_perm (l : list A) : ∀ seen, l ≡ₚ keep seen l ++ drop seen l.
Proof.
  induction l as [|x l IH]; intros seen; cbn [first_of_each_name repeated_names];
    [done|].
  case_decide.
  - rewrite <- Permutation_middle. by rewrite <- IH.
  - cbn [app]. by rewrite <- IH.
Qed.

Lemma keep_sublist (l : list A) : ∀ seen, sublist (keep seen l) l.
Proof.
  induction l as [|x l IH]; intros seen; cbn [first_of_each_name]; [done|].
  case_decide; [by apply sublist_cons|by apply sublist_skip].
Qed.

Lemma keep_fresh (l : list A) :
  ∀ seen x, x ∈ keep seen l → ¬ (strategy_name x ∈ seen).
Proof.
  induction l as [|x0 l IH]; intros seen x Hin; cbn [first_of_each_name] in Hin.
  { by apply elem_of_nil in Hin. }
  case_decide as Hs; [by eapply IH|].
  apply elem_of_cons in Hin as [->|Hin]; [done|].
  apply IH in Hin. intros Hx. apply Hin. apply elem_of_app. by left.
Qed.

Lemma keep_NoDup (l : list A) : ∀ seen, NoDup (strategy_name <$> keep seen l).
Proof.
  induction l as [|x0 l IH]; intros seen; cbn [first_of_each_name].
  { constructor. }
  case_decide as Hs; [apply IH|].
  rewrite fmap_cons. constructor; [|apply IH].
  intros Hin. apply list_elem_of_fmap in Hin as (y & Hy & Hin).
  apply keep_fresh in Hin. apply Hin. apply elem_of_app. right.
  rewrite Hy. apply list_elem_of_singleton. done.
Qed.

Lemma keep_names (l : list A) :
  ∀ seen y, y ∈ l →
    strategy_name y ∈ seen ∨ strategy_name y ∈ strategy_name <$> keep seen l.
Proof.
  induction l as [|x0 l IH]; intros seen y Hin.
  { by apply elem_of_nil in Hin. }
  cbn [first_of_each_name].
  apply elem_of_cons in Hin as [->|Hin].
  - case_decide; [by left|]. right. rewrite fmap_cons. apply elem_of_cons.
    by left.
  - case_decide; [by apply IH|].
    destruct (IH (seen ++ [strategy_name x0]) y Hin) as [Hs|Hk].
    + apply elem_of_app in Hs as [Hs|Hs]; [by left|].
      apply list_elem_of_singleton in Hs. right. rewrite fmap_cons, Hs.
      apply elem_of_cons. by left.
    + right. rewrite fmap_cons. apply elem_of_cons. by right.
Qed.

Lemma keep_first_position (l : list A) :
  ∀ seen x, x ∈ keep seen l →
    ∃ i, l !! i = Some x ∧
         ∀ j y, (j < i)%nat → l !! j = Some y →
                strategy_name y ≠ strategy_name x.
Proof.
  induction l as [|x0 l IH]; intros seen x Hin; cbn [first_of_each_name] in Hin.
  { by apply elem_of_nil in Hin. }
  case_decide as Hs.
  - pose proof (keep_fresh _ _ _ Hin) as Hx.
    destruct (IH _ _ Hin) as (i & Hi & Hfirst).
    exists (S i). split; [done|]. intros [|j] y Hj Hy.
    + cbn in Hy. simplify_eq. congruence.
    + cbn in Hy. apply (Hfirst j); [lia|done].
  - apply elem_of_cons in Hin as [->|Hin].
    + exists 0%nat. split; [done|]. intros j y Hj. lia.
    + pose proof (keep_fresh _ _ _ Hin) as Hx.
      destruct (IH _ _ Hin) as (i & Hi & Hfirst).
      exists (S i). split; [done|]. intros [|j] y Hj Hy.
      * cbn in Hy. simplify_eq. intros Heq. apply Hx. apply elem_of_app.
        right. rewrite Heq. by apply list_elem_of_singleton.
      * cbn in Hy. apply (Hfirst j); [lia|done].
Qed.

Lemma remove_all (d : list A) :
  ∀ cur kept, cur ≡ₚ kept ++ d →
    ∃ l', for_each d list_remove cur = Some l' ∧ l' ≡ₚ kept ∧ sublist l' cur.
Proof.
  induction d as [|x d IH]; intros cur kept Hp; cbn [for_each].
  { exists cur. rewrite app_nil_r in Hp. done. }
  assert (x ∈ cur) as Hin.
  { rewrite Hp. apply elem_of_app. right. apply elem_of_cons. by left. }
  destruct (list_remove_elem x cur Hin) as (cur' & -> & Hp' & Hs').
  cbn [mbind option_bind].
  destruct (IH cur' kept) as (l' & Hl' & Hk & Hs).
  { apply (Permutation_cons_inv (a := x)). rewrite <- Hp', Hp.
    by rewrite Permutation_middle. }
  exists l'. split_and!; [done|done|]. by etrans.
Qed.

Lemma remove_duplicated_keep (l : list A) :
  ∃ l', remove_duplicated_strategy strategy_name l = Some l' ∧
        l' ≡ₚ keep [] l ∧ sublist l' l.
Proof.
  unfold remove_duplicated_strategy. rewrite check_names_spec. cbn [app].
  apply remove_all. apply keep_drop_perm.
Qed.

(** Two sublists of a list without repetition that have the same items are
    the same list. *)
Lemma sublist_perm_eq (l l1 l2 : list A) :
  NoDup l → sublist l1 l → sublist l2 l → l1 ≡ₚ l2 → l1 = l2.
Proof.
  intros Hnd. revert l1 l2.
  induction Hnd as [|x l Hx Hnd IH]; intros l1 l2 H1 H2 Hp.
  { apply sublist_nil_r in H1, H2. by subst. }
  apply sublist_cons_r in H1 as [H1|(l1' & -> & H1)];
    apply sublist_cons_r in H2 as [H2|(l2' & -> & H2)].
  - by apply IH.
  - exfalso. apply Hx. apply (sublist_subseteq l1 l H1).
    rewrite Hp. apply elem_of_cons. by left.
  - exfalso. apply Hx. apply (sublist_subseteq l2 l H2).
    rewrite <- Hp. apply elem_of_cons. by left.
  - f_equal. apply IH; [done..|]. by apply Permutation_cons_inv in Hp.
Qed.

End remove_duplicated_facts.

(** X10. [remove_duplicated_strategy] never raises (every [remove] finds its
    item).  The strategies left are a sub-list of the input in which no two
    bear the same name, every name of the input is still borne by one, and
    each strategy left is equal to the first strategy of its name in the
    input. *)
Theorem remove_duplicated_strategy_names {A : Type} `{EqDecision A}
    (strategy_name : A → string) (strategies_vector : list A) :
  ∃ l', remove_duplicated_strategy strategy_name strategies_vector = Some l' ∧
        sublist l' strategies_vector ∧
        NoDup (strategy_name <$> l') ∧
        (∀ n, n ∈ strategy_name <$> l' ↔
              n ∈ strategy_name <$> strategies_vector) ∧
        (∀ x, x ∈ l' →
           ∃ i, strategies_vector !! i = Some x ∧
                ∀ j y, (j < i)%nat → strategies_vector !! j = Some y →
                       strategy_name y ≠ strategy_name x).
Proof.
  destruct (remove_duplicated_keep strategy_name strategies_vector)
    as (l' & Hl' & Hp & Hs).
  exists l'. split_and!; [done|done| | |].
  - rewrite Hp. apply keep_NoDup.
  - intros n. split.
    + intros Hn. apply list_elem_of_fmap in Hn as (x & -> & Hx).
      apply list_elem_of_fmap_2. by apply (sublist_subseteq l' _ Hs).
    + intros Hn. apply list_elem_of_fmap in Hn as (x & -> & Hx).
      rewrite Hp.
      destruct (keep_names strategy_name strategies_vector [] x Hx) as [Hs'|Hk];
        [by apply elem_of_nil in Hs'|done].
  - intros x Hx. rewrite Hp in Hx. by eapply keep_first_position.
Qed.

(** X11. The strategies left by [remove_duplicated_strategy] are, up to
    their order, the first strategies of each name; when the strategies of
    the input are pairwise different they are these in the order of the
    input.  ([remove] drops the first item equal to a duplicate, which can
    be the first strategy of the name itself.) *)
Theorem remove_duplicated_strategy_order {A : Type} `{EqDecision A}
    (strategy_name : A → string) (strategies_vector : list A) :
  ∃ l', remove_duplicated_strategy strategy_name strategies_vector = Some l' ∧
        l' ≡ₚ first_of_each_name strategy_name [] strategies_vector ∧
        (NoDup strategies_vector →
         l' = first_of_each_name strategy_name [] strategies_vector).
Proof.
  destruct (remove_duplicated_keep strategy_name strategies_vector)
    as (l' & Hl' & Hp & Hs).
  exists l'. split_and!; [done|done|].
  intros Hnd. apply (sublist_perm_eq strategies_vector); [done|done| |done].
  apply keep_sublist.
Qed.

(** The order can change: the duplicate is equal to the first strategy of
    its name, which is the one that [remove] drops. *)
Example remove_duplicated_strategy_reorders :
  remove_duplicated_strategy fst [("S0R", 1); ("RR", 2); ("S0R", 1)]
  = Some [("RR", 2); ("S0R", 1)] ∧
  first_of_each_name fst [] [("S0R", 1); ("RR", 2); ("S0R", 1)]
  = [("S0R", 1); ("RR", 2)].
Proof. split; vm_compute; reflexivity. Qed.


(** * The measurements of a stage *)

Section stage_measurements.
Import Fx.

Lemma foldl_time_ge (f : Node → Z) (node : list Node) :
  ∀ acc, acc + Z.of_nat (List.length node)
         ≤ foldl (λ t n, t + Z.max (f n) 1) acc node.
Proof.
  induction node as [|n node IH]; intros acc; cbn [foldl List.length]; [lia|].
  specialize (IH (acc + Z.max (f n) 1)). lia.
Qed.

Lemma foldl_add_app (f : Node → Z) (node : list Node) :
  ∀ acc, foldl (λ t n, t + f n) acc node
         = acc + foldl (λ t n, t + f n) 0 node.
Proof.
  induction node as [|n node IH]; intros acc; cbn [foldl]; [lia|].
  rewrite (IH (acc + f n)), (IH (0 + f n)). lia.
Qed.

Lemma foldl_nonneg (f : Node → Z) (node : list Node) :
  Forall (λ n, 0 ≤ f n) node →
  ∀ acc, 0 ≤ acc → 0 ≤ foldl (λ t n, t + f n) acc node.
Proof.
  induction 1 as [|n node Hn _ IH]; intros acc Hacc; cbn [foldl]; [done|].
  apply IH. lia.
Qed.

(** [_get_deps_size] of keys with non-negative [bwd_out]. *)
Lemma deps_size_nonneg (deps : gmap (nat * Z) Z) :
  (∀ k, is_Some (deps !! k) → 0 ≤ k.2) → 0 ≤ _get_deps_size deps.
Proof.
  unfold _get_deps_size.
  apply (map_fold_weak_ind
           (λ r (m : gmap (nat * Z) Z),
              (∀ k, is_Some (m !! k) → 0 ≤ k.2) → 0 ≤ r)).
  - done.
  - intros k c m r Hk IH Hm.
    assert (0 ≤ k.2) by (apply Hm; rewrite lookup_insert_eq; eauto).
    assert (0 ≤ r); [|lia].
    apply IH. intros k' Hk'. apply Hm.
    destruct (decide (k = k')) as [->|Hne].
    + rewrite Hk in Hk'. by destruct Hk'.
    + by rewrite lookup_insert_ne.
Qed.

(** The loop [for son in n.users: deps[son] -= 1]. *)
Lemma decrement_all (l : list (nat * Z)) :
  ∀ deps deps',
    NoDup l → for_each l decrement deps = Some deps' →
    (∀ k, k ∈ l → is_Some (deps !! k)) ∧
    (∀ k, deps' !! k
          = (λ c, if decide (k ∈ l) then c - 1 else c) <$> deps !! k).
Proof.
  induction l as [|son l IH]; intros deps deps' Hnd Hl; cbn [for_each] in Hl.
  { simplify_eq. split.
    - intros k Hk. by apply elem_of_nil in Hk.
    - intros k. destruct (deps' !! k); [|done]. cbn.
      by rewrite decide_False by apply not_elem_of_nil. }
  apply NoDup_cons in Hnd as [Hson Hnd].
  destruct (decrement son deps) as [deps1|] eqn:Hdec; [|done].
  cbn [mbind option_bind] in Hl. unfold decrement in Hdec.
  destruct (deps !! son) as [count|] eqn:Hcount; [|done].
  cbn [mbind option_bind] in Hdec. simplify_eq.
  destruct (IH _ _ Hnd Hl) as [Hall Hlook]. split.
  - intros k Hk. apply elem_of_cons in Hk as [->|Hk]; [by rewrite Hcount|].
    specialize (Hall k Hk). rewrite lookup_insert_ne in Hall; [done|].
    by intros ->.
  - intros k. rewrite Hlook. destruct (decide (k = son)) as [->|Hne].
    + rewrite lookup_insert_eq, Hcount. cbn.
      rewrite decide_False by done.
      rewrite decide_True by (apply elem_of_cons; by left). done.
    + rewrite lookup_insert_ne by done.
      destruct (deps !! k) as [c|]; [|done]. cbn. f_equal.
      destruct (decide (k ∈ l)) as [Hin|Hin].
      * rewrite decide_True by (apply elem_of_cons; by right). done.
      * rewrite decide_False; [done|].
        intros [?|?]%elem_of_cons; done.
Qed.

(** One iteration of the loop of [_get_bwd_tmp]. *)
Lemma bwd_tmp_step_Some (n : Node) (st st' : Z * gmap (nat * Z) Z) :
  bwd_tmp_step n st = Some st' →
  st'.1 = Z.max st.1 (_get_deps_size st.2 + bwd_tmp n) ∧
  (∀ son, son ∈ users n → son = key n ∨ is_Some (st.2 !! son)) ∧
  (∀ k c, st'.2 !! k = Some c →
     c ≠ 0 ∧
     ∃ c0, <[key n := Z.of_nat (input_nodes n)]> st.2 !! k = Some c0 ∧
           c = if decide (k ∈ users n) then c0 - 1 else c0).
Proof.
  unfold bwd_tmp_step. intros Hs.
  destruct (for_each (elements (users n)) decrement
              (<[key n := Z.of_nat (input_nodes n)]> st.2)) as [deps|] eqn:Hd;
    [|done].
  cbn [mbind option_bind] in Hs. simplify_eq. cbn [fst snd].
  apply decrement_all in Hd as [Hall Hlook]; [|apply NoDup_elements].
  split_and!; [done| |].
  - intros son Hson. apply elem_of_elements in Hson.
    specialize (Hall son Hson).
    destruct (decide (son = key n)) as [->|Hne]; [by left|right].
    by rewrite lookup_insert_ne in Hall.
  - intros k c Hk. apply map_lookup_filter_Some in Hk as [Hk Hc].
    cbn in Hc. split; [done|]. rewrite Hlook in Hk.
    destruct (<[key n := Z.of_nat (input_nodes n)]> st.2 !! k) as [c0|] eqn:Hc0;
      [|done].
    cbn in Hk. exists c0. split; [done|]. simplify_eq.
    destruct (decide (k ∈ elements (users n))) as [Hin|Hin].
    + rewrite decide_True by (by apply elem_of_elements). done.
    + rewrite decide_False; [done|]. by rewrite <- elem_of_elements.
Qed.

Lemma bwd_tmp_step_dom (n : Node) (st st' : Z * gmap (nat * Z) Z) (k : nat * Z) :
  bwd_tmp_step n st = Some st' →
  is_Some (st'.2 !! k) → k = key n ∨ is_Some (st.2 !! k).
Proof.
  intros Hs [c Hk].
  apply bwd_tmp_step_Some in Hs as (_ & _ & Hs).
  destruct (Hs k c Hk) as (_ & c0 & Hc0 & _).
  destruct (decide (k = key n)) as [->|Hne]; [by left|right].
  rewrite lookup_insert_ne in Hc0 by done. eauto.
Qed.

(** After the last node of the stage, its users have left [deps]. *)
Lemma bwd_tmp_step_last (n : Node) (b : Z) (st' : Z * gmap (nat * Z) Z)
    (k : nat * Z) :
  bwd_tmp_step n (b, gset_to_gmap 1 (users n)) = Some st' →
  is_Some (st'.2 !! k) → k = key n.
Proof.
  intros Hs [c Hk].
  apply bwd_tmp_step_Some in Hs as (_ & _ & Hs).
  destruct (Hs k c Hk) as (Hc & c0 & Hc0 & ->).
  destruct (decide (k = key n)) as [->|Hne]; [done|exfalso].
  cbn [snd] in Hc0. rewrite lookup_insert_ne in Hc0 by done.
  apply lookup_gset_to_gmap_Some in Hc0 as [Hin <-].
  rewrite decide_True in Hc by done. done.
Qed.

(** The users of a node met by the loop are keys of [deps]: nodes met
    before, or the node itself. *)
Lemma bwd_tmp_loop_users (l : list Node) :
  ∀ (st st' : Z * gmap (nat * Z) Z) (D : list (nat * Z)),
    (∀ k, is_Some (st.2 !! k) → k ∈ D) →
    for_each l bwd_tmp_step st = Some st' →
    ∀ l1 n l2 son, l = l1 ++ n :: l2 → son ∈ users n →
                   son = key n ∨ son ∈ key <$> l1 ∨ son ∈ D.
Proof.
  induction l as [|n0 l IH]; intros st st' D HD Hl l1 n l2 son Heq Hson.
  { by destruct l1. }
  cbn [for_each] in Hl.
  destruct (bwd_tmp_step n0 st) as [st1|] eqn:Hstep; [|done].
  cbn [mbind option_bind] in Hl.
  destruct l1 as [|n1 l1]; cbn [app] in Heq; simplify_eq.
  - apply bwd_tmp_step_Some in Hstep as (_ & Hu & _).
    destruct (Hu son Hson) as [?|?]; [by left|right; right; by apply HD].
  - destruct (IH st1 st' (key n1 :: D)) with (l1 := l1) (n := n) (l2 := l2)
      (son := son) as [?|[?|Hin]]; [|done|done|done|by left| |].
    + intros k Hk. apply elem_of_cons.
      destruct (bwd_tmp_step_dom _ _ _ k Hstep Hk) as [?|?];
        [by left|right; by apply HD].
    + right; left. rewrite fmap_cons. apply elem_of_cons. by right.
    + apply elem_of_cons in Hin as [->|Hin].
      * right; left. rewrite fmap_cons. apply elem_of_cons. by left.
      * by right; right.
Qed.

(** The running maximum of the loop. *)
Lemma bwd_tmp_loop_bounds (l : list Node) :
  ∀ (st st' : Z * gmap (nat * Z) Z),
    for_each l bwd_tmp_step st = Some st' →
    st.1 ≤ st'.1 ∧
    ((∀ k, is_Some (st.2 !! k) → 0 ≤ k.2) →
     Forall (λ n, 0 ≤ bwd_out n) l →
     ∀ n, n ∈ l → bwd_tmp n ≤ st'.1).
Proof.
  induction l as [|n0 l IH]; intros st st' Hl; cbn [for_each] in Hl.
  { simplify_eq. split; [done|]. intros _ _ n Hn. by apply elem_of_nil in Hn. }
  destruct (bwd_tmp_step n0 st) as [st1|] eqn:Hstep; [|done].
  cbn [mbind option_bind] in Hl.
  destruct (IH _ _ Hl) as [Hle Hall].
  pose proof (bwd_tmp_step_Some _ _ _ Hstep) as (H1 & _).
  split; [lia|]. intros Hkeys Hout n Hn.
  apply Forall_cons in Hout as [Hout0 Hout].
  pose proof (deps_size_nonneg _ Hkeys).
  apply elem_of_cons in Hn as [->|Hn]; [lia|].
  apply Hall; [|done..].
  intros k Hk. destruct (bwd_tmp_step_dom _ _ _ k Hstep Hk) as [->|?];
    [done|by apply Hkeys].
Qed.

Lemma get_bwd_tmp_Ok (node : list Node) (v : Z) :
  _get_bwd_tmp node = Ok v →
  ∃ front last_node st,
    node = front ++ [last_node] ∧
    for_each (last_node :: reverse front) bwd_tmp_step
      (0, gset_to_gmap 1 (users last_node)) = Some st ∧
    v = st.1.
Proof.
  unfold _get_bwd_tmp. intros Hv.
  destruct (last node) as [last_node|] eqn:Hlast; [|done].
  cbn [read bind] in Hv.
  apply last_Some in Hlast as [front ->].
  rewrite reverse_app in Hv. cbn [reverse rev_append app] in Hv.
  change (reverse [last_node]) with [last_node] in Hv. cbn [app] in Hv.
  destruct (for_each (last_node :: reverse front) bwd_tmp_step
              (0, gset_to_gmap 1 (users last_node))) as [st|] eqn:Hst; [|done].
  cbn [read bind] in Hv. simplify_eq. by exists front, last_node, st.
Qed.

End stage_measurements.


Section stage_results.
Import Fx.

Lemma measure_Ok (node : list Node) (stage : Stage) :
  measure node = Ok stage →
  ∃ n v, last node = Some n ∧ _get_bwd_tmp node = Ok v ∧
         stage = mkStage (_fwd_time node) (_bwd_time node)
                   (numel n * element_size n) (_fwd_xbar node) v
                   (match node with [n] => _get_inplace n | _ => false end).
Proof.
  unfold measure, _compute_output_size. intros Hm.
  destruct (last node) as [n|]; [|done]. cbn [read bind] in Hm.
  destruct (_get_bwd_tmp node) as [v|]; [|done]. cbn [bind] in Hm.
  exists n, v. by simplify_eq.
Qed.

Lemma get_bwd_tmp_nonneg (node : list Node) (v : Z) :
  _get_bwd_tmp node = Ok v → 0 ≤ v.
Proof.
  intros Hv. apply get_bwd_tmp_Ok in Hv as (front & last_node & st & _ & Hst & ->).
  by apply bwd_tmp_loop_bounds in Hst as [Hle _].
Qed.

Lemma measure_nonneg (node : list Node) (stage : Stage) :
  Forall nonneg_sizes node → measure node = Ok stage →
  stage_nonneg stage ∧ 1 ≤ stage_fwd_time stage ∧ 1 ≤ stage_bwd_time stage.
Proof.
  intros Hn Hm. apply measure_Ok in Hm as (n & v & Hlast & Hv & ->).
  unfold stage_nonneg. cbn.
  assert (n ∈ node) as Hin by by apply last_Some_elem_of.
  pose proof (proj1 (Forall_forall _ _) Hn n Hin) as (? & ? & _).
  assert (1 ≤ Z.of_nat (List.length node)).
  { destruct node; [by apply elem_of_nil in Hin|cbn [List.length]; lia]. }
  pose proof (foldl_time_ge fwd_flop node 0).
  pose proof (foldl_time_ge bwd_flop node 0).
  split_and!.
  - nia.
  - apply (foldl_nonneg (λ n, fwd_tmp n + fwd_out n)); [|done].
    eapply Forall_impl; [exact Hn|]. intros x (_ & _ & ? & ?). lia.
  - by eapply get_bwd_tmp_nonneg.
  - unfold _fwd_time. lia.
  - unfold _bwd_time. lia.
Qed.

Lemma measure_all_Ok (node_list : list (list Node)) :
  ∀ stages, measure_all node_list = Ok stages →
            Forall2 (λ node stage, measure node = Ok stage) node_list stages.
Proof.
  induction node_list as [|node node_list IH]; intros stages Hm;
    cbn [measure_all] in Hm.
  { simplify_eq. constructor. }
  destruct (measure node) as [stage|] eqn:Hs; [|done]. cbn [bind] in Hm.
  destruct (measure_all node_list) as [stages'|]; [|done]. cbn [bind] in Hm.
  simplify_eq. constructor; [done|by apply IH].
Qed.

End stage_results.

(** X12. [_fwd_time] and [_bwd_time] count at least one unit of time for
    every node of the stage, whatever the profiled flop counts are (the
    minimum flop count of the source), and both are additive over the
    concatenation of stages. *)
Theorem stage_time_at_least_one_per_node (node node' : list Fx.Node) :
  Z.of_nat (List.length node) ≤ Fx._fwd_time node ∧
  Z.of_nat (List.length node) ≤ Fx._bwd_time node ∧
  Fx._fwd_time (node ++ node') = Fx._fwd_time node + Fx._fwd_time node' ∧
  Fx._bwd_time (node ++ node') = Fx._bwd_time node + Fx._bwd_time node'.
Proof.
  unfold Fx._fwd_time, Fx._bwd_time. split_and!.
  - apply (foldl_time_ge Fx.fwd_flop node 0).
  - apply (foldl_time_ge Fx.bwd_flop node 0).
  - rewrite foldl_app.
    apply (foldl_add_app (λ n, Z.max (Fx.fwd_flop n) 1) node').
  - rewrite foldl_app.
    apply (foldl_add_app (λ n, Z.max (Fx.bwd_flop n) 1) node').
Qed.

(** X13. When [_get_bwd_tmp] returns, its value is non-negative and at
    least the sum of the [bwd_out] of the users of the last node plus the
    [bwd_tmp] of the last node; when no [bwd_out] of a node of the stage or
    of a user of its last node is negative, the value is at least the
    [bwd_tmp] of every node of the stage. *)
Theorem get_bwd_tmp_bounds (node : list Fx.Node) (v : Z) :
  Fx._get_bwd_tmp node = Ok v →
  0 ≤ v ∧
  (∀ last_node, last node = Some last_node →
     Fx._get_deps_size (gset_to_gmap 1 (Fx.users last_node))
       + Fx.bwd_tmp last_node ≤ v) ∧
  (Forall (λ n, 0 ≤ Fx.bwd_out n) node →
   (∀ last_node son, last node = Some last_node →
                     son ∈ Fx.users last_node → 0 ≤ son.2) →
   ∀ n, n ∈ node → Fx.bwd_tmp n ≤ v).
Proof.
  intros Hv. split; [by eapply get_bwd_tmp_nonneg|].
  apply get_bwd_tmp_Ok in Hv as (front & last_node & st & -> & Hst & ->).
  split.
  - intros l Hl. rewrite last_snoc in Hl. simplify_eq.
    cbn [for_each] in Hst.
    destruct (Fx.bwd_tmp_step l (0, gset_to_gmap 1 (Fx.users l)))
      as [st1|] eqn:Hstep; [|done].
    cbn [mbind option_bind] in Hst.
    apply bwd_tmp_step_Some in Hstep as (H1 & _).
    apply bwd_tmp_loop_bounds in Hst as [Hle _]. cbn [fst snd] in H1. lia.
  - intros Hout Husers n Hn.
    apply bwd_tmp_loop_bounds in Hst as [_ Hall]. apply Hall.
    + intros k [c Hk]. cbn [snd] in Hk.
      apply lookup_gset_to_gmap_Some in Hk as [Hk _].
      apply (Husers last_node); [apply last_snoc|done].
    + apply Forall_forall. intros x Hx.
      apply (proj1 (Forall_forall _ _) Hout).
      apply elem_of_cons in Hx as [->|Hx].
      * apply elem_of_app. right. by apply list_elem_of_singleton.
      * apply elem_of_app. left. by apply elem_of_reverse.
    + apply elem_of_app in Hn as [Hn|Hn].
      * apply elem_of_cons. right. by apply elem_of_reverse.
      * apply list_elem_of_singleton in Hn as ->. apply elem_of_cons. by left.
Qed.

Lemma get_bwd_tmp_bounds_witness :
  let n1 := Fx.mkNode 1 Fx.other_op 4 4 10 20 3 16 5 16 {[ (2%nat, 8) ]} 1 in
  let n2 := Fx.mkNode 2 Fx.other_op 2 4 10 20 0 8 1 8 {[ (3%nat, 6) ]} 1 in
  0 ≤ 13 ∧
  (∀ last_node, last [n1; n2] = Some last_node →
     Fx._get_deps_size (gset_to_gmap 1 (Fx.users last_node))
       + Fx.bwd_tmp last_node ≤ 13) ∧
  (Forall (λ n, 0 ≤ Fx.bwd_out n) [n1; n2] →
   (∀ last_node son, last [n1; n2] = Some last_node →
                     son ∈ Fx.users last_node → 0 ≤ son.2) →
   ∀ n, n ∈ [n1; n2] → Fx.bwd_tmp n ≤ 13).
Proof.
  intros n1 n2. apply (get_bwd_tmp_bounds [n1; n2] 13).
  vm_compute. reflexivity.
Defined.

(** X14. [_get_bwd_tmp] raises on an empty stage, and it returns only when
    every user of a node other than the last is a node of the stage at a
    later place, or the node itself: a stage with an inner node that is
    used outside of it raises the [KeyError] of [deps[son] -= 1]. *)
Theorem get_bwd_tmp_users_in_stage (node : list Fx.Node) (v : Z) :
  Fx._get_bwd_tmp node = Ok v →
  node ≠ [] ∧
  ∀ front n back son,
    node = front ++ n :: back → back ≠ [] → son ∈ Fx.users n →
    son ∈ Fx.key <$> (n :: back).
Proof.
  intros Hv.
  apply get_bwd_tmp_Ok in Hv as (front0 & last_node & st & -> & Hst & _).
  split; [by destruct front0|].
  intros front n back son Heq Hback Hson.
  destruct (proj2 (last_is_Some back) Hback) as [l Hl].
  apply last_Some in Hl as [back' ->].
  replace (front ++ n :: back' ++ [l])
    with ((front ++ n :: back') ++ [l]) in Heq by (by rewrite <- app_assoc).
  apply app_inj_tail in Heq as [-> <-].
  cbn [for_each] in Hst.
  destruct (Fx.bwd_tmp_step last_node (0, gset_to_gmap 1 (Fx.users last_node)))
    as [st1|] eqn:Hstep; [|done].
  cbn [mbind option_bind] in Hst.
  rewrite reverse_app, reverse_cons in Hst. rewrite <- app_assoc in Hst.
  cbn [app] in Hst.
  destruct (bwd_tmp_loop_users (reverse back' ++ n :: reverse front) st1 st
              [Fx.key last_node])
    with (l1 := reverse back') (n := n) (l2 := reverse front) (son := son)
    as [->|[Hin|Hin]]; [|done|done|done| | |].
  - intros k Hk. apply list_elem_of_singleton.
    by eapply bwd_tmp_step_last.
  - rewrite fmap_cons. apply elem_of_cons. by left.
  - rewrite fmap_cons, fmap_app. apply elem_of_cons. right.
    apply elem_of_app. left. by rewrite fmap_reverse, elem_of_reverse in Hin.
  - rewrite fmap_cons, fmap_app. apply elem_of_cons. right.
    apply elem_of_app. by right.
Qed.

Lemma get_bwd_tmp_users_in_stage_witness :
  let n1 := Fx.mkNode 1 Fx.other_op 4 4 10 20 3 16 5 16 {[ (2%nat, 8) ]} 1 in
  let n2 := Fx.mkNode 2 Fx.other_op 2 4 10 20 0 8 1 8 {[ (3%nat, 6) ]} 1 in
  [n1; n2] ≠ [] ∧
  ∀ front n back son,
    [n1; n2] = front ++ n :: back → back ≠ [] → son ∈ Fx.users n →
    son ∈ Fx.key <$> (n :: back).
Proof.
  intros n1 n2. apply (get_bwd_tmp_users_in_stage [n1; n2] 13).
  vm_compute. reflexivity.
Defined.

(** An inner node with a user outside of the stage: [KeyError]. *)
Example get_bwd_tmp_outside_user :
  let n1 := Fx.mkNode 1 Fx.other_op 4 4 10 20 3 16 5 16
              {[ (2%nat, 8); (9%nat, 4) ]} 1 in
  let n2 := Fx.mkNode 2 Fx.other_op 2 4 10 20 0 8 1 8 {[ (3%nat, 6) ]} 1 in
  Fx._get_bwd_tmp [n1; n2] = Err LookupError ∧
  Fx._get_bwd_tmp [] = Err LookupError.
Proof. split; vm_compute; reflexivity. Qed.

(** X15. From stages whose profiled sizes are non-negative, with a positive
    finite memory unit and a non-negative input size below [2 ^ 53]: when
    the measurements of every stage succeed with byte counts below
    [2 ^ 53], [_construct_chain] returns a well-formed chain with one stage
    per entry, in which every forward time and every backward time of a
    stage is at least 1; no stage was empty. *)
Theorem measured_chain_well_formed (node_list : list (list Fx.Node))
    (stages : list Stage) (data_size mem_unit : Z) :
  Forall (Forall Fx.nonneg_sizes) node_list →
  0 < mem_unit < 2 ^ 1024 → 0 ≤ data_size < 2 ^ 53 →
  Fx.measure_all node_list = Ok stages →
  Forall stage_exact stages →
  Forall (λ node, node ≠ []) node_list ∧
  ∃ chain,
    _construct_chain stages data_size (Some mem_unit) = Ok chain ∧
    wf_chain chain ∧
    chain_length chain = List.length node_list ∧
    Forall (λ t, 1 ≤ t) (fweight chain) ∧
    (∀ k, (k < chain_length chain)%nat → 1 ≤ item (bweight chain) k).
Proof.
  intros Hn Hu Hd Hm He. assert (0 < mem_unit ≤ 2 ^ 1024) as Hu' by lia.
  apply measure_all_Ok in Hm.
  assert (Forall (λ stage, stage_nonneg stage ∧ 1 ≤ stage_fwd_time stage ∧
                           1 ≤ stage_bwd_time stage) stages) as Hst.
  { clear Hu Hu' Hd He.
    induction Hm as [|node stage node_list stages H1 _ IH]; [constructor|].
    apply Forall_cons in Hn as [Hn0 Hn]. constructor; [|by apply IH].
    by eapply measure_nonneg. }
  split.
  { clear Hst Hn He. induction Hm as [|node stage node_list stages H1 _ IH];
      constructor; [|done].
    intros ->. done. }
  assert (Forall stage_nonneg stages) as Hnonneg.
  { eapply Forall_impl; [exact Hst|]. by intros x [? _]. }
  destruct (_construct_chain stages data_size (Some mem_unit))
    as [chain|e] eqn:Hc;
    [|by rewrite construct_chain_Ok in Hc by (done || lia)].
  exists chain. destruct (built_chain_wf _ _ _ _ Hu' Hd Hnonneg He Hc)
    as (Hwf & Hlen & _).
  rewrite construct_chain_Ok in Hc by (done || lia).
  apply Ok_inj in Hc. subst chain.
  split_and!; [done|done| | |].
  - rewrite Hlen. symmetry. by eapply Forall2_length.
  - cbn [fweight]. apply Forall_fmap. eapply Forall_impl; [exact Hst|].
    by intros x (_ & ? & _).
  - unfold chain_length. cbn [fweight bweight]. rewrite length_fmap.
    intros k Hk. unfold item.
    rewrite app_nth1 by (by rewrite length_fmap).
    destruct (lookup_lt_is_Some_2 stages k Hk) as [stage Hstage].
    rewrite (nth_lookup_Some _ _ _ (stage_bwd_time stage)).
    + by destruct (proj1 (Forall_lookup _ _) Hst k stage Hstage) as (_ & _ & ?).
    + by rewrite list_lookup_fmap, Hstage.
Qed.

Lemma measured_chain_well_formed_witness :
  let n1 := Fx.mkNode 1 Fx.other_op 4 4 10 20 3 16 5 16 {[ (2%nat, 8) ]} 1 in
  let n2 := Fx.mkNode 2 Fx.other_op 2 4 10 20 0 8 1 8 {[ (3%nat, 6) ]} 1 in
  Forall (λ node, node ≠ []) [[n1; n2]] ∧
  ∃ chain,
    _construct_chain [mkStage 20 40 8 27 13 false] 64 (Some 10) = Ok chain ∧
    wf_chain chain ∧
    chain_length chain = List.length [[n1; n2]] ∧
    Forall (λ t, 1 ≤ t) (fweight chain) ∧
    (∀ k, (k < chain_length chain)%nat → 1 ≤ item (bweight chain) k).
Proof.
  intros n1 n2.
  apply (measured_chain_well_formed [[n1; n2]] [mkStage 20 40 8 27 13 false]
           64 10).
  - repeat constructor; simpl; lia.
  - split; [lia|reflexivity].
  - split; [lia|reflexivity].
  - vm_compute. reflexivity.
  - repeat constructor; simpl; reflexivity.
Defined.


(** * The decision at the loss *)

Section loss_boundary.
Context (c : Chain) (mmax : Z).
Context (opt : gmap (Z * nat * nat) ext) (what : gmap (Z * nat * nat) decision).
Hypothesis Hwf : wf_chain c.
Hypothesis Htable : _compute_table c mmax = Some (opt, what).
Hypothesis Hftmp : Forall (λ x, x = 0) (fwd_tmp c).
Hypothesis Hbtmp : item (bwd_tmp c) (chain_length c) = 0.

Lemma ftmp_zero (k : nat) : item (ftmp c) k = 0.
Proof.
  unfold item, ftmp.
  assert (Forall (λ x, x = 0) (fwd_tmp c ++ [0])) as H.
  { apply Forall_app. split; [done|]. by constructor. }
  destruct (decide (k < List.length (fwd_tmp c ++ [0%Z]))%nat) as [Hk|Hk].
  - destruct (lookup_lt_is_Some_2 _ _ Hk) as [x Hx].
    rewrite (nth_lookup_Some _ _ _ _ Hx).
    by apply (proj1 (Forall_lookup _ _) H k x).
  - apply nth_overflow. lia.
Qed.

Lemma cw_nonneg (k : nat) : 0 ≤ item (cw c) k.
Proof. apply item_app0_nonneg, Hwf. Qed.

Lemma cbw_nonneg (k : nat) : 0 ≤ item (cbw c) k.
Proof. apply item_app0_nonneg, Hwf. Qed.

Lemma cw_beyond : item (cw c) (chain_length c + 1) = 0.
Proof.
  unfold cw. rewrite Nat.add_1_r, <- (wf_cweight c Hwf). apply item_app_end.
Qed.

Lemma cbw_beyond : item (cbw c) (chain_length c + 1) = 0.
Proof.
  unfold cbw. rewrite Nat.add_1_r, <- (wf_cbweight c Hwf). apply item_app_end.
Qed.

Lemma fw_loss : item (fw c) (chain_length c) = 0.
Proof. unfold fw, chain_length. apply item_app_end. Qed.

(** The loss runs with any budget. *)
Lemma loss_cell (m : Z) :
  0 ≤ m ≤ mmax →
  opt !! (m, chain_length c, chain_length c)
  = Some (Fin (item (bw c) (chain_length c))).
Proof.
  intros Hm. rewrite (table_base c mmax opt what Hwf Htable) by (done || lia).
  unfold base_value. rewrite decide_True.
  - by rewrite fw_loss.
  - unfold limit. rewrite cw_beyond, cbw_beyond, ftmp_zero.
    assert (item (btmp c) (chain_length c) = 0) as ->; [|lia].
    unfold btmp. rewrite item_app_l; [done|]. rewrite (wf_bwd_tmp c Hwf). lia.
Qed.

(** The floor of a range that ends at the loss is not above the floor of
    the range that ends one stage before. *)
Lemma mmin_loss (i idx : nat) :
  chain_length c = S idx → (i < idx)%nat →
  mmin c i (S idx) ≤ mmin c i idx.
Proof.
  intros HL Hi. unfold mmin. rewrite !ftmp_zero.
  replace (S idx + 1)%nat with (chain_length c + 1)%nat by lia.
  rewrite cw_beyond. rewrite (decide_True (P := (i + 1 < S idx)%nat)) by lia.
  set (f := λ j, item (cw c) j + item (cw c) (j + 1) + item (ftmp c) j).
  pose proof (cw_nonneg (i + 1)). pose proof (cw_nonneg (idx + 1)).
  assert (f idx ≤ mmin c i idx) as Hlast.
  { unfold mmin. rewrite ftmp_zero. case_decide as Hd.
    - destruct (py_max_spec (f <$> range (i + 1) idx)) as [_ Hmax].
      { unfold range. destruct (idx - (i + 1))%nat eqn:E; [lia|done]. }
      assert (f (idx - 1)%nat ≤ py_max (f <$> range (i + 1) idx)) as H1.
      { apply Hmax. apply list_elem_of_fmap_2. apply elem_of_range. lia. }
      unfold f in H1 |- *. rewrite !ftmp_zero in *.
      replace (idx - 1 + 1)%nat with idx in H1 by lia.
      pose proof (cw_nonneg (idx - 1)). lia.
    - replace (i + 1)%nat with idx by lia. unfold f. rewrite ftmp_zero. lia. }
  destruct (py_max_spec (f <$> range (i + 1) (S idx))) as [Hin _].
  { unfold range. destruct (S idx - (i + 1))%nat eqn:E; [lia|done]. }
  apply list_elem_of_fmap in Hin as (j & Hj & Hrange).
  apply elem_of_range in Hrange. rewrite Hj.
  destruct (decide (j = idx)) as [->|Hne].
  - unfold mmin in Hlast. rewrite ftmp_zero in Hlast.
    fold f in Hlast. case_decide; lia.
  - rewrite (decide_True (P := (i + 1 < idx)%nat)) by lia.
    destruct (py_max_spec (f <$> range (i + 1) idx)) as [_ Hmax].
    { unfold range. destruct (idx - (i + 1))%nat eqn:E; [lia|done]. }
    assert (f j ≤ py_max (f <$> range (i + 1) idx)) as H1.
    { apply Hmax. apply list_elem_of_fmap_2. apply elem_of_range. lia. }
    fold f. lia.
Qed.

Lemma ext_le_fin (a : ext) (y : Z) :
  Ext.le a (Fin y) → ∃ x, a = Fin x ∧ x ≤ y.
Proof.
  unfold Ext.le. destruct a as [x|]; cbn; [|done].
  intros H. exists x. split; [done|]. by apply Z.leb_le.
Qed.

(** Ending a range at the loss costs the backward time of the loss and
    nothing else. *)
Lemma opt_to_loss (idx : nat) (HL : chain_length c = S idx) (n : nat) :
  ∀ (i : nat) (m v : Z),
    (idx - i < n)%nat → (i ≤ idx)%nat →
    opt !! (m, i, idx) = Some (Fin v) →
    ∃ v', opt !! (m, i, S idx) = Some (Fin v') ∧
          v' ≤ v + item (bw c) (chain_length c).
Proof.
  induction n as [|n IH]; intros i m v Hn Hi Hv; [lia|].
  destruct (table_dom c mmax opt what Hwf Htable m i idx) as [Hm _]; [eauto|].
  destruct (decide (i = idx)) as [->|Hne].
  - (* one stage and the loss *)
    destruct (base_finite c mmax opt what Hwf Htable m idx v Hv) as [Hlim _].
    unfold limit in Hlim. pose proof (cw_nonneg (idx + 1)).
    pose proof (cbw_nonneg (idx + 1)).
    assert (0 ≤ item (ftmp c) idx) by (rewrite ftmp_zero; lia).
    destruct (table_cell_cases c mmax opt what Hwf Htable m idx (S idx))
      as [(Hlow & _)|(_ & leaf & chain & _ & Hchain & Ho & _)]; [done|lia| |].
    { unfold mmin in Hlow. rewrite decide_False in Hlow by lia.
      replace (S idx + 1)%nat with (chain_length c + 1)%nat in Hlow by lia.
      rewrite cw_beyond in Hlow. lia. }
    apply chain_checkpoint_Some in Hchain as [(_ & a & b & Ha & Hb & ->)|[? _]];
      [|lia].
    rewrite Hv in Ha. rewrite Nat.add_1_r, <- HL in Hb.
    rewrite loss_cell in Hb by (rewrite HL, <- Nat.add_1_r; lia).
    simplify_eq.
    pose proof (choose_le_chain (best_of leaf)
                  (Fin v ⊕ Fin (item (bw c) (chain_length c)))) as Hle.
    apply ext_le_fin in Hle as (v' & Hv' & Hle).
    exists v'. rewrite Ho, Hv'. done.
  - destruct (table_cell_cases c mmax opt what Hwf Htable m i idx)
      as [(_ & Ho & _)|(Hmin & leaf0 & chain0 & Hleaf0 & Hchain0 & Ho & _)];
      [done|lia|by rewrite Ho in Hv|].
    pose proof (mmin_loss i idx HL ltac:(lia)) as Hfloor.
    destruct (table_cell_cases c mmax opt what Hwf Htable m i (S idx))
      as [(? & _)|(_ & leaf & chain & Hleaf & Hchain & Ho' & _)];
      [done|lia|lia|].
    rewrite Ho' . rewrite Ho in Hv.
    destruct (choose_cases (best_of leaf0) chain0)
      as [(j & u & Hb & _ & Hch)|[_ Hch]]; rewrite Hch in Hv; cbn in Hv.
    + (* the leaf decision with the boundary [j] *)
      simplify_eq. apply best_of_Some in Hb as [Hin _].
      apply (leaf_checkpoints_elem _ _ _ _ _ _ _ _ Hleaf0) in Hin
        as (Hj & Hcw & Htot).
      apply leaf_total_Some in Htot as (a & b & Ha & Hb & Hsum).
      symmetry in Hsum. apply ExtFacts.add_fin in Hsum as (x & y & Hx & -> & ->).
      apply ExtFacts.add_fin in Hx as (s & x' & Hs & -> & ->).
      destruct (IH j (m - item (cw c) j) x') as (x'' & Hx'' & Hle);
        [lia|lia|done|].
      assert ((j, Fin (sum (slice (fw c) i j)) ⊕ Fin x'' ⊕ Fin y) ∈ leaf) as Hin.
      { apply (leaf_checkpoints_elem _ _ _ _ _ _ _ _ Hleaf).
        split; [lia|]. split; [done|]. apply leaf_total_Some.
        by exists (Fin x''), (Fin y). }
      pose proof (choose_le_leaf leaf chain _ _ Hin) as Hle'.
      cbn in Hle'. apply ext_le_fin in Hle' as (v' & Hv' & Hle').
      exists v'. split; [by rewrite Hv'|]. simplify_eq. lia.
    + (* the chain decision *)
      simplify_eq.
      apply chain_checkpoint_Some in Hchain0
        as [(Hcbw & a & b & Ha & Hb & Hsum)|[_ ?]]; [|done].
      symmetry in Hsum. apply ExtFacts.add_fin in Hsum as (x & y & -> & -> & ->).
      destruct (IH (i + 1)%nat (m - item (cbw c) (i + 1)) y) as (y' & Hy' & Hle);
        [lia|lia|done|].
      assert (chain = Fin x ⊕ Fin y') as ->.
      { apply chain_checkpoint_Some in Hchain
          as [(_ & a & b & Ha' & Hb' & ->)|[? _]]; [|lia].
        rewrite Ha in Ha'. rewrite Hy' in Hb'. by simplify_eq. }
      change (Fin x ⊕ Fin y') with (Fin (x + y')).
      pose proof (choose_le_chain (best_of leaf) (Fin (x + y'))) as Hle'.
      apply ext_le_fin in Hle' as (v' & Hv' & Hle').
      exists v'. split; [by rewrite Hv'|]. lia.
Qed.

Lemma fw_sum_positive (i j : nat) :
  Forall (λ t, 0 < t) (fweight c) → (i < j ≤ chain_length c)%nat →
  0 < sum (slice (fw c) i j).
Proof.
  intros Hfw Hij. rewrite sum_slice
    by (unfold fw; rewrite length_app; unfold chain_length in Hij; cbn; lia).
  assert (∀ k, (k < chain_length c)%nat → 0 < item (fw c) k) as Hpos.
  { intros k Hk. unfold fw. rewrite item_app_l by done.
    destruct (lookup_lt_is_Some_2 (fweight c) k Hk) as [x Hx].
    unfold item. rewrite (nth_lookup_Some _ _ _ _ Hx).
    by apply (proj1 (Forall_lookup _ _) Hfw k x). }
  rewrite (range_cons i j) by lia. rewrite fmap_cons. cbn [sum foldr].
  fold (sum (item (fw c) <$> range (S i) j)).
  assert (0 ≤ sum (item (fw c) <$> range (S i) j)); [|specialize (Hpos i); lia].
  apply sum_nonneg. apply Forall_fmap, Forall_forall.
  intros k Hk%elem_of_range. cbn. specialize (Hpos k). lia.
Qed.

(** With positive forward times, no feasible range that ends at the loss
    is checkpointed up to the loss itself. *)
Lemma no_leaf_at_loss (m v : Z) (i : nat) :
  Forall (λ t, 0 < t) (fweight c) →
  opt !! (m, i, chain_length c) = Some (Fin v) →
  what !! (m, i, chain_length c) = Some (LeafCkpt (chain_length c)) →
  False.
Proof.
  intros Hfw Hv Hw.
  destruct (what_dom c mmax opt what Hwf Htable m i (chain_length c))
    as [Hm Hi]; [eauto|].
  assert (∃ idx, chain_length c = S idx) as [idx HL].
  { exists (chain_length c - 1)%nat. lia. }
  destruct (table_cell_cases c mmax opt what Hwf Htable m i (chain_length c))
    as [(_ & Ho & _)|(_ & leaf & chain & Hleaf & _ & Ho & Hw')];
    [done|lia|by rewrite Ho in Hv|].
  rewrite Hw' in Hw. rewrite Ho in Hv.
  destruct (choose_cases (best_of leaf) chain)
    as [(j & u & Hb & _ & Hch)|[_ Hch]]; rewrite Hch in Hv, Hw; cbn in Hv, Hw;
    simplify_eq.
  apply best_of_Some in Hb as [Hin _].
  apply (leaf_checkpoints_elem _ _ _ _ _ _ _ _ Hleaf) in Hin
    as (_ & Hcw & Htot).
  apply leaf_total_Some in Htot as (a & b & Ha & Hb & Hsum).
  symmetry in Hsum. apply ExtFacts.add_fin in Hsum as (x & y & Hx & -> & ->).
  apply ExtFacts.add_fin in Hx as (s & x' & Hs & -> & ->).
  pose proof (cw_nonneg (chain_length c)).
  rewrite loss_cell in Ha by lia.
  replace (chain_length c - 1)%nat with idx in Hb by lia.
  destruct (opt_to_loss idx HL (S idx) i m y) as (v' & Hv' & Hle);
    [lia|lia|done|].
  rewrite <- HL in Hv'. rewrite Ho, Hch in Hv'. cbn in Hv'. simplify_eq.
  pose proof (fw_sum_positive i (chain_length c) Hfw ltac:(lia)). lia.
Qed.

End loss_boundary.


(** * The sequences of the solver *)

Lemma ckpt_stages_app (s1 s2 : list Operation) :
  ckpt_stages (s1 ++ s2) = ckpt_stages s1 ++ ckpt_stages s2.
Proof. apply omap_app. Qed.

Lemma ckpt_stages_nograd (l : list nat) :
  ckpt_stages (ForwardNograd <$> l) = l.
Proof. induction l as [|x l IH]; [done|]. cbn. by rewrite <- IH at 2. Qed.

Section solver_sweep.
Context (c : Chain) (mmax : Z).
Context (opt : gmap (Z * nat * nat) ext) (what : gmap (Z * nat * nat) decision).
Hypothesis Hwf : wf_chain c.
Hypothesis Htable : _compute_table c mmax = Some (opt, what).

(** The stages that a returned sequence checkpoints lie in its range. *)
Lemma rec_ckpt_stages (fuel : nat) :
  ∀ (lmin lmax : nat) (cmem : Z) (s : list Operation),
    _rec fuel c lmin lmax cmem (opt, what) = Ok s →
    Forall (λ k, (lmin ≤ k < lmax)%nat) (ckpt_stages s).
Proof.
  induction fuel as [|fuel IH]; intros lmin lmax cmem s Hs; [done|].
  apply rec_Ok_inv in Hs as (Hc & v & Ho & Hcases).
  destruct (table_dom c mmax opt what Hwf Htable cmem lmin lmax) as [_ Hi];
    [eauto|].
  destruct Hcases as [[-> ->]|[(Hne & Hw & xbar & s' & _ & Hs' & ->)|
                                (Hne & j & x & s1 & s2 & Hw & _ & H1 & H2 & ->)]].
  - case_decide; cbn; constructor.
  - apply IH in Hs'. rewrite !ckpt_stages_app. cbn. rewrite app_nil_r.
    eapply Forall_impl; [exact Hs'|]. intros k ?. cbn in *. lia.
  - apply (what_leaf_bounds c mmax opt what Hwf Htable) in Hw.
    apply IH in H1. apply IH in H2.
    rewrite !ckpt_stages_app, ckpt_stages_nograd. cbn.
    constructor; [lia|]. rewrite !Forall_app. split_and!.
    + apply Forall_forall. intros k Hk%elem_of_range. lia.
    + eapply Forall_impl; [exact H1|]. intros k ?. cbn in *. lia.
    + eapply Forall_impl; [exact H2|]. intros k ?. cbn in *. lia.
Qed.

Hypothesis Hftmp : Forall (λ x, x = 0) (fwd_tmp c).
Hypothesis Hbtmp : item (bwd_tmp c) (chain_length c) = 0.
Hypothesis Hfw : Forall (λ t, 0 < t) (fweight c).

(** The shape of a sequence returned for a range that ends at the loss. *)
Lemma rec_sweep (fuel : nat) :
  ∀ (lmin : nat) (cmem : Z) (s : list Operation),
    _rec fuel c lmin (chain_length c) cmem (opt, what) = Ok s →
    ∃ fwd bwd,
      s = fwd ++ Loss :: bwd ∧
      forward_sweep (chain_length c) lmin fwd ∧
      Forall (λ k, k ∈ ckpt_stages fwd) (ckpt_stages bwd).
Proof.
  induction fuel as [|fuel IH]; intros lmin cmem s Hs; [done|].
  apply rec_Ok_inv in Hs as (Hc & v & Ho & Hcases).
  destruct (table_dom c mmax opt what Hwf Htable cmem lmin (chain_length c))
    as [_ Hi]; [eauto|].
  destruct Hcases as [[Heq ->]|[(Hne & Hw & xbar & s' & _ & Hs' & ->)|
                                 (Hne & j & x & s1 & s2 & Hw & _ & H1 & H2 & ->)]].
  - rewrite decide_True by done. exists [], []. split_and!; [done| |constructor].
    rewrite Heq. constructor.
  - apply IH in Hs' as (fwd & bwd & -> & Hsweep & Hb).
    exists (ForwardEnable lmin :: fwd), (bwd ++ [Backward lmin]).
    split_and!.
    + cbn. by rewrite <- !app_assoc.
    + constructor; [lia|]. by rewrite <- Nat.add_1_r.
    + rewrite ckpt_stages_app. cbn. by rewrite app_nil_r.
  - pose proof (what_leaf_bounds c mmax opt what Hwf Htable _ _ _ _ Hw) as Hj.
    assert (S j ≠ chain_length c) as HjL.
    { intros Heq. rewrite Heq in Hw.
      by eapply (no_leaf_at_loss c mmax opt what Hwf Htable Hftmp Hbtmp). }
    apply IH in H1 as (fwd & bwd & -> & Hsweep & Hb).
    apply rec_ckpt_stages in H2.
    exists (ForwardCheck lmin :: (ForwardNograd <$> range (lmin + 1) (S j)) ++ fwd),
      (bwd ++ s2).
    split_and!.
    + cbn. by rewrite <- !app_assoc.
    + constructor; [lia|done].
    + rewrite ckpt_stages_app. cbn. rewrite ckpt_stages_app, ckpt_stages_nograd.
      apply Forall_app. split.
      * eapply Forall_impl; [exact Hb|]. intros k Hk. cbn.
        apply elem_of_cons. right. apply elem_of_app. by right.
      * eapply Forall_impl; [exact H2|]. intros k Hk. cbn in Hk.
        destruct (decide (k = lmin)) as [->|Hk'].
        { apply elem_of_cons. by left. }
        apply elem_of_cons. right. apply elem_of_app. left.
        apply elem_of_range. lia.
Qed.

End solver_sweep.

Lemma forward_sweep_no_loss (L i : nat) (l : list Operation) :
  forward_sweep L i l → ¬ (Loss ∈ l).
Proof.
  induction 1 as [|i l _ _ IH|i j l _ _ IH]; intros Hin.
  - by apply elem_of_nil in Hin.
  - apply elem_of_cons in Hin as [?|?]; [done|by apply IH].
  - apply elem_of_cons in Hin as [?|Hin]; [done|].
    apply elem_of_app in Hin as [Hin|?]; [|by apply IH].
    apply list_elem_of_fmap in Hin as (? & ? & _). done.
Qed.

(** * The two passes of [_annotate_from_sequence] *)

Section annotate_facts.
Import Annotate.
Context (node_list : list (list nat)).

#[local] Abbreviation keeps a a' := (∀ n : nat, is_Some (a !! n) → is_Some (a' !! n)).

Lemma annotate_loop_app {A St : Type} (body : A → St → outcome St) (l1 l2 : list A) :
  ∀ s, for_loop (l1 ++ l2) body s
       = s' ← for_loop l1 body s; for_loop l2 body s'.
Proof.
  induction l1 as [|x l1 IH]; intros s; cbn [app for_loop]; [done|].
  destruct (body x s) as [s1|e]; cbn [mbind outcome_bind]; [apply IH|done].
Qed.

Lemma zip_seq_app {A : Type} (k : nat) (l1 l2 : list A) :
  zip (seq k (List.length (l1 ++ l2))) (l1 ++ l2)
  = zip (seq k (List.length l1)) l1
      ++ zip (seq (k + List.length l1) (List.length l2)) l2.
Proof.
  rewrite length_app, seq_app. apply zip_with_app. by rewrite length_seq.
Qed.

Lemma stage_covered_keeps (k : nat) (a a' : attributes) :
  keeps a a' → stage_covered node_list k a → stage_covered node_list k a'.
Proof. intros Hk Hc node n Hnode Hn. apply Hk. by eapply Hc. Qed.

Lemma set_nodes (x : nat) (node : list nat) :
  ∀ a, ∃ a', for_loop node (set_label x) a = Returns a' ∧
             (∀ n, n ∈ node → is_Some (a' !! n)) ∧ keeps a a'.
Proof.
  induction node as [|n node IH]; intros a; cbn [for_loop].
  { exists a. split_and!; [done| |done]. intros n Hn. by apply elem_of_nil in Hn. }
  change (set_label x n a) with (Returns (<[n := [x]]> a)).
  cbn [mbind outcome_bind].
  destruct (IH (<[n := [x]]> a)) as (a' & -> & Hcov & Hkeep).
  exists a'. split_and!; [done| |].
  - intros n' [->|Hn]%elem_of_cons; [|by apply Hcov].
    apply Hkeep. rewrite lookup_insert_eq. eauto.
  - intros n' Hn'. apply Hkeep.
    destruct (decide (n = n')) as [->|Hne].
    + rewrite lookup_insert_eq. eauto.
    + by rewrite lookup_insert_ne.
Qed.

Lemma set_region (x : nat) (R : list nat) :
  ∀ a, Forall (λ k, (k < List.length node_list)%nat) R →
       ∃ a', for_region node_list (set_label x) R a = Returns a' ∧
             (∀ k, k ∈ R → stage_covered node_list k a') ∧ keeps a a'.
Proof.
  unfold for_region.
  induction R as [|k R IH]; intros a HR; cbn [for_loop].
  { exists a. split_and!; [done| |done]. intros k Hk. by apply elem_of_nil in Hk. }
  apply Forall_cons in HR as [Hk HR].
  destruct (lookup_lt_is_Some_2 node_list k Hk) as [node Hnode].
  rewrite Hnode.
  destruct (set_nodes x node a) as (a1 & -> & Hcov1 & Hkeep1).
  cbn [mbind outcome_bind].
  destruct (IH a1 HR) as (a' & -> & Hcov & Hkeep).
  exists a'. split_and!; [done| |by auto].
  intros k' [->|Hk']%elem_of_cons; [|by apply Hcov].
  intros node' n Hnode' Hn. apply Hkeep. apply Hcov1. by simplify_eq.
Qed.

Lemma append_nodes (x : nat) (node : list nat) :
  ∀ a, (∀ n, n ∈ node → is_Some (a !! n)) →
       ∃ a', for_loop node (append_label x) a = Returns a' ∧ keeps a a'.
Proof.
  induction node as [|n node IH]; intros a Hcov; cbn [for_loop].
  { by exists a. }
  destruct (Hcov n) as [label Hlabel]; [apply elem_of_cons; by left|].
  assert (append_label x n a = Returns (<[n := label ++ [x]]> a)) as ->.
  { unfold append_label. by rewrite Hlabel. }
  cbn [mbind outcome_bind].
  assert (keeps a (<[n := label ++ [x]]> a)) as Hkeep.
  { intros n' Hn'. destruct (decide (n = n')) as [->|Hne].
    - rewrite lookup_insert_eq. eauto.
    - by rewrite lookup_insert_ne. }
  destruct (IH (<[n := label ++ [x]]> a)) as (a' & -> & Hkeep').
  { intros n' Hn'. apply Hkeep, Hcov. apply elem_of_cons. by right. }
  exists a'. split; [done|]. auto.
Qed.

Lemma append_region (x : nat) (R : list nat) :
  ∀ a, Forall (λ k, (k < List.length node_list)%nat ∧
                    stage_covered node_list k a) R →
       ∃ a', for_region node_list (append_label x) R a = Returns a' ∧
             keeps a a'.
Proof.
  unfold for_region.
  induction R as [|k R IH]; intros a HR; cbn [for_loop].
  { by exists a. }
  apply Forall_cons in HR as [[Hk Hcov] HR].
  destruct (lookup_lt_is_Some_2 node_list k Hk) as [node Hnode].
  rewrite Hnode.
  destruct (append_nodes x node a) as (a1 & -> & Hkeep1).
  { intros n Hn. by eapply Hcov. }
  cbn [mbind outcome_bind].
  destruct (IH a1) as (a' & -> & Hkeep).
  { eapply Forall_impl; [exact HR|]. intros k' [? ?]. split; [done|].
    by eapply stage_covered_keeps. }
  exists a'. split; [done|]. auto.
Qed.

(** A run of [ForwardNograd] inside a region of the forward loop. *)
Lemma forward_nograd_run (ks : list nat) :
  ∀ (k0 : nat) (st : locals),
    in_ckpt st = true →
    for_loop (zip (seq k0 (List.length (ForwardNograd <$> ks)))
                  (ForwardNograd <$> ks))
             (forward_step node_list) st
    = Returns (mkLocals true (in_recompute st) (ckpt_idx st)
                 (ckpt_region st ++ seq k0 (List.length ks)) (attrs st)).
Proof.
  induction ks as [|k ks IH]; intros k0 st Hin.
  { cbn. rewrite app_nil_r. destruct st; cbn in *. by subst. }
  rewrite fmap_cons. cbn [List.length seq zip zip_with for_loop forward_step].
  rewrite Hin. cbn [mbind outcome_bind].
  rewrite IH by done. cbn. by rewrite <- app_assoc.
Qed.

(** The forward loop over a sweep closes every region that it opens. *)
Lemma forward_sweep_pass (L : nat) (HL : List.length node_list = L)
    (i : nat) (l : list Operation) :
  forward_sweep L i l →
  ∀ st, (in_ckpt st = true → (i < L)%nat) →
        (in_ckpt st = false → ckpt_region st = []) →
        Forall (λ k, (k < L)%nat) (ckpt_region st) →
        ∃ st', for_loop (zip (seq i (List.length l)) l)
                        (forward_step node_list) st = Returns st' ∧
               keeps (attrs st) (attrs st') ∧
               ∀ k, k ∈ ckpt_region st ∨ k ∈ ckpt_stages l →
                    stage_covered node_list k (attrs st').
Proof.
  induction 1 as [|i l Hi _ IH|i j l Hij _ IH]; intros st Hopen Hempty HR.
  - exists st. split_and!; [done|done|].
    destruct (in_ckpt st) eqn:Hin; [specialize (Hopen eq_refl); lia|].
    rewrite (Hempty eq_refl). intros k [Hk|Hk]; by apply elem_of_nil in Hk.
  - cbn [List.length seq zip zip_with for_loop forward_step].
    destruct (in_ckpt st) eqn:Hin.
    + destruct (set_region (ckpt_idx st) (ckpt_region st) (attrs st))
        as (a1 & -> & Hcov1 & Hkeep1); [by rewrite HL|].
      cbn [mbind outcome_bind].
      destruct (IH (mkLocals false (in_recompute st) (S (ckpt_idx st)) [] a1))
        as (st' & -> & Hkeep & Hcov); [done|done|constructor|].
      exists st'. split_and!; [done|cbn in Hkeep; by auto|].
      intros k [Hk|Hk].
      * eapply stage_covered_keeps; [exact Hkeep|]. by apply Hcov1.
      * apply Hcov. by right.
    + cbn [mbind outcome_bind].
      destruct (IH st) as (st' & -> & Hkeep & Hcov);
        [by rewrite Hin|intros _; by apply Hempty|done|].
      exists st'. split_and!; [done|done|].
      intros k [Hk|Hk]; apply Hcov; [by left|by right].
  - assert (∃ st1, forward_step node_list (i, ForwardCheck i) st = Returns st1 ∧
                   in_ckpt st1 = true ∧ ckpt_region st1 = [i] ∧
                   keeps (attrs st) (attrs st1) ∧
                   ∀ k, k ∈ ckpt_region st →
                        stage_covered node_list k (attrs st1))
      as (st1 & Hstep & Hin1 & HR1 & Hkeep1 & Hcov1).
    { cbn [forward_step]. destruct (in_ckpt st) eqn:Hin.
      - destruct (set_region (ckpt_idx st) (ckpt_region st) (attrs st))
          as (a1 & -> & Hcov1 & Hkeep1); [by rewrite HL|].
        cbn [mbind outcome_bind]. eexists. split_and!; [done..|].
        exact Hcov1.
      - rewrite (Hempty eq_refl). eexists. split_and!; [done..|].
        intros k Hk. by apply elem_of_nil in Hk. }
    cbn [List.length seq zip zip_with for_loop]. rewrite Hstep.
    cbn [mbind outcome_bind].
    rewrite zip_seq_app, annotate_loop_app, forward_nograd_run by done.
    cbn [mbind outcome_bind]. rewrite HR1.
    rewrite length_fmap.
    assert (S i + List.length (range (i + 1) j) = j)%nat as ->.
    { unfold range. rewrite length_seq. lia. }
    set (R := [i] ++ seq (S i) (List.length (range (i + 1) j))).
    assert (∀ k, k ∈ R ↔ (i ≤ k < j)%nat) as HRin.
    { intros k. unfold R, range. rewrite length_seq, elem_of_app.
      rewrite list_elem_of_singleton, elem_of_seq. lia. }
    destruct (IH (mkLocals true (in_recompute st1) (ckpt_idx st1) R (attrs st1)))
      as (st' & -> & Hkeep & Hcov).
    + intros _. lia.
    + done.
    + apply Forall_forall. intros k Hk%HRin. cbn. lia.
    + exists st'. split_and!; [done|cbn in Hkeep; by auto|].
      intros k [Hk|Hk].
      * eapply stage_covered_keeps; [exact Hkeep|]. by apply Hcov1.
      * cbn in Hk. rewrite ckpt_stages_app, ckpt_stages_nograd in Hk.
        apply elem_of_cons in Hk as [->|Hk].
        { apply Hcov. left. apply HRin. lia. }
        apply elem_of_app in Hk as [Hk|Hk].
        { apply Hcov. left. apply HRin. apply elem_of_range in Hk. lia. }
        apply Hcov. by right.
Qed.

(** The backward loop appends labels to covered stages only. *)
Lemma backward_pass (bwd : list Operation) :
  ∀ st,
    (in_recompute st = true →
     Forall (λ k, (k < List.length node_list)%nat ∧
                  stage_covered node_list k (attrs st)) (ckpt_region st)) →
    Forall (λ k, (k < List.length node_list)%nat ∧
                 stage_covered node_list k (attrs st)) (ckpt_stages bwd) →
    ∃ st', for_loop bwd (backward_step node_list) st = Returns st' ∧
           keeps (attrs st) (attrs st').
Proof.
  induction bwd as [|op bwd IH]; intros st HR Hops; cbn [for_loop].
  { by exists st. }
  assert (∃ st1, backward_step node_list op st = Returns st1 ∧
                 keeps (attrs st) (attrs st1) ∧
                 (in_recompute st1 = true →
                  Forall (λ k, (k < List.length node_list)%nat ∧
                               stage_covered node_list k (attrs st1))
                         (ckpt_region st1)))
    as (st1 & -> & Hkeep1 & HR1).
  { unfold backward_step. destruct (in_recompute st) eqn:Hin.
    - specialize (HR eq_refl).
      destruct op as [i|i|i|i|].
      + (* ForwardEnable *)
        destruct (append_region (ckpt_idx st) (ckpt_region st) (attrs st) HR)
          as (a1 & -> & Hkeep1). cbn [mbind outcome_bind].
        eexists. split_and!; [done|done|]. intros _. constructor.
      + (* ForwardCheck *)
        destruct (append_region (ckpt_idx st) (ckpt_region st) (attrs st) HR)
          as (a1 & -> & Hkeep1). cbn [mbind outcome_bind].
        eexists. split_and!; [done|done|]. intros _. cbn.
        cbn in Hops. apply Forall_cons in Hops as [[? Hc] _].
        constructor; [|constructor]. split; [done|].
        by eapply stage_covered_keeps.
      + (* ForwardNograd *)
        eexists. split_and!; [done|done|]. intros _. cbn.
        cbn in Hops. apply Forall_cons in Hops as [Hi _].
        apply Forall_app. split; [done|]. by constructor.
      + (* Backward *)
        destruct (append_region (ckpt_idx st) (ckpt_region st) (attrs st) HR)
          as (a1 & -> & Hkeep1). cbn [mbind outcome_bind].
        eexists. split_and!; [done|done|]. done.
      + (* Loss *)
        eexists. split_and!; [done|done|]. intros _. done.
    - destruct op as [i|i|i|i|].
      + eexists. split_and!; [done|done|]. intros _. constructor.
      + eexists. split_and!; [done|done|]. intros _. cbn.
        cbn in Hops. apply Forall_cons in Hops as [Hi _].
        by constructor.
      + eexists. split_and!; [done|done|]. intros _. constructor.
      + eexists. split_and!; [done|done|]. by rewrite Hin.
      + eexists. split_and!; [done|done|]. intros _. constructor. }
  cbn [mbind outcome_bind].
  destruct (IH st1 HR1) as (st' & -> & Hkeep).
  { assert (Forall (λ k, (k < List.length node_list)%nat ∧
                         stage_covered node_list k (attrs st))
                   (ckpt_stages bwd)) as Hops'.
    { unfold ckpt_stages in *. cbn [omap list_omap] in Hops.
      destruct (ckpt_index op); [by apply Forall_cons in Hops as [_ ?]|done]. }
    eapply Forall_impl; [exact Hops'|]. intros k [? ?]. split; [done|].
    by eapply stage_covered_keeps. }
  exists st'. split; [done|]. auto.
Qed.

(** The list is split at its first [Loss]. *)
Lemma annotate_split (fwd bwd : list Operation) (a : attributes) :
  ¬ (Loss ∈ fwd) →
  _annotate_from_sequence (fwd ++ Loss :: bwd) node_list a
  = annotate_passes fwd bwd node_list a.
Proof.
  intros Hfwd. unfold _annotate_from_sequence.
  assert (list_find (λ op, op = Loss) (fwd ++ Loss :: bwd)
          = Some (List.length fwd, Loss)) as ->.
  { apply list_find_Some. split_and!.
    - by rewrite lookup_app_r, Nat.sub_diag by lia.
    - done.
    - intros j y Hj Hlt ->. apply Hfwd.
      rewrite lookup_app_l in Hj by done. by eapply list_elem_of_lookup_2. }
  rewrite take_app_length.
  replace (fwd ++ Loss :: bwd) with ((fwd ++ [Loss]) ++ bwd)
    by (by rewrite <- app_assoc).
  rewrite drop_app_length'; [done|]. rewrite length_app. cbn. lia.
Qed.

End annotate_facts.


Section annotate_edges.
Import Annotate.
Context (node_list : list (list nat)).

#[local] Abbreviation no_stop r := (r ≠ Raises StopIteration).

Lemma for_loop_no_stop {A St : Type} (body : A → St → outcome St) (l : list A) :
  (∀ x s, no_stop (body x s)) → ∀ s, no_stop (for_loop l body s).
Proof.
  intros Hbody. induction l as [|x l IH]; intros s; cbn [for_loop]; [done|].
  specialize (Hbody x s). destruct (body x s); cbn [mbind outcome_bind];
    [apply IH|done].
Qed.

Lemma for_region_no_stop (update : nat → attributes → outcome attributes)
    (R : list nat) (a : attributes) :
  (∀ n a, no_stop (update n a)) → no_stop (for_region node_list update R a).
Proof.
  intros Hu. apply for_loop_no_stop. intros k a'.
  destruct (node_list !! k); [by apply for_loop_no_stop|done].
Qed.

Lemma bind_no_stop {A B : Type} (r : outcome A) (k : A → outcome B) :
  no_stop r → (∀ a, no_stop (k a)) → no_stop (r ≫= k).
Proof.
  intros Hr Hk. destruct r as [a|e]; cbn; [apply Hk|].
  intros [= ->]. by apply Hr.
Qed.

Lemma set_label_no_stop (x n : nat) (a : attributes) : no_stop (set_label x n a).
Proof. done. Qed.

Lemma append_label_no_stop (x n : nat) (a : attributes) :
  no_stop (append_label x n a).
Proof. unfold append_label. by destruct (a !! n). Qed.

Lemma passes_no_stop (fwd bwd : list Operation) (a : attributes) :
  no_stop (annotate_passes fwd bwd node_list a).
Proof.
  unfold annotate_passes. apply bind_no_stop.
  - apply for_loop_no_stop. intros [idx op] st. unfold forward_step.
    destruct (in_ckpt st), op; try done;
      (apply bind_no_stop; [|done]);
      apply for_region_no_stop, set_label_no_stop.
  - intros st. apply bind_no_stop; [|done].
    apply for_loop_no_stop. intros op st'. unfold backward_step.
    destruct (in_recompute st'), op; try done;
      (apply bind_no_stop; [|done]);
      apply for_region_no_stop, append_label_no_stop.
Qed.

(** The forward loop of a schedule without checkpoints. *)
Lemma forward_stores_everything (l : list Operation) :
  stores_everything l →
  ∀ k st, in_ckpt st = false →
          for_loop (zip (seq k (List.length l)) l) (forward_step node_list) st
          = Returns st.
Proof.
  induction 1 as [|op l Hop _ IH]; intros k st Hin; [done|].
  cbn [List.length seq zip zip_with for_loop forward_step]. rewrite Hin.
  destruct op; try done; cbn [mbind outcome_bind]; by apply IH.
Qed.

Lemma for_region_nil (update : nat → attributes → outcome attributes)
    (a : attributes) :
  for_region node_list update [] a = Returns a.
Proof. done. Qed.

(** The backward loop of a schedule without checkpoints. *)
Lemma backward_stores_everything (l : list Operation) :
  stores_everything l →
  ∀ st, (in_recompute st = true → ckpt_region st = []) →
        ∃ st', for_loop l (backward_step node_list) st = Returns st' ∧
               attrs st' = attrs st.
Proof.
  induction 1 as [|op l Hop _ IH]; intros st HR; cbn [for_loop].
  { by exists st. }
  assert (∃ st1, backward_step node_list op st = Returns st1 ∧
                 attrs st1 = attrs st ∧
                 (in_recompute st1 = true → ckpt_region st1 = []))
    as (st1 & -> & Ha & HR1).
  { unfold backward_step. destruct (in_recompute st) eqn:Hin.
    - pose proof (HR eq_refl) as HR'. rewrite HR'.
      destruct op as [i|i|i|i|]; [|done|done| |].
      + rewrite for_region_nil. cbn [mbind outcome_bind].
        eexists. split_and!; [reflexivity|reflexivity|]. by intros _.
      + rewrite for_region_nil. cbn [mbind outcome_bind].
        eexists. split_and!; [reflexivity|reflexivity|]. by intros ?.
      + exists st. split_and!; [reflexivity|reflexivity|]. by intros _.
    - destruct op as [i|i|i|i|]; [|done|done| |].
      + eexists. split_and!; [reflexivity|reflexivity|]. by intros _.
      + exists st. split_and!; [reflexivity|reflexivity|].
        rewrite Hin. by intros ?.
      + eexists. split_and!; [reflexivity|reflexivity|]. by intros _. }
  cbn [mbind outcome_bind].
  destruct (IH st1 HR1) as (st' & -> & Ha').
  exists st'. split; [done|]. congruence.
Qed.

(** A run of [ForwardNograd] inside a recomputation of the backward loop. *)
Lemma backward_nograd_run (ks : list nat) :
  ∀ st, in_recompute st = true →
        for_loop (ForwardNograd <$> ks) (backward_step node_list) st
        = Returns (mkLocals (in_ckpt st) true (ckpt_idx st)
                     (ckpt_region st ++ ks) (attrs st)).
Proof.
  induction ks as [|k ks IH]; intros st Hin.
  { cbn. rewrite app_nil_r. destruct st; cbn in *. by subst. }
  rewrite fmap_cons. cbn [for_loop].
  assert (backward_step node_list (ForwardNograd k) st
          = Returns (mkLocals (in_ckpt st) true (ckpt_idx st)
                       (ckpt_region st ++ [k]) (attrs st))) as ->.
  { unfold backward_step. by rewrite Hin. }
  cbn [mbind outcome_bind]. rewrite IH by done. cbn. by rewrite <- app_assoc.
Qed.

End annotate_edges.

(** X16. In a chain as [_construct_chain] builds it (no forward temporary,
    no backward temporary of the loss, positive forward times), every
    feasible cell of a range [(i, L)] that ends at the loss records the
    chain decision or a leaf decision with a boundary [j < L]: the solver
    never checkpoints a whole range up to the loss. *)
Theorem no_checkpoint_up_to_loss (c : Chain) (mmax : Z)
    (opt : gmap (Z * nat * nat) ext) (what : gmap (Z * nat * nat) decision)
    (m v : Z) (i : nat) :
  as_built c →
  _compute_table c mmax = Some (opt, what) →
  (i < chain_length c)%nat →
  opt !! (m, i, chain_length c) = Some (Fin v) →
  what !! (m, i, chain_length c) = Some ChainCkpt ∨
  ∃ j, what !! (m, i, chain_length c) = Some (LeafCkpt j) ∧
       (i < j < chain_length c)%nat.
Proof.
  intros (Hwf & Hftmp & Hbtmp & Hfw) Ht Hi Hv.
  destruct (table_dom c mmax opt what Hwf Ht m i (chain_length c)) as [Hm _];
    [eauto|].
  destruct (table_cell_cases c mmax opt what Hwf Ht m i (chain_length c))
    as [(_ & Ho & _)|(_ & leaf & chain & _ & _ & _ & Hw)];
    [done|lia|by rewrite Ho in Hv|].
  destruct (choose (best_of leaf) chain).2 as [|j] eqn:Hd; [by left|right].
  exists j. split; [done|].
  pose proof (what_leaf_bounds c mmax opt what Hwf Ht _ _ _ _ Hw) as Hj.
  destruct (decide (j = chain_length c)) as [->|Hne]; [|lia].
  exfalso. by eapply (no_leaf_at_loss c mmax opt what Hwf Ht Hftmp Hbtmp).
Qed.

Lemma no_checkpoint_up_to_loss_witness :
  (table_of chain_tie 5).2 !! (5, 0%nat, chain_length chain_tie)
  = Some ChainCkpt ∨
  ∃ j, (table_of chain_tie 5).2 !! (5, 0%nat, chain_length chain_tie)
       = Some (LeafCkpt j) ∧ (0 < j < chain_length chain_tie)%nat.
Proof.
  apply (no_checkpoint_up_to_loss chain_tie 5 (table_of chain_tie 5).1
           (table_of chain_tie 5).2 5 13 0).
  - split_and!; [solve_wf_chain|repeat constructor..].
  - vm_compute. reflexivity.
  - unfold chain_length. simpl. lia.
  - vm_compute. reflexivity.
Defined.

(** X18. On a sequence with a [Loss] and no [ForwardCheck] or
    [ForwardNograd] (nothing is recomputed), [_annotate_from_sequence]
    returns and leaves the attribute of every node as it was, whatever
    [node_list] is. *)
Theorem annotate_without_checkpoint (op_list : list Operation)
    (node_list : list (list nat)) (attrs0 : Annotate.attributes) :
  stores_everything op_list → Loss ∈ op_list →
  Annotate._annotate_from_sequence op_list node_list attrs0
  = Annotate.Returns attrs0.
Proof.
  intros Hs Hloss. unfold Annotate._annotate_from_sequence.
  destruct (list_find (λ op, op = Loss) op_list) as [[i x]|] eqn:Hfind.
  - unfold Annotate.annotate_passes, Annotate.enumerate.
    rewrite (forward_stores_everything node_list)
      by (done || by apply Forall_take).
    cbn [mbind Annotate.outcome_bind Annotate.in_ckpt Annotate.ckpt_idx
         Annotate.ckpt_region Annotate.attrs].
    destruct (backward_stores_everything node_list (drop (S i) op_list))
      with (st := Annotate.mkLocals false false 0 [] attrs0)
      as (st' & Hst & Ha); [by apply Forall_drop|done|].
    rewrite Hst. cbn [mbind Annotate.outcome_bind]. by rewrite Ha.
  - apply list_find_None in Hfind.
    by destruct (proj1 (Forall_forall _ _) Hfind Loss Hloss).
Qed.

Lemma annotate_without_checkpoint_witness :
  Annotate._annotate_from_sequence
    [ForwardEnable 0; ForwardEnable 1; Loss; Backward 1; Backward 0]
    [[10%nat]; [11%nat]] ∅
  = Annotate.Returns ∅.
Proof.
  apply annotate_without_checkpoint.
  - repeat constructor.
  - apply elem_of_cons. right. apply elem_of_cons. right.
    apply elem_of_cons. by left.
Defined.

(** X19. On a sequence that [_rec] returns for the whole chain, built as
    [_construct_chain] builds it, with one entry of [node_list] per stage,
    the two loops of [_annotate_from_sequence] never raise: every region
    opened before the loss is closed before it, and the backward loop
    appends only to nodes labelled by the forward loop.  No attribute is
    removed, and every node of a stage that the sequence runs with
    [ForwardCheck] or [ForwardNograd] has the attribute afterwards. *)
Theorem annotate_solver_sequence (c : Chain) (mmax : Z)
    (opt : gmap (Z * nat * nat) ext) (what : gmap (Z * nat * nat) decision)
    (fuel : nat) (cmem : Z) (s : list Operation)
    (node_list : list (list nat)) (attrs0 : Annotate.attributes) :
  as_built c →
  _compute_table c mmax = Some (opt, what) →
  _rec fuel c 0 (chain_length c) cmem (opt, what) = Ok s →
  List.length node_list = chain_length c →
  ∃ attrs',
    Annotate._annotate_from_sequence s node_list attrs0
    = Annotate.Returns attrs' ∧
    (∀ n, is_Some (attrs0 !! n) → is_Some (attrs' !! n)) ∧
    (∀ k, k ∈ ckpt_stages s → stage_covered node_list k attrs').
Proof.
  intros (Hwf & Hftmp & Hbtmp & Hfw) Ht Hs HL.
  pose proof (rec_ckpt_stages c mmax opt what Hwf Ht _ _ _ _ _ Hs) as Hbound.
  destruct (rec_sweep c mmax opt what Hwf Ht Hftmp Hbtmp Hfw _ _ _ _ Hs)
    as (fwd & bwd & -> & Hsweep & Hbwd).
  rewrite annotate_split by (by eapply forward_sweep_no_loss).
  unfold Annotate.annotate_passes, Annotate.enumerate.
  destruct (forward_sweep_pass node_list _ HL 0 fwd Hsweep
              (Annotate.mkLocals false false 0 [] attrs0))
    as (st1 & -> & Hkeep1 & Hcov1); [done|done|constructor|].
  cbn [mbind Annotate.outcome_bind].
  rewrite ckpt_stages_app in Hbound. cbn in Hbound.
  apply Forall_app in Hbound as [_ Hbound].
  destruct (backward_pass node_list bwd
              (Annotate.mkLocals (Annotate.in_ckpt st1) false
                 (Annotate.ckpt_idx st1) (Annotate.ckpt_region st1)
                 (Annotate.attrs st1)))
    as (st2 & -> & Hkeep2); [done| |].
  { cbn. apply Forall_forall. intros k Hk. split.
    - rewrite HL. by apply (proj1 (Forall_forall _ _) Hbound k).
    - apply Hcov1. right. by apply (proj1 (Forall_forall _ _) Hbwd k). }
  cbn [mbind Annotate.outcome_bind]. eexists. split; [done|].
  cbn in Hkeep1, Hkeep2. split; [by auto|].
  intros k Hk. eapply stage_covered_keeps; [exact Hkeep2|].
  apply Hcov1. right. rewrite ckpt_stages_app in Hk. cbn in Hk.
  apply elem_of_app in Hk as [Hk|Hk]; [done|].
  by apply (proj1 (Forall_forall _ _) Hbwd k).
Qed.

Lemma annotate_solver_sequence_witness :
  ∃ attrs',
    Annotate._annotate_from_sequence
      [ForwardCheck 0; ForwardEnable 1; ForwardEnable 2; Loss;
       Backward 2; Backward 1; ForwardEnable 0; Backward 0]
      [[10%nat]; [11%nat]; [12%nat]] ∅
    = Annotate.Returns attrs' ∧
    (∀ n, is_Some ((∅ : Annotate.attributes) !! n) → is_Some (attrs' !! n)) ∧
    (∀ k, k ∈ ckpt_stages
                [ForwardCheck 0; ForwardEnable 1; ForwardEnable 2; Loss;
                 Backward 2; Backward 1; ForwardEnable 0; Backward 0] →
          stage_covered [[10%nat]; [11%nat]; [12%nat]] k attrs').
Proof.
  apply (annotate_solver_sequence chain_tie 5 (table_of chain_tie 5).1
           (table_of chain_tie 5).2 4 5).
  - split_and!; [solve_wf_chain|repeat constructor..].
  - vm_compute. reflexivity.
  - vm_compute. reflexivity.
  - reflexivity.
Defined.

(** X20. A region that the forward loop has not closed when it reaches the
    loss is dropped: on a sequence whose forward part is a [ForwardCheck]
    followed by [ForwardNograd] only, and whose backward part starts with a
    [ForwardCheck] of a stage that has a node without the attribute, the
    first operation that closes the recomputed region raises
    [AttributeError]. *)
Theorem annotate_open_region (a b : nat) (l l' : list nat) (op : Operation)
    (rest : list Operation) (node_list : list (list nat))
    (attrs0 : Annotate.attributes) (n : nat) (node : list nat) :
  closes_region op →
  node_list !! b = Some (n :: node) →
  attrs0 !! n = None →
  Annotate._annotate_from_sequence
    ((ForwardCheck a :: (ForwardNograd <$> l)) ++
     Loss :: ForwardCheck b :: (ForwardNograd <$> l') ++ op :: rest)
    node_list attrs0
  = Annotate.Raises Annotate.AttributeError.
Proof.
  intros Hop Hb Hn. rewrite annotate_split.
  2: { intros [?|Hin]%elem_of_cons; [done|].
       apply list_elem_of_fmap in Hin as (? & ? & _). done. }
  unfold Annotate.annotate_passes, Annotate.enumerate.
  cbn [List.length seq zip zip_with Annotate.for_loop Annotate.forward_step
       Annotate.in_ckpt mbind Annotate.outcome_bind].
  rewrite forward_nograd_run by done.
  cbn [mbind Annotate.outcome_bind Annotate.for_loop Annotate.backward_step
       Annotate.in_recompute Annotate.in_ckpt Annotate.ckpt_idx
       Annotate.ckpt_region Annotate.attrs].
  rewrite annotate_loop_app, backward_nograd_run by done.
  cbn [mbind Annotate.outcome_bind Annotate.for_loop Annotate.backward_step
       Annotate.in_recompute Annotate.in_ckpt Annotate.ckpt_idx
       Annotate.ckpt_region Annotate.attrs app].
  assert (Annotate.for_region node_list (Annotate.append_label 0) (b :: l') attrs0
          = Annotate.Raises Annotate.AttributeError) as Hraise.
  { unfold Annotate.for_region. cbn [Annotate.for_loop]. rewrite Hb.
    cbn [Annotate.for_loop].
    assert (Annotate.append_label 0 n attrs0
            = Annotate.Raises Annotate.AttributeError) as ->.
    { unfold Annotate.append_label. by rewrite Hn. }
    done. }
  destruct op; try done; by rewrite Hraise.
Qed.

Lemma annotate_open_region_witness :
  Annotate._annotate_from_sequence
    ((ForwardCheck 0 :: (ForwardNograd <$> [1%nat])) ++
     Loss :: ForwardCheck 0 :: (ForwardNograd <$> []) ++
     ForwardEnable 1 :: [Backward 1; ForwardEnable 0; Backward 0])
    [[10%nat]; [11%nat]] ∅
  = Annotate.Raises Annotate.AttributeError.
Proof.
  apply (annotate_open_region 0 0 [1%nat] [] (ForwardEnable 1)
           [Backward 1; ForwardEnable 0; Backward 0]
           [[10%nat]; [11%nat]] ∅ 10%nat []).
  - exact I.
  - reflexivity.
  - reflexivity.
Defined.
